(** * mixsync: the synchronisation engine, embedded from the Python sources

    The repository ships two watcher/downloader implementations:
    - [src/app]               (module [App] below): one [processed_tracks]
      set, a four-variant search cascade, directory-scan file resolution;
    - [src/audio_fetcher/app] (module [AudioFetcher] below): [processed_tracks]
      and [failed_tracks], a single search per query, retry and eviction.

    Python [str] values that the code manipulates are lists of characters
    ([list ascii], code points below 256); track identifiers are opaque
    [string]s and live in [gset string]. *)

From Stdlib Require Import Ascii String ZArith Lia Sorted.
From stdpp Require Import base list gmap sets strings pretty.

#[local] Set Warnings "-clear-no-such-hyp".

Local Open Scope list_scope.

(** ** Python strings *)

Abbreviation pystr := (list ascii).

Definition py (s : string) : pystr := list_ascii_of_string s.

Module PyStr.

(** [str.isspace] / the [\s] class on code points below 256. *)
Definition is_space (c : ascii) : bool :=
  let n := nat_of_ascii c in
  ((9 <=? n) && (n <=? 13)) || ((28 <=? n) && (n <=? 32))
  || (n =? 133) || (n =? 160).

(** The [\w] class on code points below 256: alphanumeric or underscore. *)
Definition is_word (c : ascii) : bool :=
  let n := nat_of_ascii c in
  ((48 <=? n) && (n <=? 57)) || ((65 <=? n) && (n <=? 90)) || (n =? 95)
  || ((97 <=? n) && (n <=? 122))
  || (n =? 170) || (n =? 178) || (n =? 179) || (n =? 181) || (n =? 185) || (n =? 186)
  || ((188 <=? n) && (n <=? 190))
  || ((192 <=? n) && (n <=? 214)) || ((216 <=? n) && (n <=? 246))
  || ((248 <=? n) && (n <=? 255)).

(** Simple lower-casing on code points below 256. *)
Definition lower_char (c : ascii) : ascii :=
  let n := nat_of_ascii c in
  if ((65 <=? n) && (n <=? 90))
     || ((192 <=? n) && (n <=? 222) && negb (n =? 215))
  then ascii_of_nat (n + 32) else c.

Definition lower (s : pystr) : pystr := map lower_char s.

Fixpoint lstrip_by (p : ascii -> bool) (s : pystr) : pystr :=
  match s with
  | c :: s' => if p c then lstrip_by p s' else s
  | [] => []
  end.

Definition rstrip_by (p : ascii -> bool) (s : pystr) : pystr :=
  rev (lstrip_by p (rev s)).

(** [s.strip(chars)]: both ends. *)
Definition strip_by (p : ascii -> bool) (s : pystr) : pystr :=
  rstrip_by p (lstrip_by p s).

(** [s.strip()] *)
Definition strip (s : pystr) : pystr := strip_by is_space s.

Definition mem_char (c : ascii) (l : pystr) : bool :=
  existsb (Ascii.eqb c) l.

(** [sep.join(parts)] *)
Fixpoint join (sep : pystr) (parts : list pystr) : pystr :=
  match parts with
  | [] => []
  | [p] => p
  | p :: ps => p ++ sep ++ join sep ps
  end.

(** Reference functions used to describe [re.sub(r'\s+', ' ', s).strip()]. *)

(** Every run of whitespace becomes one blank; [in_run] tells whether the
    previous character was whitespace. *)
Fixpoint collapse (in_run : bool) (s : pystr) : pystr :=
  match s with
  | [] => []
  | c :: s' =>
      if is_space c then
        if in_run then collapse true s' else " "%char :: collapse true s'
      else c :: collapse false s'
  end.

Inductive squeeze_state := AtStart | InWord | AfterGap.

(** Words separated by single blanks, nothing at either end. *)
Fixpoint squeeze (st : squeeze_state) (s : pystr) : pystr :=
  match s with
  | [] => []
  | c :: s' =>
      if is_space c then
        squeeze (match st with AtStart => AtStart | _ => AfterGap end) s'
      else
        match st with
        | AfterGap => " "%char :: c :: squeeze InWord s'
        | _ => c :: squeeze InWord s'
        end
  end.

(** [s.startswith(p)] *)
Fixpoint startswith (p s : pystr) : bool :=
  match p, s with
  | [], _ => true
  | _ :: _, [] => false
  | a :: p', b :: s' => Ascii.eqb a b && startswith p' s'
  end.

(** [s.endswith(p)] *)
Definition endswith (p s : pystr) : bool := startswith (rev p) (rev s).

End PyStr.

(** ** The fragment of Python's [re] used by the program

    A backtracking matcher with Python's priorities: leftmost start,
    greedy repetition, first alternative first.  Repetition is only ever
    applied to a single character class in the sources. *)

Module Re.

Inductive cls : Type :=
| CChar (a : ascii)          (* a literal character *)
| CDot                       (* .   : anything but a newline *)
| CSpace                     (* \s *)
| COneOf (l : pystr)         (* [...] of literal characters *)
| CExcept (word space : bool) (others : pystr).
                             (* [^...]: not \w (if [word]), not \s (if
                                [space]), none of [others] *)

Inductive re : Type :=
| Eps
| One (k : cls)
| Star (k : cls)             (* k*  greedy *)
| Plus (k : cls)             (* k+  greedy *)
| LazyStar (k : cls)         (* k*? lazy   *)
| Bol                        (* ^ *)
| Eol                        (* $ *)
| Cat (r1 r2 : re)
| Alt (r1 r2 : re).

Definition newline : ascii := ascii_of_nat 10.

(** Does the class accept the character?  Under IGNORECASE only literal
    characters fold case: the bracket sets of the program hold no letters. *)
Definition cls_match (icase : bool) (k : cls) (c : ascii) : bool :=
  match k with
  | CChar a =>
      if icase then Ascii.eqb (PyStr.lower_char a) (PyStr.lower_char c)
      else Ascii.eqb a c
  | CDot => negb (Ascii.eqb c newline)
  | CSpace => PyStr.is_space c
  | COneOf l => PyStr.mem_char c l
  | CExcept word space others =>
      negb ((word && PyStr.is_word c) || (space && PyStr.is_space c)
            || PyStr.mem_char c others)
  end.

(** The continuation receives whether the position is still the start of
    the subject, and the unread rest. *)
Definition kont := bool -> pystr -> option pystr.

Fixpoint star_match (icase : bool) (k : cls) (bol : bool) (s : pystr)
    (cont : kont) : option pystr :=
  match s with
  | c :: s' =>
      if cls_match icase k c then
        match star_match icase k false s' cont with
        | Some r => Some r
        | None => cont bol s
        end
      else cont bol s
  | [] => cont bol []
  end.

Fixpoint lazy_match (icase : bool) (k : cls) (bol : bool) (s : pystr)
    (cont : kont) : option pystr :=
  match cont bol s with
  | Some r => Some r
  | None =>
      match s with
      | c :: s' =>
          if cls_match icase k c then lazy_match icase k false s' cont else None
      | [] => None
      end
  end.

Fixpoint rmatch (icase : bool) (r : re) (bol : bool) (s : pystr)
    (cont : kont) : option pystr :=
  match r with
  | Eps => cont bol s
  | One k =>
      match s with
      | c :: s' => if cls_match icase k c then cont false s' else None
      | [] => None
      end
  | Star k => star_match icase k bol s cont
  | Plus k =>
      match s with
      | c :: s' =>
          if cls_match icase k c then star_match icase k false s' cont
          else None
      | [] => None
      end
  | LazyStar k => lazy_match icase k bol s cont
  | Bol => if bol then cont bol s else None
  | Eol =>
      match s with
      | [] => cont bol s
      | [c] => if Ascii.eqb c newline then cont bol s else None
      | _ => None
      end
  | Cat r1 r2 => rmatch icase r1 bol s (fun b s' => rmatch icase r2 b s' cont)
  | Alt r1 r2 =>
      match rmatch icase r1 bol s cont with
      | Some x => Some x
      | None => rmatch icase r2 bol s cont
      end
  end.

(** A match anchored at the head of [s]; the result is the unread rest. *)
Definition match_at (icase : bool) (r : re) (bol : bool) (s : pystr)
    : option pystr :=
  rmatch icase r bol s (fun _ rest => Some rest).

(** [re.sub]: scan left to right, replace each match, resume after it.
    [skip] counts the characters of the current match still to be dropped.
    No pattern of the program matches the empty string, so the branch for an
    empty match (insert the replacement, copy one character) never fires. *)
Fixpoint sub_from (icase : bool) (r : re) (repl : pystr) (bol : bool)
    (skip : nat) (s : pystr) : pystr :=
  match skip with
  | S n =>
      match s with
      | _ :: s' => sub_from icase r repl false n s'
      | [] => []
      end
  | O =>
      match match_at icase r bol s with
      | Some rest =>
          match length s - length rest, s with
          | S m, _ :: s' => repl ++ sub_from icase r repl false m s'
          | _, c :: s' => repl ++ c :: sub_from icase r repl false 0 s'
          | _, [] => repl
          end
      | None =>
          match s with
          | c :: s' => c :: sub_from icase r repl false 0 s'
          | [] => []
          end
      end
  end.

(** [re.sub(pattern, repl, s, flags=...)] *)
Definition sub (icase : bool) (r : re) (repl s : pystr) : pystr :=
  sub_from icase r repl true 0 s.

(** Pattern builders. *)
Fixpoint cat (rs : list re) : re :=
  match rs with
  | [] => Eps
  | [r] => r
  | r :: rs' => Cat r (cat rs')
  end.

Definition lit (s : string) : re := cat (map (fun c => One (CChar c)) (py s)).

Definition dots : re := Star CDot.        (* .*  *)
Definition ws : re := Star CSpace.        (* \s* *)

(** Can the pattern match the empty string? *)
Fixpoint nullable (r : re) : bool :=
  match r with
  | Eps | Star _ | LazyStar _ | Bol | Eol => true
  | One _ | Plus _ => false
  | Cat r1 r2 => nullable r1 && nullable r2
  | Alt r1 r2 => nullable r1 || nullable r2
  end.

(** [needs c r]: every string matched by [r] contains the character [c]
    (a sufficient syntactic test). *)
Fixpoint needs (c : ascii) (r : re) : bool :=
  match r with
  | One (CChar a) | Plus (CChar a) => Ascii.eqb a c
  | Cat r1 r2 => needs c r1 || needs c r2
  | Alt r1 r2 => needs c r1 && needs c r2
  | _ => false
  end.

End Re.

(** ** Objects of the Spotify API *)

(** A track object of the Spotify API. *)
Record track_obj := {
  tr_id : option string;
  tr_name : pystr;
  tr_artists : list pystr;
  tr_album : option pystr;
  tr_uri : string }.

(** One item of a playlist page; the track may be [None]. *)
Record item := {
  item_track : option track_obj;
  added_at : pystr }.

Record page := {
  items : list item;
  next : bool }.

(** ** [src/app/utils.py] *)

Module AppUtils.
Import Re.

(** [[^\w\s\-]] *)
Definition special_re : re := One (CExcept true true (py "-")).
(** [\s+] *)
Definition spaces_re : re := Plus CSpace.

(** [format_search_query(track_info)] *)
Definition format_search_query (track_info : track_obj) : pystr :=
  let artist_string :=
    match tr_artists track_info with
    | [] => py "Unknown Artist"
    | artist_names => PyStr.join (py ", ") artist_names
    end in
  let search_query := artist_string ++ py " - " ++ tr_name track_info in
  let search_query := sub false special_re [] search_query in
  PyStr.strip (sub false spaces_re (py " ") search_query).

(** The catalogue of [clean_track_title], in source order. *)
Definition patterns_to_remove : list re :=
  [ (* Broad patterns that catch variations *)
    cat [lit "["; dots; lit "Official"; dots; lit "Music"; dots; lit "Video"; dots; lit "]"];
    cat [lit "["; dots; lit "Official"; dots; lit "Video"; dots; lit "]"];
    cat [lit "["; dots; lit "Music"; dots; lit "Video"; dots; lit "]"];
    cat [lit "["; dots; lit "Official"; dots; lit "Audio"; dots; lit "]"];
    cat [lit "("; dots; lit "Official"; dots; lit "Music"; dots; lit "Video"; dots; lit ")"];
    cat [lit "("; dots; lit "Official"; dots; lit "Video"; dots; lit ")"];
    cat [lit "("; dots; lit "Music"; dots; lit "Video"; dots; lit ")"];
    cat [lit "("; dots; lit "Official"; dots; lit "Audio"; dots; lit ")"];
    (* Specific common patterns *)
    lit "[Official Music Video]";
    lit "[Official Video]";
    lit "[Music Video]";
    lit "[Official Audio]";
    lit "[Audio]";
    lit "[Official]";
    lit "[HD]";
    lit "[4K]";
    lit "[Lyric Video]";
    lit "[Lyrics]";
    lit "[Visualizer]";
    lit "[Live]";
    lit "[Acoustic]";
    lit "[Remix]";
    lit "[Extended Mix]";
    lit "[Radio Edit]";
    lit "(Official Music Video)";
    lit "(Official Video)";
    lit "(Music Video)";
    lit "(Official Audio)";
    lit "(Audio)";
    lit "(Official)";
    lit "(HD)";
    lit "(4K)";
    lit "(Lyric Video)";
    lit "(Lyrics)";
    lit "(Visualizer)";
    lit "(Live)";
    lit "(Acoustic)";
    lit "(Remix)";
    lit "(Extended Mix)";
    lit "(Radio Edit)";
    (* Remove common prefixes *)
    cat [Bol; lit "Official"; ws; lit "-"; ws];      (* ^Official\s*-\s* *)
    cat [Bol; lit "Official:"; ws];                  (* ^Official:\s*    *)
    (* Remove extra whitespace and separators *)
    cat [ws; lit "-"; ws; Eol];                      (* \s*-\s*$  trailing dash *)
    cat [Bol; ws; lit "-"; ws]                       (* ^\s*-\s*  leading dash  *)
  ].

(** [for pattern in patterns_to_remove: cleaned = re.sub(pattern, '', cleaned, flags=re.IGNORECASE)] *)
Definition remove_patterns (title : pystr) : pystr :=
  fold_left (fun cleaned pattern => sub true pattern [] cleaned)
            patterns_to_remove title.

(** [\s*-\s*-\s*] *)
Definition double_dash_re : re := cat [ws; lit "-"; ws; lit "-"; ws].
(** [^-\s*|\s*-$] *)
Definition edge_dash_re : re :=
  Alt (cat [Bol; lit "-"; ws]) (cat [ws; lit "-"; Eol]).

(** The stages of [clean_track_title] up to, but excluding, the final
    length check. *)
Definition tidy (cleaned : pystr) : pystr :=
  let cleaned := PyStr.strip (sub false spaces_re (py " ") cleaned) in
  let cleaned := sub false double_dash_re (py " - ") cleaned in
  sub false edge_dash_re [] cleaned.

Definition clean_track_title (title : pystr) : pystr :=
  match title with
  | [] => py "Unknown Track"
  | _ =>
      let cleaned := tidy (remove_patterns title) in
      let cleaned :=
        match cleaned with
        | [] => title
        | _ => if length (PyStr.strip cleaned) <? 3 then title else cleaned
        end in
      PyStr.strip cleaned
  end.

Definition quote_char : ascii := ascii_of_nat 34.
Definition backslash : ascii := ascii_of_nat 92.

(** The class of [invalid_chars]: less-than, greater-than, colon, double
    quote, slash, backslash, bar, question mark, star. *)
Definition invalid_chars : pystr :=
  py "<>:" ++ [quote_char] ++ py "/" ++ [backslash] ++ py "|?*".

Definition is_underscore (c : ascii) : bool := Ascii.eqb c "_"%char.

Definition invalid_re : re := One (COneOf invalid_chars).
(** [_+] *)
Definition underscores_re : re := Plus (CChar "_"%char).

Definition sanitize_filename (filename : pystr) : pystr :=
  let sanitized := sub false invalid_re (py "_") filename in
  let sanitized := sub false underscores_re (py "_") sanitized in
  let sanitized := PyStr.strip (PyStr.strip_by is_underscore sanitized) in
  match sanitized with
  | [] => py "unknown_file"
  | _ => sanitized
  end.

(** [s.split(sep)[-1]]: what follows the last separator, or the whole
    string when there is none. *)
Fixpoint last_field (sep : ascii) (l : pystr) : pystr :=
  match l with
  | [] => []
  | c :: l' =>
      if PyStr.mem_char sep l' then last_field sep l'
      else if Ascii.eqb c sep then l' else c :: l'
  end.

(** [get_track_id_from_uri(spotify_uri)] *)
Definition get_track_id_from_uri (spotify_uri : string) : option string :=
  if String.prefix "spotify:track:" spotify_uri
  then Some (string_of_list_ascii (last_field ":"%char (py spotify_uri)))
  else None.

End AppUtils.

(** ** Collaborators of the downloaders: yt-dlp and the output directory *)

Inductive outcome (A : Type) : Type :=
| Returned (a : A)
| Raised.
Arguments Returned {A} a.
Arguments Raised {A}.

Record format := { acodec : option pystr }.

Record entry := {
  title : option pystr;
  webpage_url : option pystr;
  formats : option (list format) }.

(** The dictionary returned by [extract_info]; [entries] may be absent, and
    an entry may be [None]. *)
Record info := { entries : option (list (option entry)) }.

Record file := {
  name : pystr;
  is_file : bool;
  st_mtime : Z }.

(** Calls made on yt-dlp, in order. *)
Inductive ycall : Type :=
| YSearch (url : pystr)
| YDownload (url outtmpl : pystr).

(** The outside world as seen by a downloader: every answer may depend on
    the calls made so far. Times are in seconds. *)
Record ytdlp := {
  download_path : pystr;
  extract_info : list ycall -> pystr -> outcome (option info);
  (** returns the file names reported as finished by the progress hook *)
  download : list ycall -> pystr -> pystr -> outcome (list pystr);
  iterdir : list ycall -> outcome (list file);
  time_now : list ycall -> Z }.

Definition path_join (dir leaf : pystr) : pystr := dir ++ py "/" ++ leaf.

(** The dictionary [extract_info] returns for the url of one video. *)
Record video_info := { vi_title : option pystr }.

(** yt-dlp as seen by the downloads from a url: [extract_url_info] answers
    [extract_info] on the url of one video, [yt] answers the other calls. *)
Record ytdlp_url := {
  yt : ytdlp;
  extract_url_info : list ycall -> pystr -> outcome (option video_info) }.

(** ** [src/app/downloader.py] *)

Module AppDownloader.

(** [PurePath.suffix]: from the last dot of the name, unless that dot is the
    first or the last character. *)
Fixpoint rfind_dot (s : pystr) : option nat :=
  match s with
  | [] => None
  | c :: s' =>
      match rfind_dot s' with
      | Some i => Some (S i)
      | None => if Ascii.eqb c "."%char then Some 0 else None
      end
  end.

Definition suffix (nm : pystr) : pystr :=
  match rfind_dot nm with
  | Some i => if (0 <? i) && (i <? length nm - 1) then drop i nm else []
  | None => []
  end.

Definition audio_extensions : list pystr :=
  map py [".mp3"; ".m4a"; ".wav"; ".flac"; ".ogg"; ".webm"; ".opus"; ".aac"]%string.

Definition web_formats : list pystr :=
  map py [".mhtml"; ".html"; ".htm"; ".part"; ".tmp"; ".ytdl"]%string.

Definition ext_in (exts : list pystr) (f : file) : bool :=
  bool_decide (PyStr.lower (suffix (name f)) ∈ exts).

(** [max(files, key=lambda f: f.stat().st_mtime)]: the first file whose
    time no later file exceeds. *)
Definition latest (files : list file) : option file :=
  match files with
  | [] => None
  | f :: rest =>
      Some (fold_left (fun best g => if (st_mtime best <? st_mtime g)%Z then g else best)
                      rest f)
  end.

(** What [_find_downloaded_file] writes to the log. *)
Inductive log_entry : Type :=
| LogLookingFor (video_title : pystr)
| LogFilesInDirectory (names : list pystr)
| LogSkipping (nm : pystr)
| LogFoundAudio (nm : pystr)
| LogSelectedLatest (nm : pystr)
| LogNoAudioFiles
| LogFoundRecent (nm : pystr)
| LogNoSuitableFile.

(** The loop over the directory: web and temporary files are skipped, files
    with an audio extension are collected. *)
Fixpoint scan_audio (dir : list file) : list file * list log_entry :=
  match dir with
  | [] => ([], [])
  | f :: dir' =>
      let '(found, lg) := scan_audio dir' in
      if is_file f then
        if ext_in web_formats f then (found, LogSkipping (name f) :: lg)
        else if ext_in audio_extensions f then (f :: found, LogFoundAudio (name f) :: lg)
        else (found, lg)
      else (found, lg)
  end.

(** [_find_downloaded_file(video_title)] on the directory listing
    [all_files], read at time [now]. Returns the file and the log lines. *)
Definition _find_downloaded_file (all_files : list file) (now : Z)
    (video_title : pystr) : option file * list log_entry :=
  let lg0 :=
    [LogLookingFor video_title;
     LogFilesInDirectory (map name (filter (fun f => is_file f = true) all_files))] in
  let '(audio_files, lg1) := scan_audio all_files in
  match latest audio_files with
  | Some latest_file =>
      (Some latest_file, lg0 ++ lg1 ++ [LogSelectedLatest (name latest_file)])
  | None =>
      let recent_files :=
        filter (fun f => is_file f = true
                         ∧ ext_in web_formats f = false
                         ∧ (now - 60 < st_mtime f)%Z) all_files in
      match latest recent_files with
      | Some latest_file =>
          (Some latest_file,
           lg0 ++ lg1 ++ [LogNoAudioFiles; LogFoundRecent (name latest_file)])
      | None => (None, lg0 ++ lg1 ++ [LogNoAudioFiles; LogNoSuitableFile])
      end
  end.

Definition search_variations (search_query : pystr) : list pystr :=
  [ py "ytsearch1:" ++ search_query;
    py "ytsearch1:" ++ search_query ++ py " audio";
    py "ytsearch1:" ++ search_query ++ py " official";
    py "ytsearch1:" ++ search_query ++ py " music" ].

Definition has_audio (f : format) : bool :=
  negb (bool_decide (acodec f = Some (py "none"))).

(** The body of the loop of [search_and_download] for one [search_url]:
    [None] stands for every way of reaching [continue]. *)
Definition attempt (w : ytdlp) (h : list ycall) (search_url : pystr)
    (preferred_filename : option pystr) : option pystr * list ycall :=
  let h1 := h ++ [YSearch search_url] in
  match extract_info w h search_url with
  | Raised => (None, h1)
  | Returned None => (None, h1)
  | Returned (Some i) =>
      match entries i with
      | None | Some [] => (None, h1)
      | Some (None :: _) => (None, h1)           (* entry.get raises *)
      | Some (Some e :: _) =>
          let video_title := default (py "Unknown") (title e) in
          let video_url := default [] (webpage_url e) in
          let audio_formats := filter (fun f => has_audio f = true) (default [] (formats e)) in
          match audio_formats with
          | [] => (None, h1)
          | _ :: _ =>
              let final_filename :=
                match preferred_filename with
                | Some (c :: p) => AppUtils.sanitize_filename (c :: p)
                | _ => AppUtils.sanitize_filename (AppUtils.clean_track_title video_title)
                end in
              let outtmpl :=
                path_join (download_path w) (final_filename ++ py ".%(ext)s") in
              let h2 := h1 ++ [YDownload video_url outtmpl] in
              match download w h1 video_url outtmpl with
              | Raised => (None, h2)
              | Returned _ =>
                  match iterdir w h2 with
                  | Raised => (None, h2)
                  | Returned all_files =>
                      match fst (_find_downloaded_file all_files (time_now w h2) final_filename) with
                      | Some downloaded_file =>
                          (Some (path_join (download_path w) (name downloaded_file)), h2)
                      | None => (None, h2)
                      end
                  end
              end
          end
      end
  end.

(** [for i, search_url in enumerate(search_variations)] *)
Fixpoint try_variations (w : ytdlp) (h : list ycall) (urls : list pystr)
    (preferred_filename : option pystr) : option pystr * list ycall :=
  match urls with
  | [] => (None, h)
  | search_url :: urls' =>
      match attempt w h search_url preferred_filename with
      | (Some downloaded_file, h') => (Some downloaded_file, h')
      | (None, h') => try_variations w h' urls' preferred_filename
      end
  end.

Definition search_and_download (w : ytdlp) (h : list ycall)
    (search_query : pystr) (preferred_filename : option pystr)
    : option pystr * list ycall :=
  try_variations w h (search_variations search_query) preferred_filename.

(** [download_from_url_with_filename(url, preferred_filename)]; the
    [extract_info] call on the url is logged as [YSearch url]. *)
Definition download_from_url_with_filename (w : ytdlp_url) (h : list ycall)
    (url : pystr) (preferred_filename : option pystr) : option pystr * list ycall :=
  let h1 := h ++ [YSearch url] in
  match extract_url_info w h url with
  | Raised => (None, h1)
  | Returned None => (None, h1)
  | Returned (Some i) =>
      let video_title := default (py "Unknown") (vi_title i) in
      let final_filename :=
        match preferred_filename with
        | Some (c :: p) => AppUtils.sanitize_filename (c :: p)
        | _ => AppUtils.sanitize_filename (AppUtils.clean_track_title video_title)
        end in
      let outtmpl :=
        path_join (download_path (yt w)) (final_filename ++ py ".%(ext)s") in
      let h2 := h1 ++ [YDownload url outtmpl] in
      match download (yt w) h1 url outtmpl with
      | Raised => (None, h2)
      | Returned _ =>
          match iterdir (yt w) h2 with
          | Raised => (None, h2)
          | Returned all_files =>
              match fst (_find_downloaded_file all_files (time_now (yt w) h2) final_filename) with
              | Some downloaded_file =>
                  (Some (path_join (download_path (yt w)) (name downloaded_file)), h2)
              | None => (None, h2)
              end
          end
      end
  end.

Definition download_from_url (w : ytdlp_url) (h : list ycall) (url : pystr)
    : option pystr * list ycall :=
  download_from_url_with_filename w h url None.

End AppDownloader.

(** ** [src/audio_fetcher/app/utils.py] *)

Module AudioFetcherUtils.
Import Re.

(** [\(feat\..*?\)] *)
Definition feat_re : re := cat [lit "(feat."; LazyStar CDot; lit ")"].
(** [\(ft\..*?\)] *)
Definition ft_re : re := cat [lit "(ft."; LazyStar CDot; lit ")"].
(** [\[.*?\]] *)
Definition brackets_re : re := cat [lit "["; LazyStar CDot; lit "]"].
(** [\(.*?remix.*?\)] *)
Definition remix_re : re :=
  cat [lit "("; LazyStar CDot; lit "remix"; LazyStar CDot; lit ")"].

Definition clean_string (text : pystr) : pystr :=
  match text with
  | [] => []
  | _ =>
      let text := sub true feat_re [] text in
      let text := sub true ft_re [] text in
      let text := sub false brackets_re [] text in
      let text := sub true remix_re [] text in
      let text := sub false AppUtils.special_re [] text in
      let text := sub false AppUtils.spaces_re (py " ") text in
      PyStr.strip text
  end.

Definition format_search_query (artist title : pystr) (album : option pystr)
    : pystr :=
  let artist_clean := clean_string artist in
  let title_clean := clean_string title in
  let query := artist_clean ++ py " - " ++ title_clean in
  match album with
  | Some (c :: a) =>
      if bool_decide (clean_string (c :: a) = title_clean) then query
      else query ++ py " " ++ clean_string (c :: a)
  | _ => query
  end.

Definition is_dot_or_underscore (c : ascii) : bool :=
  Ascii.eqb c "."%char || Ascii.eqb c "_"%char.

Definition get_safe_filename (text : pystr) (max_length : nat) : pystr :=
  match text with
  | [] => py "unknown"
  | _ =>
      let safe_name := sub false AppUtils.invalid_re [] text in
      let safe_name := sub false AppUtils.spaces_re (py "_") safe_name in
      let safe_name := PyStr.strip_by is_dot_or_underscore safe_name in
      let safe_name :=
        if max_length <? length safe_name
        then PyStr.rstrip_by is_dot_or_underscore (take max_length safe_name)
        else safe_name in
      match safe_name with
      | [] => py "unknown"
      | _ => safe_name
      end
  end.

End AudioFetcherUtils.

(** ** [src/audio_fetcher/app/downloader.py] *)

Module AudioFetcherDownloader.

(** [_search_and_download_sync(search_query, max_results)], with the decimal
    rendering of [max_results] passed alongside. *)
Definition _search_and_download_sync (w : ytdlp) (h : list ycall)
    (search_query : pystr) (max_results : pystr) : option pystr * list ycall :=
  let search_url := py "ytsearch" ++ max_results ++ py ":" ++ search_query in
  let safe_filename := AudioFetcherUtils.get_safe_filename search_query 100 in
  let output_template :=
    path_join (download_path w) (safe_filename ++ py ".%(ext)s") in
  let h1 := h ++ [YSearch search_url] in
  match extract_info w h search_url with
  | Raised => (None, h1)
  | Returned None => (None, h1)
  | Returned (Some i) =>
      match entries i with
      | None | Some [] => (None, h1)
      | Some (None :: _) => (None, h1)
      | Some (Some first_entry :: _) =>
          match webpage_url first_entry with
          | None => (None, h1)                    (* KeyError *)
          | Some url =>
              let h2 := h1 ++ [YDownload url output_template] in
              match download w h1 url output_template with
              | Raised => (None, h2)
              | Returned downloaded_files => (head downloaded_files, h2)
              end
          end
      end
  end.

(** [search_and_download(search_query, max_results=1)] *)
Definition search_and_download (w : ytdlp) (h : list ycall)
    (search_query : pystr) : option pystr * list ycall :=
  _search_and_download_sync w h search_query (py "1").

(** [self.download_path.glob('*' + ext)] on the listing [dir] of the
    download directory: the entries whose name ends with [ext]. *)
Definition glob (dir : list file) (ext : pystr) : list file :=
  filter (fun f => PyStr.endswith ext (name f) = true) dir.

Definition cleanup_extensions : list pystr :=
  map py [".mp3"; ".m4a"; ".wav"; ".flac"]%string.

(** [audio_files.sort(key=lambda x: x.stat().st_mtime, reverse=True)]: a
    stable sort, newest first. *)
Fixpoint insert_newest_first (x : file) (l : list file) : list file :=
  match l with
  | [] => [x]
  | y :: r =>
      if (st_mtime x <? st_mtime y)%Z then y :: insert_newest_first x r
      else x :: y :: r
  end.

Definition sort_newest_first (l : list file) : list file :=
  foldr insert_newest_first [] l.

(** [l[m:]] *)
Definition slice_from {A : Type} (m : Z) (l : list A) : list A :=
  if (0 <=? m)%Z then drop (Z.to_nat m) l
  else drop (length l - Z.to_nat (- m)) l.

(** The removal loop: [unlink] is tried on every file, whether the calls
    before it raised or not.  [done] are the names tried so far. *)
Fixpoint unlink_all (unlink : list pystr -> pystr -> outcome unit)
    (done : list pystr) (files_to_remove : list file) : list (file * outcome unit) :=
  match files_to_remove with
  | [] => []
  | file_path :: rest =>
      (file_path, unlink done (name file_path))
        :: unlink_all unlink (done ++ [name file_path]) rest
  end.

(** [cleanup_old_files(max_files)] on the listing [dir] of the download
    directory, which the four [glob] calls and the [stat] calls all see.
    The result is the files [unlink] was called on, with its outcomes. *)
Definition cleanup_old_files (dir : list file)
    (unlink : list pystr -> pystr -> outcome unit) (max_files : Z)
    : list (file * outcome unit) :=
  let audio_files := flat_map (glob dir) cleanup_extensions in
  let audio_files := sort_newest_first audio_files in
  if (max_files <? Z.of_nat (length audio_files))%Z then
    unlink_all unlink [] (slice_from max_files audio_files)
  else [].

End AudioFetcherDownloader.

(** ** Collaborators of the watchers: the Spotify API and the downloader *)

(** Calls made by a watcher on its collaborators, in order. *)
Inductive wcall : Type :=
| WFetch
| WDownload (search_query : pystr) (preferred_filename : option pystr)
| WRemove (track_uri : string).

(** [item['track'] and item['track']['id']] *)
Definition listed_track (it : item) : option (track_obj * string) :=
  match item_track it with
  | Some t =>
      match tr_id t with
      | Some i => if bool_decide (i = ""%string) then None else Some (t, i)
      | None => None
      end
  | None => None
  end.

(** ** [src/app/spotify_watcher.py] *)

Module App.

Record track_data := {
  track_info : track_obj;
  track_id : string;                 (* track_info['id'] *)
  td_added_at : pystr;
  playlist_position : nat }.

(** The watcher's collaborators: the Spotify client and the downloader.
    Every answer may depend on the calls made so far. *)
Record services := {
  playlist_pages : list wcall -> list (outcome page);
  playlist_remove_all_occurrences_of_items : list wcall -> string -> outcome unit;
  search_and_download : list wcall -> pystr -> option pystr -> option pystr }.

Record state := {
  spotify_client : bool;             (* false: [None] *)
  processed_tracks : gset string;
  trace : list wcall }.

Record stats := {
  new_tracks : nat;
  downloaded : nat;
  failed : nat }.

Definition log (c : wcall) (σ : state) : state :=
  {| spotify_client := spotify_client σ;
     processed_tracks := processed_tracks σ;
     trace := trace σ ++ [c] |}.

Definition add_processed (i : string) (σ : state) : state :=
  {| spotify_client := spotify_client σ;
     processed_tracks := {[ i ]} ∪ processed_tracks σ;
     trace := trace σ |}.

(** The paging loop of [get_playlist_tracks]; [None] when a request raises. *)
Fixpoint collect (pages : list (outcome page)) (tracks : list track_data)
    : option (list track_data) :=
  match pages with
  | [] => Some tracks
  | Raised :: _ => None
  | Returned results :: rest =>
      let tracks' :=
        fold_left
          (fun acc it =>
             match listed_track it with
             | Some (t, i) =>
                 acc ++ [ {| track_info := t; track_id := i;
                             td_added_at := added_at it;
                             playlist_position := length acc |} ]
             | None => acc
             end)
          (items results) tracks in
      if next results then collect rest tracks' else Some tracks'
  end.

Definition get_playlist_tracks (w : services) (σ : state)
    : list track_data * state :=
  if spotify_client σ then
    (default [] (collect (playlist_pages w (trace σ)) []), log WFetch σ)
  else ([], σ).

Definition is_new (σ : state) (td : track_data) : Prop :=
  track_id td ∉ processed_tracks σ.

Definition get_new_tracks (w : services) (σ : state)
    : list track_data * state :=
  let '(all_tracks, σ1) := get_playlist_tracks w σ in
  (filter (is_new σ1) all_tracks, σ1).

Definition remove_track_from_playlist (w : services) (σ : state)
    (i : string) : bool * state :=
  if spotify_client σ then
    let track_uri := ("spotify:track:" +:+ i)%string in
    match playlist_remove_all_occurrences_of_items w (trace σ) track_uri with
    | Returned _ => (true, log (WRemove track_uri) σ)
    | Raised => (false, log (WRemove track_uri) σ)
    end
  else (false, σ).

Definition spotify_filename (t : track_obj) : pystr :=
  PyStr.join (py ", ") (tr_artists t) ++ py " - " ++ tr_name t.

(** [process_track(track_data)].  The collaborators it calls catch their own
    exceptions (the downloader answers [None], the removal [False]), so the
    [except] branch of the source is not reached. *)
Definition process_track (w : services) (σ : state) (td : track_data)
    : bool * state :=
  let search_query := AppUtils.format_search_query (track_info td) in
  let filename := spotify_filename (track_info td) in
  let downloaded_file := search_and_download w (trace σ) search_query (Some filename) in
  let σ1 := log (WDownload search_query (Some filename)) σ in
  match downloaded_file with
  | Some _ =>
      let '(removed, σ2) := remove_track_from_playlist w σ1 (track_id td) in
      if removed then (true, add_processed (track_id td) σ2)
      else (false, σ2)
  | None =>
      (* Mark as processed to avoid repeated attempts *)
      (false, add_processed (track_id td) σ1)
  end.

Definition zero_stats : stats := {| new_tracks := 0; downloaded := 0; failed := 0 |}.

(** [for track_data in new_tracks] of [sync_playlist] *)
Fixpoint process_all (w : services) (σ : state) (tds : list track_data)
    (st : stats) : stats * state :=
  match tds with
  | [] => (st, σ)
  | td :: tds' =>
      let '(ok, σ') := process_track w σ td in
      let st' :=
        if ok
        then {| new_tracks := new_tracks st; downloaded := downloaded st + 1; failed := failed st |}
        else {| new_tracks := new_tracks st; downloaded := downloaded st; failed := failed st + 1 |} in
      process_all w σ' tds' st'
  end.

Definition sync_playlist (w : services) (σ : state) : stats * state :=
  let st := zero_stats in
  if spotify_client σ then
    let '(new, σ1) := get_new_tracks w σ in
    let st := {| new_tracks := length new; downloaded := downloaded st; failed := failed st |} in
    match new with
    | [] => (st, σ1)
    | _ => process_all w σ1 new st
    end
  else (st, σ).

End App.

(** ** [src/audio_fetcher/app/spotify_watcher.py] *)

Module AudioFetcher.

(** The dictionary built by [extract_track_info]. *)
Record track := {
  t_title : pystr;
  t_artist : pystr;
  t_album : option pystr;
  t_id : string;
  t_uri : string }.

Record services := {
  playlist_pages : list wcall -> list (outcome page);
  playlist_remove_all_occurrences_of_items : list wcall -> string -> outcome unit;
  search_and_download : list wcall -> pystr -> option pystr;
  now : list wcall -> Z }.

Record state := {
  spotify_client : bool;
  last_check : option Z;
  processed_tracks : gset string;
  failed_tracks : gset string;
  trace : list wcall }.

Definition log (c : wcall) (σ : state) : state :=
  {| spotify_client := spotify_client σ; last_check := last_check σ;
     processed_tracks := processed_tracks σ;
     failed_tracks := failed_tracks σ;
     trace := trace σ ++ [c] |}.

Definition add_processed (i : string) (σ : state) : state :=
  {| spotify_client := spotify_client σ; last_check := last_check σ;
     processed_tracks := {[ i ]} ∪ processed_tracks σ;
     failed_tracks := failed_tracks σ;
     trace := trace σ |}.

Definition add_failed (i : string) (σ : state) : state :=
  {| spotify_client := spotify_client σ; last_check := last_check σ;
     processed_tracks := processed_tracks σ;
     failed_tracks := {[ i ]} ∪ failed_tracks σ;
     trace := trace σ |}.

Definition discard_failed (i : string) (σ : state) : state :=
  {| spotify_client := spotify_client σ; last_check := last_check σ;
     processed_tracks := processed_tracks σ;
     failed_tracks := failed_tracks σ ∖ {[ i ]};
     trace := trace σ |}.

Definition set_last_check (t : Z) (σ : state) : state :=
  {| spotify_client := spotify_client σ; last_check := Some t;
     processed_tracks := processed_tracks σ;
     failed_tracks := failed_tracks σ;
     trace := trace σ |}.

Definition extract_track_info (t : track_obj) (i : string) : track :=
  {| t_title := tr_name t;
     t_artist :=
       match tr_artists t with
       | [] => py "Unknown Artist"
       | artists => PyStr.join (py ", ") artists
       end;
     t_album := tr_album t;
     t_id := i;
     t_uri := tr_uri t |}.

(** The paging loop of [get_playlist_tracks]; [None] when a request raises. *)
Fixpoint collect (pages : list (outcome page)) (tracks : list track)
    : option (list track) :=
  match pages with
  | [] => Some tracks
  | Raised :: _ => None
  | Returned results :: rest =>
      match items results with
      | [] => Some tracks
      | its =>
          let tracks' :=
            tracks ++ omap (fun it => (fun '(t, i) => extract_track_info t i) <$> listed_track it) its in
          if next results then collect rest tracks' else Some tracks'
      end
  end.

Definition get_playlist_tracks (w : services) (σ : state)
    : list track * state :=
  if spotify_client σ then
    (default [] (collect (playlist_pages w (trace σ)) []), log WFetch σ)
  else ([], σ).

Definition remove_track_from_playlist (w : services) (σ : state)
    (track_uri : string) : bool * state :=
  if spotify_client σ then
    match playlist_remove_all_occurrences_of_items w (trace σ) track_uri with
    | Returned _ => (true, log (WRemove track_uri) σ)
    | Raised => (false, log (WRemove track_uri) σ)
    end
  else (false, σ).

(** [process_track(track)].  As in the app watcher, the calls inside the
    [try] block catch their own exceptions. *)
Definition process_track (w : services) (σ : state) (t : track)
    : bool * state :=
  let search_query :=
    AudioFetcherUtils.format_search_query (t_artist t) (t_title t) (t_album t) in
  let download_result := search_and_download w (trace σ) search_query in
  let σ1 := log (WDownload search_query None) σ in
  match download_result with
  | Some _ =>
      let '(removed, σ2) := remove_track_from_playlist w σ1 (t_uri t) in
      if removed then (true, add_processed (t_id t) σ2)
      else (true, add_processed (t_id t) σ2)      (* Still mark as processed *)
  | None => (false, add_failed (t_id t) σ1)
  end.

(** [for track in ...: await self.process_track(track)] *)
Fixpoint process_all (w : services) (σ : state) (ts : list track) : state :=
  match ts with
  | [] => σ
  | t :: ts' => process_all w (snd (process_track w σ t)) ts'
  end.

Definition is_new (σ : state) (t : track) : Prop :=
  (t_id t ∉ processed_tracks σ) ∧ (t_id t ∉ failed_tracks σ).

Definition check_playlist_for_new_tracks (w : services) (σ : state) : state :=
  if spotify_client σ then
    let '(tracks, σ1) := get_playlist_tracks w σ in
    match tracks with
    | [] => σ1
    | _ =>
        match filter (is_new σ1) tracks with
        | [] => σ1
        | new_tracks =>
            let σ2 := process_all w σ1 new_tracks in
            set_last_check (now w (trace σ2)) σ2
        end
    end
  else σ.

Definition retry_failed_tracks (w : services) (σ : state) : state :=
  if bool_decide (failed_tracks σ = ∅) then σ
  else
    let '(current_tracks, σ1) := get_playlist_tracks w σ in
    let current_track_ids : gset string := list_to_set (map t_id current_tracks) in
    let failed_tracks_to_retry :=
      filter (fun t => t_id t ∈ failed_tracks σ1 ∧ t_id t ∈ current_track_ids)
             current_tracks in
    match failed_tracks_to_retry with
    | [] => σ1
    | _ =>
        let σ2 := fold_left (fun s t => discard_failed (t_id t) s) failed_tracks_to_retry σ1 in
        process_all w σ2 failed_tracks_to_retry
    end.

Definition clear_processed (σ : state) : state :=
  {| spotify_client := spotify_client σ; last_check := last_check σ;
     processed_tracks := ∅; failed_tracks := failed_tracks σ; trace := trace σ |}.

Definition clear_failed (σ : state) : state :=
  {| spotify_client := spotify_client σ; last_check := last_check σ;
     processed_tracks := processed_tracks σ; failed_tracks := ∅; trace := trace σ |}.

Definition cleanup_processed_tracks (σ : state) : state :=
  let σ1 := if 1000 <? size (processed_tracks σ) then clear_processed σ else σ in
  if 100 <? size (failed_tracks σ1) then clear_failed σ1 else σ1.

End AudioFetcher.

(** ** [src/app/web_ui.py] *)

Module AppWebUI.

(** What the handlers raise: FastAPI's [HTTPException], whose detail is a
    literal or a literal followed by [str(e)], or another exception. *)
Inductive exc : Type :=
| HTTPException (status_code : nat) (detail : message)
| OtherException (text : pystr)
with message : Type :=
| Text (s : pystr)
| TextAndStr (s : pystr) (e : exc).

Inductive result (A : Type) : Type :=
| Return (content : A)
| Raise (e : exc).
Arguments Return {A} content.
Arguments Raise {A} e.

(** [try: body  except ...: handlers] *)
Definition try_except {A : Type} (body : result A) (handlers : exc -> result A)
    : result A :=
  match body with
  | Return a => Return a
  | Raise e => handlers e
  end.

(** The content of the [JSONResponse] of a download. *)
Record download_content := {
  dc_success : bool;
  dc_message : pystr;
  dc_filename : pystr }.

Definition truthy (s : pystr) : bool :=
  match s with [] => false | _ :: _ => true end.

(** [download_from_form(url, filename)].  The downloader catches its own
    exceptions, so only the [HTTPException]s of the body reach the
    handlers. *)
Definition download_from_form (w : ytdlp_url) (h : list ycall)
    (url : pystr) (filename : option pystr)
    : result download_content * list ycall :=
  let body : result download_content * list ycall :=
    if negb (truthy url) || negb (truthy (PyStr.strip url)) then
      (Raise (HTTPException 400 (Text (py "URL is required"))), h)
    else
      let url := PyStr.strip url in
      if negb (PyStr.startswith (py "http://") url
               || PyStr.startswith (py "https://") url) then
        (Raise (HTTPException 400 (Text (py "Invalid URL format"))), h)
      else
        let preferred_filename :=
          match filename with
          | Some fn =>
              if truthy fn && truthy (PyStr.strip fn)
              then Some (AppUtils.sanitize_filename (PyStr.strip fn))
              else None
          | None => None
          end in
        let '(downloaded_file, h') :=
          match preferred_filename with
          | Some (c :: p) =>
              AppDownloader.download_from_url_with_filename w h url (Some (c :: p))
          | _ => AppDownloader.download_from_url w h url
          end in
        match downloaded_file with
        | Some f =>
            (Return {| dc_success := true;
                       dc_message := py "Download completed successfully";
                       dc_filename := f |}, h')
        | None => (Raise (HTTPException 500 (Text (py "Download failed"))), h')
        end in
  (try_except (fst body)
     (fun e =>
        match e with
        | HTTPException _ _ => Raise e                       (* except HTTPException: raise *)
        | OtherException _ =>
            Raise (HTTPException 500 (TextAndStr (py "Download error: ") e))
        end),
   snd body).

(** [get_download_info(url)] over the answer of the downloader's
    [get_download_info]. *)
Definition get_download_info {A : Type}
    (downloader_get_download_info : pystr -> option A) (url : pystr) : result A :=
  try_except
    (match downloader_get_download_info url with
     | Some info => Return info
     | None =>
         Raise (HTTPException 404 (Text (py "Could not get media information")))
     end)
    (fun e => Raise (HTTPException 500 (TextAndStr (py "Info error: ") e))).

End AppWebUI.

(** * Vocabulary of the statements *)

(** A character that only matches itself when case is ignored. *)
Definition caseless (c : ascii) : Prop :=
  forall a, PyStr.lower_char c = PyStr.lower_char a -> c = a.

(** The string [s] does not contain the character [c]. *)
Definition lacks (c : ascii) (s : pystr) : Prop := Forall (fun a => a <> c) s.

(** The number of leading whitespace characters. *)
Definition lead (s : pystr) : nat :=
  length s - length (PyStr.lstrip_by PyStr.is_space s).

(** The punctuation the patterns of the catalogue and the dash rules are
    built around. *)
Definition markup_chars : pystr := py "[(-:".

Definition has_text (s : pystr) : bool :=
  existsb (fun c => negb (PyStr.is_space c)) s.

(** Every pattern the program hands to [re.sub]. *)
Definition all_patterns : list Re.re :=
  AppUtils.patterns_to_remove
  ++ [AppUtils.special_re; AppUtils.spaces_re; AppUtils.double_dash_re;
      AppUtils.edge_dash_re; AppUtils.invalid_re; AppUtils.underscores_re;
      AudioFetcherUtils.feat_re; AudioFetcherUtils.ft_re;
      AudioFetcherUtils.brackets_re; AudioFetcherUtils.remix_re].

(** The files kept by the first pass of the resolver. *)
Definition is_audio_file (f : file) : bool :=
  is_file f && negb (AppDownloader.ext_in AppDownloader.web_formats f)
  && AppDownloader.ext_in AppDownloader.audio_extensions f.

(** The search urls among the calls made on yt-dlp. *)
Definition searches (h : list ycall) : list pystr :=
  omap (fun c => match c with YSearch u => Some u | _ => None end) h.

(** Specification helper: all of [urls], tried in order, miss; the result
    is the call history they leave. *)
Fixpoint all_miss (w : ytdlp) (h : list ycall) (urls : list pystr)
    (preferred_filename : option pystr) : option (list ycall) :=
  match urls with
  | [] => Some h
  | u :: urls' =>
      match AppDownloader.attempt w h u preferred_filename with
      | (None, h') => all_miss w h' urls' preferred_filename
      | (Some _, _) => None
      end
  end.

(** The downloader calls among the calls of a watcher. *)
Definition downloads (h : list wcall) : list (pystr * option pystr) :=
  omap (fun c => match c with WDownload q f => Some (q, f) | _ => None end) h.

(** The arguments of the downloader call the app watcher makes for a track. *)
Definition download_args (td : App.track_data) : pystr * option pystr :=
  (AppUtils.format_search_query (App.track_info td),
   Some (App.spotify_filename (App.track_info td))).

(** [stats['failed'] += 1] *)
Definition count_failed (st : App.stats) : App.stats :=
  {| App.new_tracks := App.new_tracks st;
     App.downloaded := App.downloaded st;
     App.failed := App.failed st + 1 |}.

(** The query the audio_fetcher watcher searches for a track. *)
Definition query_of (t : AudioFetcher.track) : pystr :=
  AudioFetcherUtils.format_search_query
    (AudioFetcher.t_artist t) (AudioFetcher.t_title t) (AudioFetcher.t_album t).

Definition disjoint_sets (σ : AudioFetcher.state) : Prop :=
  AudioFetcher.processed_tracks σ ## AudioFetcher.failed_tracks σ.

(** The id is in exactly one of the two sets. *)
Definition in_one_set (σ : AudioFetcher.state) (i : string) : Prop :=
  (i ∈ AudioFetcher.processed_tracks σ ∧ i ∉ AudioFetcher.failed_tracks σ)
  ∨ (i ∈ AudioFetcher.failed_tracks σ ∧ i ∉ AudioFetcher.processed_tracks σ).

(** Every track of [ts] has its id in neither set. *)
Definition fresh_ids (σ : AudioFetcher.state) (ts : list AudioFetcher.track) : Prop :=
  forall t, t ∈ ts ->
    (AudioFetcher.t_id t ∉ AudioFetcher.processed_tracks σ)
    ∧ (AudioFetcher.t_id t ∉ AudioFetcher.failed_tracks σ).

(** The tracks that [retry_failed_tracks] reprocesses: the fetched ones
    whose id is in [failed_tracks]. *)
Definition retried (w : AudioFetcher.services) (σ : AudioFetcher.state)
    : list AudioFetcher.track :=
  filter (fun t => AudioFetcher.t_id t ∈ AudioFetcher.failed_tracks σ)
         (fst (AudioFetcher.get_playlist_tracks w σ)).

(** ** Titles in their final form *)

(** The next non-blank character, if any, is a dash. *)
Definition starts_dash (s : pystr) : bool :=
  match PyStr.lstrip_by PyStr.is_space s with
  | c :: _ => Ascii.eqb c "-"%char
  | [] => false
  end.

(** There is a next non-blank character, and it is not a dash. *)
Definition text_ahead (s : pystr) : bool :=
  match PyStr.lstrip_by PyStr.is_space s with
  | c :: _ => negb (Ascii.eqb c "-"%char)
  | [] => false
  end.

(** Every dash is followed by text that does not begin with another dash. *)
Fixpoint dashes_apart (s : pystr) : bool :=
  match s with
  | [] => true
  | c :: r => (if Ascii.eqb c "-"%char then text_ahead r else true) && dashes_apart r
  end.

(** The characters of [w] match, one by one, the head of [s]. *)
Fixpoint prefix_match (icase : bool) (w s : pystr) : bool :=
  match w, s with
  | [], _ => true
  | _ :: _, [] => false
  | a :: w', c :: s' => Re.cls_match icase (Re.CChar a) c && prefix_match icase w' s'
  end.

(** [w] occurs somewhere in [s]. *)
Fixpoint occurs (icase : bool) (w s : pystr) : bool :=
  prefix_match icase w s
  || match s with
     | [] => false
     | _ :: s' => occurs icase w s'
     end.

(** A pattern as the sequence of its parts. *)
Fixpoint atoms (r : Re.re) : list Re.re :=
  match r with
  | Re.Cat r1 r2 => atoms r1 ++ atoms r2
  | _ => [r]
  end.

(** The literal characters at the head of a sequence of parts. *)
Fixpoint lead_chars (parts : list Re.re) : pystr :=
  match parts with
  | Re.One (Re.CChar c) :: rest => c :: lead_chars rest
  | _ => []
  end.

(** The literal character sequences of a sequence of parts: from every
    literal character, the literal characters that follow it. *)
Fixpoint runs (parts : list Re.re) : list pystr :=
  match parts with
  | [] => []
  | Re.One (Re.CChar c) :: rest => (c :: lead_chars rest) :: runs rest
  | _ :: rest => runs rest
  end.

(** Matching a sequence of parts. *)
Fixpoint rmatch_atoms (icase : bool) (parts : list Re.re) (bol : bool) (s : pystr)
    (cont : Re.kont) : option pystr :=
  match parts with
  | [] => cont bol s
  | a :: rest => Re.rmatch icase a bol s (fun b s' => rmatch_atoms icase rest b s' cont)
  end.

(** The bracketed patterns of the catalogue: all but its last four. *)
Definition bracket_patterns : list Re.re := take 40 AppUtils.patterns_to_remove.

(** Each bracketed pattern of the catalogue has a literal character
    sequence that does not occur in the title, in any case. *)
Definition tags_absent (s : pystr) : bool :=
  forallb (fun r => existsb (fun w => negb (occurs true w s)) (runs (atoms r)))
          bracket_patterns.

(** The title begins, in any case, with [Official:] or with [Official]
    followed by optional blanks and a dash. *)
Definition official_lead (s : pystr) : bool :=
  PyStr.startswith (py "official:") (PyStr.lower s)
  || (PyStr.startswith (py "official") (PyStr.lower s) && starts_dash (drop 8 s)).

(** A title in its final form. *)
Definition settled (u : pystr) : Prop :=
  PyStr.squeeze PyStr.AtStart u = u
  /\ tags_absent u = true
  /\ official_lead u = false
  /\ text_ahead u = true
  /\ dashes_apart u = true.

(** ** Vocabulary of the further properties *)

(** Reference function for [re.sub] of a repeated class [k+]: every run of
    characters of [k] becomes [repl]. *)
Fixpoint squash (icase : bool) (k : Re.cls) (repl : pystr) (in_run : bool)
    (s : pystr) : pystr :=
  match s with
  | [] => []
  | c :: s' =>
      if Re.cls_match icase k c then
        if in_run then squash icase k repl true s'
        else repl ++ squash icase k repl true s'
      else c :: squash icase k repl false s'
  end.

(** The characters a formatted search query is made of: word characters,
    the blank and the dash. *)
Definition query_char (c : ascii) : bool :=
  PyStr.is_word c || Ascii.eqb c " "%char || Ascii.eqb c "-"%char.

(** No character of the reserved set of [sanitize_filename]. *)
Definition reserved_free (s : pystr) : bool :=
  forallb (fun c => negb (PyStr.mem_char c AppUtils.invalid_chars)) s.

Definition space_free (s : pystr) : bool :=
  forallb (fun c => negb (PyStr.is_space c)) s.

(** The download calls among the calls made on yt-dlp: url and output
    template. *)
Definition ydownloads (h : list ycall) : list (pystr * pystr) :=
  omap (fun c => match c with YDownload u o => Some (u, o) | _ => None end) h.

(** The first entry of a search answer, when it carries a format with an
    audio codec. *)
Definition audio_entry (a : outcome (option info)) : option entry :=
  match a with
  | Returned (Some i) =>
      match entries i with
      | Some (Some e :: _) =>
          match filter (fun f => AppDownloader.has_audio f = true) (default [] (formats e)) with
          | [] => None
          | _ :: _ => Some e
          end
      | _ => None
      end
  | _ => None
  end.

(** The file name [search_and_download] writes an entry to. *)
Definition final_filename (preferred_filename : option pystr) (e : entry) : pystr :=
  match preferred_filename with
  | Some (c :: p) => AppUtils.sanitize_filename (c :: p)
  | _ => AppUtils.sanitize_filename
           (AppUtils.clean_track_title (default (py "Unknown") (title e)))
  end.

(** The output template [search_and_download] hands to yt-dlp for an entry. *)
Definition outtmpl_of (w : ytdlp) (preferred_filename : option pystr) (e : entry)
    : pystr :=
  path_join (download_path w) (final_filename preferred_filename e ++ py ".%(ext)s").

(** A regular file that is neither a web page nor a temporary file. *)
Definition acceptable_file (f : file) : bool :=
  is_file f && negb (AppDownloader.ext_in AppDownloader.web_formats f).

(** The path names an acceptable file of some listing of the output
    directory. *)
Definition resolved (w : ytdlp) (p : pystr) : Prop :=
  exists hk files f,
    iterdir w hk = Returned files /\ In f files /\ acceptable_file f = true
    /\ p = path_join (download_path w) (name f).

(** A directory for the resolver: an old audio file, a fresh web page, a
    fresh subtitle file and a subdirectory. *)
Definition sample_directory : list file :=
  [ {| name := py "Old Song.mp3"; is_file := true; st_mtime := 10 |};
    {| name := py "page.mhtml"; is_file := true; st_mtime := 990 |};
    {| name := py "New Song.vtt"; is_file := true; st_mtime := 995 |};
    {| name := py "covers.mp3"; is_file := false; st_mtime := 999 |} ].

(** The fetched tracks one [sync_playlist] has to process. *)
Definition pending (w : App.services) (σ : App.state) : list App.track_data :=
  filter (fun td => App.track_id td ∉ App.processed_tracks σ)
         (fst (App.get_playlist_tracks w σ)).

(** The fetched tracks one [check_playlist_for_new_tracks] has to process. *)
Definition af_pending (w : AudioFetcher.services) (σ : AudioFetcher.state)
    : list AudioFetcher.track :=
  filter (fun t => (AudioFetcher.t_id t ∉ AudioFetcher.processed_tracks σ)
                   ∧ (AudioFetcher.t_id t ∉ AudioFetcher.failed_tracks σ))
         (fst (AudioFetcher.get_playlist_tracks w σ)).

(** A fetched track carries the id of its track object, and that id is not
    empty. *)
Definition well_identified (td : App.track_data) : Prop :=
  tr_id (App.track_info td) = Some (App.track_id td) ∧ App.track_id td ≠ ""%string.

(** Every removal call that [h] makes after its first [length base] calls
    directly follows a downloader call that [ok] accepts. *)
Definition removals_follow_downloads
    (ok : list wcall -> pystr -> option pystr -> Prop) (base h : list wcall) : Prop :=
  forall pre u post,
    h = pre ++ WRemove u :: post -> length base <= length pre ->
    exists pre' q f, pre = pre' ++ [WDownload q f] /\ ok pre' q f.

(** The url, stripped, starts with [http://] or [https://]. *)
Definition http_url (url : pystr) : bool :=
  PyStr.startswith (py "http://") (PyStr.strip url)
  || PyStr.startswith (py "https://") (PyStr.strip url).

(** The directory entries [cleanup_old_files] looks at. *)
Definition cleanup_candidates (dir : list file) : list file :=
  flat_map (AudioFetcherDownloader.glob dir) AudioFetcherDownloader.cleanup_extensions.

(** Newest first. *)
Definition newest_first : list file -> Prop :=
  StronglySorted (fun a b => (st_mtime b <= st_mtime a)%Z).

(** * Concrete playlists and worlds *)

Definition song (i : string) (nm : string) : item :=
  {| item_track := Some {| tr_id := Some i; tr_name := py nm;
                           tr_artists := [py "Artist"]; tr_album := None;
                           tr_uri := ("spotify:track:" +:+ i)%string |};
     added_at := py "2024-05-01T10:00:00Z" |}.

Definition one_page (its : list item) : list (outcome page) :=
  [Returned {| items := its; next := false |}].

(** [dl] answers the downloader calls, [rm] the removal calls. *)
Definition app_world (its : list item)
    (dl : list wcall -> option pystr) (rm : outcome unit) : App.services :=
  {| App.playlist_pages := fun _ => one_page its;
     App.playlist_remove_all_occurrences_of_items := fun _ _ => rm;
     App.search_and_download := fun h _ _ => dl h |}.

Definition app_start : App.state :=
  {| App.spotify_client := true; App.processed_tracks := ∅; App.trace := [] |}.

Definition app_disconnected : App.state :=
  {| App.spotify_client := false; App.processed_tracks := {[ "t0"%string ]};
     App.trace := [] |}.

Definition af_world (its : list item)
    (dl : list wcall -> option pystr) (rm : outcome unit) : AudioFetcher.services :=
  {| AudioFetcher.playlist_pages := fun _ => one_page its;
     AudioFetcher.playlist_remove_all_occurrences_of_items := fun _ _ => rm;
     AudioFetcher.search_and_download := fun h _ => dl h;
     AudioFetcher.now := fun h => Z.of_nat (length h) |}.

Definition af_start : AudioFetcher.state :=
  {| AudioFetcher.spotify_client := true; AudioFetcher.last_check := None;
     AudioFetcher.processed_tracks := ∅; AudioFetcher.failed_tracks := ∅;
     AudioFetcher.trace := [] |}.

Definition never_found : list wcall -> option pystr := fun _ => None.
Definition always_found : list wcall -> option pystr :=
  fun _ => Some (py "downloads/Artist - Song.mp3").
(** The first downloader call succeeds, every later one fails. *)
Definition found_once : list wcall -> option pystr :=
  fun h => match downloads h with [] => Some (py "downloads/Artist - Song.mp3") | _ => None end.

Definition the_song : item := song "t1" "Song".

Definition the_song_app : App.track_data :=
  {| App.track_info := default {| tr_id := None; tr_name := []; tr_artists := [];
                                   tr_album := None; tr_uri := ""%string |}
                               (item_track the_song);
     App.track_id := "t1"%string;
     App.td_added_at := added_at the_song;
     App.playlist_position := 0 |}.

Definition the_song_af : AudioFetcher.track :=
  {| AudioFetcher.t_title := py "Song"; AudioFetcher.t_artist := py "Artist";
     AudioFetcher.t_album := None; AudioFetcher.t_id := "t1"%string;
     AudioFetcher.t_uri := "spotify:track:t1"%string |}.

(** A world in which only the [audio] variant of the query has a result. *)
Definition audio_variant_world : ytdlp :=
  {| download_path := py "downloads";
     extract_info := fun _ url =>
       if bool_decide (url = py "ytsearch1:Artist - Song audio")
       then Returned (Some {| entries := Some [Some
              {| title := Some (py "Artist - Song (Official Audio)");
                 webpage_url := Some (py "https://example.org/v");
                 formats := Some [ {| acodec := Some (py "opus") |} ] |}] |})
       else Returned (Some {| entries := Some [] |});
     download := fun _ _ _ => Returned [py "downloads/Artist - Song.mp3"];
     iterdir := fun _ =>
       Returned [ {| name := py "Artist - Song.mp3"; is_file := true; st_mtime := 100 |} ];
     time_now := fun _ => 100%Z |}.

Definition two_songs : list item := [song "t1" "Song"; song "t2" "Other"].

(** A registry in which [t1] has failed before. *)
Definition af_one_failed : AudioFetcher.state :=
  {| AudioFetcher.spotify_client := true; AudioFetcher.last_check := None;
     AudioFetcher.processed_tracks := ∅;
     AudioFetcher.failed_tracks := {[ "t1"%string ]};
     AudioFetcher.trace := [] |}.

(** A playlist of two pages whose second request raises. *)
Definition broken_pages : list (outcome page) :=
  [Returned {| items := [the_song]; next := true |}; Raised].

Definition app_broken_world : App.services :=
  {| App.playlist_pages := fun _ => broken_pages;
     App.playlist_remove_all_occurrences_of_items := fun _ _ => Returned tt;
     App.search_and_download := fun h _ _ => always_found h |}.

Definition af_broken_world : AudioFetcher.services :=
  {| AudioFetcher.playlist_pages := fun _ => broken_pages;
     AudioFetcher.playlist_remove_all_occurrences_of_items := fun _ _ => Returned tt;
     AudioFetcher.search_and_download := fun h _ => always_found h;
     AudioFetcher.now := fun h => Z.of_nat (length h) |}.

(** A registry whose failed track [t9] is no longer in the playlist. *)
Definition af_stale_failed : AudioFetcher.state :=
  {| AudioFetcher.spotify_client := true; AudioFetcher.last_check := None;
     AudioFetcher.processed_tracks := ∅;
     AudioFetcher.failed_tracks := {[ "t9"%string ]};
     AudioFetcher.trace := [] |}.

(** A registry with 1001 processed ids, the decimal numerals of 0 to 1000. *)
Definition af_full_registry : AudioFetcher.state :=
  {| AudioFetcher.spotify_client := true; AudioFetcher.last_check := None;
     AudioFetcher.processed_tracks := list_to_set (pretty <$> seq 0 1001);
     AudioFetcher.failed_tracks := ∅;
     AudioFetcher.trace := [] |}.

(** A world in which every url is a video, downloaded as in
    [audio_variant_world]. *)
Definition url_world : ytdlp_url :=
  {| yt := audio_variant_world;
     extract_url_info := fun _ _ =>
       Returned (Some {| vi_title := Some (py "Artist - Song (Official Audio)") |}) |}.

(** A download directory for [cleanup_old_files]. *)
Definition cleanup_directory : list file :=
  [ {| name := py "a.mp3"; is_file := true; st_mtime := 10 |};
    {| name := py "b.opus"; is_file := true; st_mtime := 5 |};
    {| name := py "c.flac"; is_file := true; st_mtime := 30 |};
    {| name := py "d.mp3"; is_file := true; st_mtime := 20 |} ].

(** * Facts about the string primitives *)

Section StripFacts.
Variable p : ascii -> bool.

Lemma lstrip_by_app_single (l : pystr) (c : ascii) :
  PyStr.lstrip_by p (l ++ [c]) =
  match PyStr.lstrip_by p l with
  | [] => if p c then [] else [c]
  | x => x ++ [c]
  end.
Proof.
  induction l as [|a l IH]; simpl.
  - destruct (p c); reflexivity.
  - destruct (p a); [exact IH | reflexivity].
Qed.

(** Trailing characters are dropped from the right: the right-fold reading
    of [rstrip]. *)
Lemma rstrip_by_cons (c : ascii) (s : pystr) :
  PyStr.rstrip_by p (c :: s) =
  match PyStr.rstrip_by p s with
  | [] => if p c then [] else [c]
  | x => c :: x
  end.
Proof.
  unfold PyStr.rstrip_by. simpl. rewrite lstrip_by_app_single.
  destruct (PyStr.lstrip_by p (rev s)) as [|a x] eqn:E; simpl.
  - destruct (p c); reflexivity.
  - rewrite rev_app_distr. simpl.
    destruct (rev x ++ [a]) eqn:E'.
    + destruct (rev x); discriminate.
    + reflexivity.
Qed.

Lemma lstrip_by_idem (s : pystr) :
  PyStr.lstrip_by p (PyStr.lstrip_by p s) = PyStr.lstrip_by p s.
Proof.
  induction s as [|c s IH]; simpl; [reflexivity|].
  destruct (p c) eqn:E; [exact IH|]. simpl. rewrite E. reflexivity.
Qed.

Lemma rstrip_by_idem (s : pystr) :
  PyStr.rstrip_by p (PyStr.rstrip_by p s) = PyStr.rstrip_by p s.
Proof.
  unfold PyStr.rstrip_by. rewrite rev_involutive, lstrip_by_idem. reflexivity.
Qed.

Lemma lstrip_rstrip_comm (s : pystr) :
  PyStr.lstrip_by p (PyStr.rstrip_by p s) = PyStr.rstrip_by p (PyStr.lstrip_by p s).
Proof.
  induction s as [|c s IH]; [reflexivity|].
  rewrite rstrip_by_cons. simpl. destruct (p c) eqn:E.
  - rewrite <- IH. destruct (PyStr.rstrip_by p s); simpl; [reflexivity|].
    rewrite E. reflexivity.
  - rewrite rstrip_by_cons.
    destruct (PyStr.rstrip_by p s); simpl; rewrite E; reflexivity.
Qed.

Lemma strip_by_idem (s : pystr) :
  PyStr.strip_by p (PyStr.strip_by p s) = PyStr.strip_by p s.
Proof.
  unfold PyStr.strip_by.
  rewrite lstrip_rstrip_comm, lstrip_by_idem, rstrip_by_idem. reflexivity.
Qed.

Lemma lstrip_by_length (s : pystr) :
  length (PyStr.lstrip_by p s) <= length s.
Proof.
  induction s as [|c s IH]; simpl; [lia|]. destruct (p c); simpl; lia.
Qed.

Lemma lstrip_by_Forall (P : ascii -> Prop) (s : pystr) :
  Forall P s -> Forall P (PyStr.lstrip_by p s).
Proof.
  induction 1 as [|c s Hc Hs IH]; simpl; [constructor|].
  destruct (p c); [exact IH | constructor; assumption].
Qed.

Lemma rstrip_by_Forall (P : ascii -> Prop) (s : pystr) :
  Forall P s -> Forall P (PyStr.rstrip_by p s).
Proof.
  induction 1 as [|c s Hc Hs IH]; [constructor|].
  rewrite rstrip_by_cons. destruct (PyStr.rstrip_by p s).
  - destruct (p c); constructor; [assumption | constructor].
  - constructor; assumption.
Qed.

Lemma strip_by_Forall (P : ascii -> Prop) (s : pystr) :
  Forall P s -> Forall P (PyStr.strip_by p s).
Proof. intros H. apply rstrip_by_Forall, lstrip_by_Forall, H. Qed.

(** A string with a character outside [p] keeps it when stripped. *)
Lemma strip_by_nonempty (s : pystr) :
  existsb (fun c => negb (p c)) s = true -> PyStr.strip_by p s <> [].
Proof.
  unfold PyStr.strip_by. induction s as [|c s IH]; simpl; [discriminate|].
  destruct (p c) eqn:E; simpl; [exact IH|]. intros _.
  rewrite rstrip_by_cons. destruct (PyStr.rstrip_by p s); [rewrite E|]; discriminate.
Qed.

End StripFacts.

(** * Facts about the matcher *)

Section MatchFails.
Import Re.
Variable Q : pystr -> Prop.
Hypothesis Q_tail : forall c s, Q (c :: s) -> Q s.

(** A match can only succeed through its continuation. *)
Lemma star_match_fails icase k (s : pystr) :
  forall bol (cont : kont),
    Q s -> (forall b s', Q s' -> cont b s' = None) ->
    star_match icase k bol s cont = None.
Proof using Q_tail.
  induction s as [|c s IH]; intros bol cont HQ Hc; simpl.
  - apply Hc, HQ.
  - destruct (cls_match icase k c).
    + rewrite (IH false cont (Q_tail _ _ HQ) Hc). apply Hc, HQ.
    + apply Hc, HQ.
Qed.

Lemma lazy_match_fails icase k (s : pystr) :
  forall bol (cont : kont),
    Q s -> (forall b s', Q s' -> cont b s' = None) ->
    lazy_match icase k bol s cont = None.
Proof using Q_tail.
  induction s as [|c s IH]; intros bol cont HQ Hc; simpl; rewrite (Hc _ _ HQ).
  - reflexivity.
  - destruct (cls_match icase k c); [|reflexivity].
    apply IH; [apply (Q_tail _ _ HQ) | assumption].
Qed.

Lemma rmatch_fails icase (r : re) :
  forall bol (s : pystr) (cont : kont),
    Q s -> (forall b s', Q s' -> cont b s' = None) ->
    rmatch icase r bol s cont = None.
Proof using Q_tail.
  induction r as [|k|k|k|k| | |r1 IH1 r2 IH2|r1 IH1 r2 IH2];
    intros bol s cont HQ Hc; simpl.
  - apply Hc, HQ.
  - destruct s as [|c s]; [reflexivity|].
    destruct (cls_match icase k c); [|reflexivity].
    apply Hc, (Q_tail _ _ HQ).
  - apply star_match_fails; assumption.
  - destruct s as [|c s]; [reflexivity|].
    destruct (cls_match icase k c); [|reflexivity].
    apply star_match_fails; [apply (Q_tail _ _ HQ) | assumption].
  - apply lazy_match_fails; assumption.
  - destruct bol; [apply Hc, HQ | reflexivity].
  - destruct s as [|c [|c' s]]; [apply Hc, HQ | | reflexivity].
    destruct (Ascii.eqb c newline); [apply Hc, HQ | reflexivity].
  - apply IH1; [assumption|]. intros b s' HQ'. apply IH2; assumption.
  - rewrite IH1 by assumption. apply IH2; assumption.
Qed.

End MatchFails.

(** No pattern of the program can match the empty string. *)
Lemma all_patterns_consume :
  forallb (fun r => negb (Re.nullable r)) all_patterns = true.
Proof. vm_compute. reflexivity. Qed.

Lemma cls_match_caseless icase (c a : ascii) :
  caseless c -> Re.cls_match icase (Re.CChar c) a = true -> c = a.
Proof.
  intros Hc. simpl. destruct icase; intros H.
  - apply Hc. apply Ascii.eqb_eq, H.
  - apply Ascii.eqb_eq, H.
Qed.

Section NeedsChar.
Import Re.
Variable c : ascii.
Hypothesis c_caseless : caseless c.

Lemma lacks_tail a s : lacks c (a :: s) -> lacks c s.
Proof. intros H. inversion H. assumption. Qed.

Lemma lacks_head_mismatch icase a s :
  lacks c (a :: s) -> cls_match icase (CChar c) a = false.
Proof using c_caseless.
  intros H. inversion H as [|? ? Hne _]; subst.
  destruct (cls_match icase (CChar c) a) eqn:E; [|reflexivity].
  apply cls_match_caseless in E; [congruence | assumption].
Qed.

(** A pattern that needs [c] matches nowhere in a string without [c]. *)
Lemma needs_fails icase (r : re) :
  needs c r = true ->
  forall bol (s : pystr) (cont : kont),
    lacks c s -> rmatch icase r bol s cont = None.
Proof using c_caseless.
  induction r as [|k|k|k|k| | |r1 IH1 r2 IH2|r1 IH1 r2 IH2];
    simpl; try discriminate.
  - destruct k; try discriminate. intros Ha bol s cont Hs.
    apply Ascii.eqb_eq in Ha. subst a.
    destruct s as [|a s]; [reflexivity|].
    rewrite (lacks_head_mismatch icase a s Hs). reflexivity.
  - destruct k; try discriminate. intros Ha bol s cont Hs.
    apply Ascii.eqb_eq in Ha. subst a.
    destruct s as [|a s]; [reflexivity|].
    rewrite (lacks_head_mismatch icase a s Hs). reflexivity.
  - intros H bol s cont Hs. apply orb_true_iff in H. destruct H as [H|H].
    + apply IH1; assumption.
    + apply (rmatch_fails (lacks c) lacks_tail); [assumption|].
      intros b s' Hs'. apply IH2; assumption.
  - intros H bol s cont Hs. apply andb_true_iff in H. destruct H as [H1 H2].
    rewrite IH1 by assumption. apply IH2; assumption.
Qed.

(** Substituting such a pattern changes nothing. *)
Lemma sub_from_lacks icase (r : re) (repl : pystr) :
  needs c r = true ->
  forall (s : pystr) bol, lacks c s -> sub_from icase r repl bol 0 s = s.
Proof using c_caseless.
  intros Hr. induction s as [|a s IH]; intros bol Hs; simpl;
    unfold match_at; rewrite (needs_fails icase r Hr) by assumption.
  - reflexivity.
  - rewrite IH by (eapply lacks_tail; eassumption). reflexivity.
Qed.

Lemma sub_lacks icase (r : re) (repl s : pystr) :
  needs c r = true -> lacks c s -> sub icase r repl s = s.
Proof using c_caseless. intros. apply sub_from_lacks; assumption. Qed.

End NeedsChar.

(** * Whitespace normalisation: [re.sub(r'\s+', ' ', s).strip()] *)

Section Whitespace.
Import Re PyStr.

Lemma lead_space c s : is_space c = true -> lead (c :: s) = S (lead s).
Proof.
  intros H. unfold lead. simpl. rewrite H.
  pose proof (lstrip_by_length is_space s). lia.
Qed.

Lemma lead_word c s : is_space c = false -> lead (c :: s) = 0.
Proof. intros H. unfold lead. simpl. rewrite H. simpl. lia. Qed.

(** The greedy run of [\s*] with nothing after it takes all the leading
    whitespace. *)
Lemma star_space_all icase bol (s : pystr) :
  star_match icase CSpace bol s (fun _ rest => Some rest)
  = Some (lstrip_by is_space s).
Proof.
  revert bol. induction s as [|c s IH]; intros bol; simpl; [reflexivity|].
  destruct (is_space c); [rewrite IH|]; reflexivity.
Qed.

Lemma sub_spaces_collapse icase (s : pystr) :
  forall bol,
    sub_from icase (Plus CSpace) (py " ") bol 0 s = collapse false s
    /\ sub_from icase (Plus CSpace) (py " ") bol (lead s) s = collapse true s.
Proof.
  induction s as [|c s IH]; intros bol.
  - split; reflexivity.
  - destruct (is_space c) eqn:E.
    + assert (H0 : sub_from icase (Plus CSpace) (py " ") bol 0 (c :: s)
                   = " "%char :: collapse true s).
      { cbn [sub_from match_at rmatch cls_match]. rewrite E, star_space_all.
        change (length (c :: s) - length (lstrip_by is_space s))
          with (S (length s) - length (lstrip_by is_space s)).
        pose proof (lstrip_by_length is_space s) as Hl.
        replace (S (length s) - length (lstrip_by is_space s))
          with (S (lead s)) by (unfold lead; lia).
        rewrite (proj2 (IH false)). reflexivity. }
      split.
      * rewrite H0. simpl. rewrite E. reflexivity.
      * rewrite (lead_space _ _ E). cbn [sub_from].
        rewrite (proj2 (IH false)). simpl. rewrite E. reflexivity.
    + assert (H0 : sub_from icase (Plus CSpace) (py " ") bol 0 (c :: s)
                   = c :: collapse false s).
      { cbn [sub_from match_at rmatch cls_match]. rewrite E.
        rewrite (proj1 (IH false)). reflexivity. }
      split.
      * rewrite H0. simpl. rewrite E. reflexivity.
      * rewrite (lead_word _ _ E), H0. simpl. rewrite E. reflexivity.
Qed.

Lemma lstrip_collapse_true (s : pystr) :
  lstrip_by is_space (collapse true s) = collapse true s.
Proof.
  induction s as [|c s IH]; simpl; [reflexivity|].
  destruct (is_space c) eqn:E; [exact IH|]. simpl. rewrite E. reflexivity.
Qed.

Lemma lstrip_collapse (s : pystr) :
  lstrip_by is_space (collapse false s) = collapse true s.
Proof.
  destruct s as [|c s]; simpl; [reflexivity|].
  destruct (is_space c) eqn:E; simpl.
  - apply lstrip_collapse_true.
  - rewrite E. reflexivity.
Qed.

Lemma squeeze_after_gap (s : pystr) :
  squeeze AfterGap s =
  match squeeze AtStart s with [] => [] | l => " "%char :: l end.
Proof.
  induction s as [|c s IH]; simpl; [reflexivity|].
  destruct (is_space c); [exact IH | reflexivity].
Qed.

Lemma rstrip_collapse (s : pystr) :
  rstrip_by is_space (collapse true s) = squeeze AtStart s
  /\ rstrip_by is_space (collapse false s) = squeeze InWord s.
Proof.
  induction s as [|c s [IH1 IH2]]; [split; reflexivity|].
  simpl. destruct (is_space c) eqn:E.
  - split; [exact IH1|].
    rewrite rstrip_by_cons, IH1, squeeze_after_gap.
    destruct (squeeze AtStart s); reflexivity.
  - rewrite rstrip_by_cons, IH2, E.
    split; destruct (squeeze InWord s); reflexivity.
Qed.

(** The whitespace stage of [clean_track_title] is [squeeze]. *)
Lemma strip_sub_spaces (s : pystr) :
  strip (sub false AppUtils.spaces_re (py " ") s) = squeeze AtStart s.
Proof.
  unfold strip, strip_by, sub, AppUtils.spaces_re.
  rewrite (proj1 (sub_spaces_collapse false s true)), lstrip_collapse.
  apply rstrip_collapse.
Qed.

Lemma squeeze_idem (s : pystr) :
  squeeze AtStart (squeeze AtStart s) = squeeze AtStart s
  /\ squeeze InWord (squeeze InWord s) = squeeze InWord s
  /\ squeeze InWord (squeeze AfterGap s) = squeeze AfterGap s.
Proof.
  induction s as [|c s (IH1 & IH2 & IH3)]; [repeat split; reflexivity|].
  cbn [squeeze]. destruct (is_space c) eqn:E.
  - repeat split; assumption.
  - cbn [squeeze]. rewrite E, IH2.
    change (is_space " "%char) with true. cbn iota.
    repeat split; reflexivity.
Qed.

Lemma squeeze_lstrip (s : pystr) :
  squeeze AtStart (lstrip_by is_space s) = squeeze AtStart s.
Proof.
  induction s as [|c s IH]; cbn [squeeze lstrip_by]; [reflexivity|].
  destruct (is_space c) eqn:E; [exact IH|]. cbn [squeeze]. rewrite E. reflexivity.
Qed.

Lemma squeeze_blank st (s : pystr) :
  rstrip_by is_space s = [] -> squeeze st s = [].
Proof.
  revert st. induction s as [|c s IH]; intros st; [reflexivity|].
  rewrite rstrip_by_cons. destruct (rstrip_by is_space s) eqn:Er; [|discriminate].
  destruct (is_space c) eqn:E; [|discriminate]. intros _. cbn [squeeze]. rewrite E.
  apply IH. reflexivity.
Qed.

Lemma squeeze_rstrip st (s : pystr) :
  squeeze st (rstrip_by is_space s) = squeeze st s.
Proof.
  revert st. induction s as [|c s IH]; intros st; [reflexivity|].
  rewrite rstrip_by_cons. destruct (rstrip_by is_space s) as [|a x] eqn:Er.
  - destruct (is_space c) eqn:E; cbn [squeeze]; rewrite E.
    + symmetry. apply squeeze_blank, Er.
    + rewrite (squeeze_blank _ s Er). destruct st; reflexivity.
  - cbn [squeeze] in *. destruct (is_space c); [apply IH|].
    rewrite <- IH. destruct st; reflexivity.
Qed.

Lemma squeeze_strip (s : pystr) :
  squeeze AtStart (strip s) = squeeze AtStart s.
Proof. unfold strip, strip_by. rewrite squeeze_rstrip. apply squeeze_lstrip. Qed.

Lemma lstrip_squeeze (s : pystr) :
  lstrip_by is_space (squeeze AtStart s) = squeeze AtStart s.
Proof.
  induction s as [|c s IH]; cbn [squeeze]; [reflexivity|].
  destruct (is_space c) eqn:E; [exact IH|]. cbn [lstrip_by]. rewrite E. reflexivity.
Qed.

Lemma rstrip_squeeze st (s : pystr) :
  rstrip_by is_space (squeeze st s) = squeeze st s.
Proof.
  revert st. induction s as [|c s IH]; intros st; [reflexivity|].
  cbn [squeeze]. destruct (is_space c) eqn:E; [apply IH|].
  assert (H : rstrip_by is_space (c :: squeeze InWord s) = c :: squeeze InWord s).
  { rewrite rstrip_by_cons, IH, E. destruct (squeeze InWord s); reflexivity. }
  destruct st; try exact H.
  rewrite rstrip_by_cons, H. reflexivity.
Qed.

Lemma strip_squeeze (s : pystr) :
  strip (squeeze AtStart s) = squeeze AtStart s.
Proof. unfold strip, strip_by. rewrite lstrip_squeeze. apply rstrip_squeeze. Qed.

Lemma squeeze_Forall (P : ascii -> Prop) st (s : pystr) :
  P " "%char -> Forall P s -> Forall P (squeeze st s).
Proof.
  intros Hsp H. revert st. induction H as [|c s Hc Hs IH]; intros st; cbn [squeeze].
  - constructor.
  - destruct (is_space c); [apply IH|].
    destruct st; repeat constructor; try assumption; apply IH.
Qed.

End Whitespace.

(** * [clean_track_title] *)

Lemma markup_caseless (c : ascii) : In c markup_chars -> caseless c.
Proof.
  intros H a. simpl in H.
  destruct H as [<-|[<-|[<-|[<-|[]]]]];
    destruct a as [[] [] [] [] [] [] [] []]; vm_compute; congruence.
Qed.

(** The result is either the tidied title or the original one, stripped. *)
Lemma clean_track_title_cases (t : pystr) :
  t <> [] ->
  (AppUtils.clean_track_title t = PyStr.strip t)
  \/ (AppUtils.clean_track_title t
        = PyStr.strip (AppUtils.tidy (AppUtils.remove_patterns t))
      /\ 3 <= length (PyStr.strip (AppUtils.tidy (AppUtils.remove_patterns t)))).
Proof.
  intros Hne. unfold AppUtils.clean_track_title.
  destruct t as [|c t]; [congruence|].
  destruct (AppUtils.tidy (AppUtils.remove_patterns (c :: t))) as [|a q] eqn:Eq;
    [left; reflexivity|].
  destruct (length (PyStr.strip (a :: q)) <? 3) eqn:El; [left; reflexivity|].
  right. apply Nat.ltb_ge in El. split; [reflexivity | exact El].
Qed.

(** C6 as stated fails: a title of three blanks has length 3 and is cleaned
    to the empty string. *)
Lemma clean_track_title_short_result :
  length (py "   ") = 3
  /\ AppUtils.clean_track_title (py "   ") = []
  /\ ~ (3 <= length (py "   ") ->
        3 <= length (AppUtils.clean_track_title (py "   "))).
Proof.
  split; [reflexivity|]. split; [vm_compute; reflexivity|].
  vm_compute. intros H. specialize (H (le_n 3)). lia.
Qed.

(** C6 (amended): a title that still has at least 3 characters once its
    surrounding whitespace is stripped is cleaned to a string of at least 3
    characters; when tidying leaves fewer than 3, the original title,
    stripped, is returned. *)
Theorem clean_track_title_length (t : pystr) :
  3 <= length (PyStr.strip t) ->
  3 <= length (AppUtils.clean_track_title t)
  /\ (length (PyStr.strip (AppUtils.tidy (AppUtils.remove_patterns t))) < 3 ->
      AppUtils.clean_track_title t = PyStr.strip t).
Proof.
  intros H.
  assert (t <> []) as Hne by (intros ->; vm_compute in H; lia).
  destruct (clean_track_title_cases t Hne) as [E|[E Hl]].
  - rewrite E. split; [exact H | reflexivity].
  - rewrite E. split; [exact Hl | lia].
Qed.

Lemma clean_track_title_length_witness :
  3 <= length (AppUtils.clean_track_title (py "Song [HD]"))
  /\ (length (PyStr.strip (AppUtils.tidy (AppUtils.remove_patterns (py "Song [HD]")))) < 3 ->
      AppUtils.clean_track_title (py "Song [HD]") = PyStr.strip (py "Song [HD]")).
Proof.
  apply (clean_track_title_length (py "Song [HD]")). vm_compute. lia.
Defined.

(** C7 as stated fails: the catalogue is applied once, so nested markup
    survives the first pass and is removed by the second; and a blank title
    is cleaned to the empty string, which is then renamed. *)
Lemma clean_track_title_not_idempotent :
  AppUtils.clean_track_title (py "[HD] Official - Song") = py "Official - Song"
  /\ AppUtils.clean_track_title (py "Official - Song") = py "Song"
  /\ AppUtils.clean_track_title (AppUtils.clean_track_title (py "[HD] Official - Song"))
     <> AppUtils.clean_track_title (py "[HD] Official - Song")
  /\ AppUtils.clean_track_title (AppUtils.clean_track_title (py " "))
     <> AppUtils.clean_track_title (py " ").
Proof. vm_compute. repeat split; discriminate. Qed.

(** The dash rules are applied once, too: collapsing one pair of dashes can
    leave another. *)
Example clean_track_title_dashes_not_idempotent :
  AppUtils.clean_track_title (py "a - - - b") = py "a - - b"
  /\ AppUtils.clean_track_title (py "a - - b") = py "a - b".
Proof. vm_compute. split; reflexivity. Qed.

(** ** Titles that cleaning leaves as they are *)

Section SettledTitles.
Import Re.

Lemma rmatch_chars icase (w : pystr) :
  forall bol (s : pystr) (cont : kont),
    w <> [] ->
    rmatch icase (cat (map (fun c => One (CChar c)) w)) bol s cont
    = if prefix_match icase w s then cont false (drop (length w) s) else None.
Proof.
  induction w as [|a w IH]; intros bol s cont Hne; [congruence|].
  destruct w as [|b w].
  - cbn [map cat rmatch prefix_match length].
    destruct s as [|c s]; [reflexivity|].
    destruct (cls_match icase (CChar a) c); reflexivity.
  - change (cat (map (fun c => One (CChar c)) (a :: b :: w)))
      with (Cat (One (CChar a)) (cat (map (fun c => One (CChar c)) (b :: w)))).
    cbn [rmatch].
    destruct s as [|c s]; [reflexivity|].
    cbn [prefix_match]. destruct (cls_match icase (CChar a) c); [|reflexivity].
    rewrite IH by discriminate. reflexivity.
Qed.


Lemma prefix_match_lower (w s : pystr) :
  prefix_match true w s = PyStr.startswith (PyStr.lower w) (PyStr.lower s).
Proof.
  revert s. induction w as [|a w IH]; intros [|c s]; try reflexivity.
  cbn [prefix_match PyStr.lower map PyStr.startswith cls_match].
  fold (PyStr.lower w). fold (PyStr.lower s). rewrite IH. reflexivity.
Qed.

Lemma dash_not_space (c : ascii) :
  PyStr.is_space c = true -> forall icase, cls_match icase (CChar "-"%char) c = false.
Proof.
  intros Hs icase. destruct (cls_match icase (CChar "-"%char) c) eqn:E; [|reflexivity].
  apply cls_match_caseless in E.
  - subst c. vm_compute in Hs. discriminate.
  - apply markup_caseless. vm_compute. tauto.
Qed.

Lemma dash_match icase (c : ascii) :
  cls_match icase (CChar "-"%char) c = Ascii.eqb c "-"%char.
Proof.
  destruct (cls_match icase (CChar "-"%char) c) eqn:E.
  - apply cls_match_caseless in E; [|apply markup_caseless; vm_compute; tauto].
    subst c. reflexivity.
  - destruct (Ascii.eqb c "-"%char) eqn:E2; [|reflexivity].
    apply Ascii.eqb_eq in E2. subst c. destruct icase; vm_compute in E; discriminate.
Qed.

(** Blanks and then a dash: only the longest run of blanks can be followed
    by the dash. *)
Lemma star_space_dash icase (s : pystr) :
  forall bol (cont : kont),
    star_match icase CSpace bol s
      (fun b s' => rmatch icase (One (CChar "-"%char)) b s' cont)
    = match PyStr.lstrip_by PyStr.is_space s with
      | c :: r => if Ascii.eqb c "-"%char then cont false r else None
      | [] => None
      end.
Proof.
  induction s as [|c s IH]; intros bol cont; [reflexivity|].
  cbn [star_match PyStr.lstrip_by cls_match].
  destruct (PyStr.is_space c) eqn:Ec.
  - rewrite IH. cbn [rmatch]. rewrite (dash_not_space c Ec).
    destruct (PyStr.lstrip_by PyStr.is_space s) as [|a r]; [reflexivity|].
    destruct (Ascii.eqb a "-"%char); [|reflexivity].
    destruct (cont false r); reflexivity.
  - cbn [rmatch]. rewrite dash_match. reflexivity.
Qed.

(** Blanks and then the end: impossible while text is left. *)
Lemma star_space_eol icase (s : pystr) :
  forall bol (cont : kont),
    has_text s = true ->
    star_match icase CSpace bol s (fun b s' => rmatch icase Eol b s' cont) = None.
Proof.
  induction s as [|c s IH]; intros bol cont Ht; [discriminate|].
  cbn [star_match cls_match]. cbn [has_text existsb] in Ht.
  destruct (PyStr.is_space c) eqn:Ec.
  - cbn [negb orb] in Ht. rewrite (IH false cont Ht). cbn [rmatch].
    destruct s as [|c' s]; [discriminate|]. reflexivity.
  - cbn [rmatch]. destruct s as [|c' s]; [|reflexivity].
    destruct (Ascii.eqb c newline) eqn:En; [|reflexivity].
    apply Ascii.eqb_eq in En. subst c. vm_compute in Ec. discriminate.
Qed.

Lemma rmatch_space_dash icase (r2 : re) (bol : bool) (s : pystr) (cont : kont) :
  rmatch icase (Cat (Star CSpace) (Cat (One (CChar "-"%char)) r2)) bol s cont
  = match PyStr.lstrip_by PyStr.is_space s with
    | c :: r => if Ascii.eqb c "-"%char then rmatch icase r2 false r cont else None
    | [] => None
    end.
Proof.
  change (rmatch icase (Cat (Star CSpace) (Cat (One (CChar "-"%char)) r2)) bol s cont)
    with (star_match icase CSpace bol s
            (fun b s' => rmatch icase (One (CChar "-"%char)) b s'
                           (fun b2 s2 => rmatch icase r2 b2 s2 cont))).
  apply star_space_dash.
Qed.

Lemma rmatch_space_eol icase (bol : bool) (s : pystr) (cont : kont) :
  has_text s = true ->
  rmatch icase (Cat (Star CSpace) Eol) bol s cont = None.
Proof.
  intros Ht.
  change (rmatch icase (Cat (Star CSpace) Eol) bol s cont)
    with (star_match icase CSpace bol s (fun b s' => rmatch icase Eol b s' cont)).
  apply star_space_eol, Ht.
Qed.

Lemma text_ahead_has_text (s : pystr) : text_ahead s = true -> has_text s = true.
Proof.
  unfold text_ahead, has_text. induction s as [|c s IH]; [discriminate|].
  cbn [PyStr.lstrip_by existsb]. destruct (PyStr.is_space c); [exact IH|].
  intros _. reflexivity.
Qed.

Lemma dashes_apart_tail (c : ascii) (s : pystr) :
  dashes_apart (c :: s) = true -> dashes_apart s = true.
Proof. cbn [dashes_apart]. intros H. apply andb_true_iff in H. apply H. Qed.

Lemma dashes_apart_lstrip (s : pystr) :
  dashes_apart s = true -> dashes_apart (PyStr.lstrip_by PyStr.is_space s) = true.
Proof.
  induction s as [|c s IH]; [trivial|]. intros H. cbn [PyStr.lstrip_by].
  destruct (PyStr.is_space c); [apply IH, (dashes_apart_tail c), H | exact H].
Qed.

(** What follows a dash, in a title whose dashes are apart. *)
Lemma after_dash (s r : pystr) (c : ascii) :
  dashes_apart s = true ->
  PyStr.lstrip_by PyStr.is_space s = c :: r -> Ascii.eqb c "-"%char = true ->
  text_ahead r = true.
Proof.
  intros Hd El Ec. apply dashes_apart_lstrip in Hd. rewrite El in Hd.
  cbn [dashes_apart] in Hd. rewrite Ec in Hd. apply andb_true_iff in Hd. apply Hd.
Qed.

(** Substitution changes nothing when the pattern matches at no position. *)
Lemma sub_from_unmatched icase (r : re) (repl : pystr) (Q : pystr -> Prop) :
  (forall c s, Q (c :: s) -> Q s) ->
  (forall s, Q s -> match_at icase r false s = None) ->
  forall s bol, Q s -> match_at icase r bol s = None ->
    sub_from icase r repl bol 0 s = s.
Proof.
  intros Qt Hq. induction s as [|a s IH]; intros bol HQ Hm; cbn [sub_from]; rewrite Hm.
  - reflexivity.
  - rewrite (IH false (Qt _ _ HQ) (Hq _ (Qt _ _ HQ))). reflexivity.
Qed.

Lemma double_dash_unmatched (s : pystr) (bol : bool) :
  dashes_apart s = true -> match_at false AppUtils.double_dash_re bol s = None.
Proof.
  intros Hd. unfold match_at.
  change AppUtils.double_dash_re
    with (Cat (Star CSpace) (Cat (One (CChar "-"%char))
           (Cat (Star CSpace) (Cat (One (CChar "-"%char)) (Star CSpace))))).
  rewrite rmatch_space_dash.
  destruct (PyStr.lstrip_by PyStr.is_space s) as [|c r] eqn:El; [reflexivity|].
  destruct (Ascii.eqb c "-"%char) eqn:Ec; [|reflexivity].
  pose proof (after_dash s r c Hd El Ec) as Ht.
  rewrite rmatch_space_dash. unfold text_ahead in Ht.
  destruct (PyStr.lstrip_by PyStr.is_space r) as [|c' r']; [reflexivity|].
  destruct (Ascii.eqb c' "-"%char); [discriminate Ht | reflexivity].
Qed.

Lemma text_ahead_not_dash (s : pystr) :
  text_ahead s = true ->
  match s with c :: _ => Ascii.eqb c "-"%char = false | [] => False end.
Proof.
  unfold text_ahead. destruct s as [|c s]; [discriminate|].
  cbn [PyStr.lstrip_by]. destruct (PyStr.is_space c) eqn:Ec.
  - intros _. destruct (Ascii.eqb c "-"%char) eqn:E; [|reflexivity].
    apply Ascii.eqb_eq in E. subst c. vm_compute in Ec. discriminate.
  - intros H. apply negb_true_iff in H. exact H.
Qed.

Lemma text_ahead_starts_dash (s : pystr) :
  text_ahead s = true -> starts_dash s = false.
Proof.
  unfold text_ahead, starts_dash.
  destruct (PyStr.lstrip_by PyStr.is_space s) as [|c r]; [discriminate|].
  intros H. apply negb_true_iff in H. exact H.
Qed.

Lemma eol_after_text (icase : bool) (r : pystr) (b : bool) (cont : kont) :
  text_ahead r = true -> rmatch icase Eol b r cont = None.
Proof.
  intros Ht. cbn [rmatch]. destruct r as [|c [|c' r]]; [discriminate| |reflexivity].
  destruct (Ascii.eqb c newline) eqn:En; [|reflexivity].
  apply Ascii.eqb_eq in En. subst c. vm_compute in Ht. discriminate.
Qed.

Lemma bol_dash_unmatched icase (r2 : re) (bol : bool) (s : pystr) (cont : kont) :
  (bol = true -> text_ahead s = true) ->
  rmatch icase (Cat Bol (Cat (One (CChar "-"%char)) r2)) bol s cont = None.
Proof.
  intros Hb. cbn [rmatch]. destruct bol; [|reflexivity]. specialize (Hb eq_refl).
  apply text_ahead_not_dash in Hb. destruct s as [|c s']; [reflexivity|].
  rewrite dash_match, Hb. reflexivity.
Qed.

Lemma edge_dash_unmatched (s : pystr) (bol : bool) :
  dashes_apart s = true -> (bol = true -> text_ahead s = true) ->
  match_at false AppUtils.edge_dash_re bol s = None.
Proof.
  intros Hd Hb. unfold match_at.
  change AppUtils.edge_dash_re
    with (Alt (Cat Bol (Cat (One (CChar "-"%char)) (Star CSpace)))
              (Cat (Star CSpace) (Cat (One (CChar "-"%char)) Eol))).
  change (rmatch false (Alt ?a ?b) bol s ?k)
    with (match rmatch false a bol s k with
          | Some x => Some x
          | None => rmatch false b bol s k
          end).
  rewrite (bol_dash_unmatched false _ bol s _ Hb), rmatch_space_dash.
  destruct (PyStr.lstrip_by PyStr.is_space s) as [|c r] eqn:El; [reflexivity|].
  destruct (Ascii.eqb c "-"%char) eqn:Ec; [|reflexivity].
  apply (eol_after_text false r false), (after_dash s r c Hd El Ec).
Qed.


Lemma rmatch_bol icase (r : re) (bol : bool) (s : pystr) (cont : kont) :
  rmatch icase (Cat Bol r) bol s cont = if bol then rmatch icase r bol s cont else None.
Proof. destruct bol; reflexivity. Qed.

Lemma trailing_dash_unmatched (s : pystr) (bol : bool) :
  dashes_apart s = true ->
  match_at true (cat [ws; lit "-"; ws; Eol]) bol s = None.
Proof.
  intros Hd. unfold match_at.
  change (cat [ws; lit "-"; ws; Eol])
    with (Cat (Star CSpace) (Cat (One (CChar "-"%char)) (Cat (Star CSpace) Eol))).
  rewrite rmatch_space_dash.
  destruct (PyStr.lstrip_by PyStr.is_space s) as [|c r] eqn:El; [reflexivity|].
  destruct (Ascii.eqb c "-"%char) eqn:Ec; [|reflexivity].
  apply rmatch_space_eol, text_ahead_has_text, (after_dash s r c Hd El Ec).
Qed.

Lemma leading_dash_unmatched (s : pystr) (bol : bool) :
  (bol = true -> text_ahead s = true) ->
  match_at true (cat [Bol; ws; lit "-"; ws]) bol s = None.
Proof.
  intros Hb. unfold match_at.
  change (cat [Bol; ws; lit "-"; ws])
    with (Cat Bol (Cat (Star CSpace) (Cat (One (CChar "-"%char)) (Star CSpace)))).
  rewrite rmatch_bol. destruct bol; [|reflexivity]. specialize (Hb eq_refl).
  rewrite rmatch_space_dash. apply text_ahead_starts_dash in Hb.
  unfold starts_dash in Hb.
  destruct (PyStr.lstrip_by PyStr.is_space s) as [|c r]; [reflexivity|].
  rewrite Hb. reflexivity.
Qed.

Lemma official_dash_unmatched (s : pystr) (bol : bool) :
  (bol = true -> official_lead s = false) ->
  match_at true (cat [Bol; lit "Official"; ws; lit "-"; ws]) bol s = None.
Proof.
  intros Hb. unfold match_at.
  change (cat [Bol; lit "Official"; ws; lit "-"; ws])
    with (Cat Bol (Cat (cat (map (fun c => One (CChar c)) (py "Official")))
                      (Cat (Star CSpace) (Cat (One (CChar "-"%char)) (Star CSpace))))).
  rewrite rmatch_bol. destruct bol; [|reflexivity]. specialize (Hb eq_refl).
  change (rmatch true (Cat ?a ?b) true s ?k)
    with (rmatch true a true s (fun b' s' => rmatch true b b' s' k)).
  rewrite rmatch_chars by discriminate. rewrite prefix_match_lower.
  unfold official_lead in Hb. apply orb_false_iff in Hb. destruct Hb as [_ Hb].
  change (PyStr.lower (py "Official")) with (py "official").
  destruct (PyStr.startswith (py "official") (PyStr.lower s)); [|reflexivity].
  cbn [andb] in Hb. rewrite rmatch_space_dash.
  change (length (py "Official")) with 8.
  unfold starts_dash in Hb.
  destruct (PyStr.lstrip_by PyStr.is_space (drop 8 s)) as [|c r]; [reflexivity|].
  rewrite Hb. reflexivity.
Qed.

Lemma official_colon_unmatched (s : pystr) (bol : bool) :
  (bol = true -> official_lead s = false) ->
  match_at true (cat [Bol; lit "Official:"; ws]) bol s = None.
Proof.
  intros Hb. unfold match_at.
  change (cat [Bol; lit "Official:"; ws])
    with (Cat Bol (Cat (cat (map (fun c => One (CChar c)) (py "Official:")))
                      (Star CSpace))).
  rewrite rmatch_bol. destruct bol; [|reflexivity]. specialize (Hb eq_refl).
  change (rmatch true (Cat ?a ?b) true s ?k)
    with (rmatch true a true s (fun b' s' => rmatch true b b' s' k)).
  rewrite rmatch_chars by discriminate. rewrite prefix_match_lower.
  unfold official_lead in Hb. apply orb_false_iff in Hb. destruct Hb as [Hb _].
  change (PyStr.lower (py "Official:")) with (py "official:").
  rewrite Hb. reflexivity.
Qed.

Lemma star_match_ext icase k (s : pystr) :
  forall bol (k1 k2 : kont),
    (forall b s', k1 b s' = k2 b s') ->
    star_match icase k bol s k1 = star_match icase k bol s k2.
Proof.
  induction s as [|c s IH]; intros bol k1 k2 H; cbn [star_match]; [apply H|].
  destruct (cls_match icase k c); [|apply H].
  rewrite (IH false k1 k2 H), H. reflexivity.
Qed.

Lemma lazy_match_ext icase k (s : pystr) :
  forall bol (k1 k2 : kont),
    (forall b s', k1 b s' = k2 b s') ->
    lazy_match icase k bol s k1 = lazy_match icase k bol s k2.
Proof.
  induction s as [|c s IH]; intros bol k1 k2 H; cbn [lazy_match]; rewrite H;
    [reflexivity|].
  destruct (k2 bol (c :: s)); [reflexivity|].
  destruct (cls_match icase k c); [apply IH, H | reflexivity].
Qed.

(** The matcher only uses the answers of its continuation. *)
Lemma rmatch_ext icase (r : re) :
  forall bol (s : pystr) (k1 k2 : kont),
    (forall b s', k1 b s' = k2 b s') ->
    rmatch icase r bol s k1 = rmatch icase r bol s k2.
Proof.
  induction r as [|k|k|k|k| | |r1 IH1 r2 IH2|r1 IH1 r2 IH2];
    intros bol s k1 k2 H; cbn [rmatch].
  - apply H.
  - destruct s as [|c s]; [reflexivity|]. destruct (cls_match icase k c); [apply H | reflexivity].
  - apply star_match_ext, H.
  - destruct s as [|c s]; [reflexivity|].
    destruct (cls_match icase k c); [apply star_match_ext, H | reflexivity].
  - apply lazy_match_ext, H.
  - destruct bol; [apply H | reflexivity].
  - destruct s as [|c [|c' s]]; [apply H | | reflexivity].
    destruct (Ascii.eqb c newline); [apply H | reflexivity].
  - apply IH1. intros b s'. apply IH2, H.
  - rewrite (IH1 bol s k1 k2 H), (IH2 bol s k1 k2 H). reflexivity.
Qed.

Lemma rmatch_atoms_ext icase (parts : list re) :
  forall bol (s : pystr) (k1 k2 : kont),
    (forall b s', k1 b s' = k2 b s') ->
    rmatch_atoms icase parts bol s k1 = rmatch_atoms icase parts bol s k2.
Proof.
  induction parts as [|a rest IH]; intros bol s k1 k2 H; cbn [rmatch_atoms]; [apply H|].
  apply rmatch_ext. intros b s'. apply IH, H.
Qed.

Lemma rmatch_atoms_app icase (l1 l2 : list re) :
  forall bol (s : pystr) (cont : kont),
    rmatch_atoms icase (l1 ++ l2) bol s cont
    = rmatch_atoms icase l1 bol s (fun b s' => rmatch_atoms icase l2 b s' cont).
Proof.
  induction l1 as [|a l1 IH]; intros bol s cont; cbn [app rmatch_atoms]; [reflexivity|].
  apply rmatch_ext. intros b s'. apply IH.
Qed.

(** Matching a pattern is matching its parts in sequence. *)
Lemma rmatch_atoms_spec icase (r : re) :
  forall bol (s : pystr) (cont : kont),
    rmatch icase r bol s cont = rmatch_atoms icase (atoms r) bol s cont.
Proof.
  induction r as [|k|k|k|k| | |r1 IH1 r2 IH2|r1 IH1 r2 IH2];
    intros bol s cont; try reflexivity.
  cbn [atoms]. rewrite rmatch_atoms_app. cbn [rmatch]. rewrite IH1.
  apply rmatch_atoms_ext. intros b s'. apply IH2.
Qed.

Lemma rmatch_atoms_chars icase (w : pystr) (post : list re) :
  forall bol (s : pystr) (cont : kont),
    prefix_match icase w s = false ->
    rmatch_atoms icase (map (fun c => One (CChar c)) w ++ post) bol s cont = None.
Proof.
  induction w as [|a w IH]; intros bol s cont H; [discriminate H|].
  cbn [map app rmatch_atoms rmatch]. destruct s as [|c s]; [reflexivity|].
  cbn [prefix_match] in H. destruct (cls_match icase (CChar a) c); [|reflexivity].
  apply IH, H.
Qed.

Lemma occurs_tail icase (w : pystr) (c : ascii) (s : pystr) :
  occurs icase w (c :: s) = false -> occurs icase w s = false.
Proof. cbn [occurs]. intros H. apply orb_false_iff in H. apply H. Qed.

Lemma occurs_head icase (w s : pystr) :
  occurs icase w s = false -> prefix_match icase w s = false.
Proof. destruct s; cbn [occurs]; intros H; apply orb_false_iff in H; apply H. Qed.

Lemma rmatch_atoms_fails (Q : pystr -> Prop) icase (parts : list re) :
  (forall c s, Q (c :: s) -> Q s) ->
  forall bol (s : pystr) (cont : kont),
    Q s -> (forall b s', Q s' -> cont b s' = None) ->
    rmatch_atoms icase parts bol s cont = None.
Proof.
  intros Qt. induction parts as [|a rest IH]; intros bol s cont HQ Hc; cbn [rmatch_atoms].
  - apply Hc, HQ.
  - apply (rmatch_fails Q Qt); [exact HQ|]. intros b s' HQ'. apply IH; assumption.
Qed.

Lemma lead_chars_spec (parts : list re) :
  exists post, parts = map (fun c => One (CChar c)) (lead_chars parts) ++ post.
Proof.
  induction parts as [|a rest [post IH]]; [exists []; reflexivity|].
  destruct a as [|[c| | | |]| | | | | | |];
    try (cbn [lead_chars map app]; eexists; reflexivity).
  cbn [lead_chars map app]. exists post. f_equal. exact IH.
Qed.

Lemma runs_spec (parts : list re) (w : pystr) :
  In w (runs parts) ->
  exists pre post, parts = pre ++ map (fun c => One (CChar c)) w ++ post.
Proof.
  induction parts as [|a rest IH]; [intros []|].
  assert (In w (runs rest) ->
          exists pre post, a :: rest = pre ++ map (fun c => One (CChar c)) w ++ post) as Hrest.
  { intros Hin. destruct (IH Hin) as (pre & post & E).
    exists (a :: pre), post. rewrite E. reflexivity. }
  destruct a as [|[c| | | |]| | | | | | |]; try exact Hrest.
  cbn [runs]. intros [<-|Hin]; [|exact (Hrest Hin)].
  destruct (lead_chars_spec rest) as [post E]. exists [], post.
  cbn [app map]. f_equal. exact E.
Qed.

(** A pattern matches nowhere in a string in which one of its literal
    character sequences does not occur. *)
Lemma absent_run_unmatched icase (r : re) (w s : pystr) (bol : bool) :
  In w (runs (atoms r)) -> occurs icase w s = false ->
  match_at icase r bol s = None.
Proof.
  intros Hw Ho. unfold match_at. rewrite rmatch_atoms_spec.
  destruct (runs_spec _ _ Hw) as (pre & post & ->).
  rewrite rmatch_atoms_app.
  apply (rmatch_atoms_fails (fun x => occurs icase w x = false)).
  - intros c x. apply occurs_tail.
  - exact Ho.
  - intros b s' Hs'. apply rmatch_atoms_chars, occurs_head, Hs'.
Qed.

Lemma bracket_pattern_unchanged (r : re) (u : pystr) :
  In r bracket_patterns -> tags_absent u = true -> sub true r [] u = u.
Proof.
  intros Hr Hu. unfold tags_absent in Hu.
  pose proof (proj1 (forallb_forall _ _) Hu r Hr) as He.
  apply existsb_exists in He. destruct He as (w & Hw & Ho).
  apply negb_true_iff in Ho.
  apply (sub_from_unmatched true r [] (fun x => occurs true w x = false)).
  - intros c x. apply occurs_tail.
  - intros x Hx. apply (absent_run_unmatched true r w x false Hw Hx).
  - exact Ho.
  - apply (absent_run_unmatched true r w u true Hw Ho).
Qed.

Lemma fold_left_fixed (u : pystr) (l : list re) :
  Forall (fun r => sub true r [] u = u) l ->
  fold_left (fun cleaned pattern => sub true pattern [] cleaned) l u = u.
Proof.
  induction 1 as [|r l Hr _ IH]; [reflexivity|]. cbn [fold_left]. rewrite Hr. exact IH.
Qed.

(** No pattern of the catalogue matches in a settled title. *)
Lemma remove_patterns_settled (u : pystr) :
  settled u -> AppUtils.remove_patterns u = u.
Proof.
  intros (_ & Hb & Ho & Ht & Hd). unfold AppUtils.remove_patterns.
  apply fold_left_fixed.
  rewrite <- (take_drop 40 AppUtils.patterns_to_remove). apply Forall_app. split.
  - apply List.Forall_forall. intros r Hr.
    apply bracket_pattern_unchanged; assumption.
  - change (drop 40 AppUtils.patterns_to_remove)
      with [cat [Bol; lit "Official"; ws; lit "-"; ws];
            cat [Bol; lit "Official:"; ws];
            cat [ws; lit "-"; ws; Eol];
            cat [Bol; ws; lit "-"; ws]].
    repeat constructor.
    + apply (sub_from_unmatched true _ [] (fun _ => True));
        [ tauto
        | intros s _; apply official_dash_unmatched; discriminate
        | exact I
        | apply official_dash_unmatched; intros _; exact Ho ].
    + apply (sub_from_unmatched true _ [] (fun _ => True));
        [ tauto
        | intros s _; apply official_colon_unmatched; discriminate
        | exact I
        | apply official_colon_unmatched; intros _; exact Ho ].
    + apply (sub_from_unmatched true _ [] (fun s => dashes_apart s = true)).
      * apply dashes_apart_tail.
      * intros s Hs. apply trailing_dash_unmatched, Hs.
      * exact Hd.
      * apply trailing_dash_unmatched, Hd.
    + apply (sub_from_unmatched true _ [] (fun _ => True));
        [ tauto
        | intros s _; apply leading_dash_unmatched; discriminate
        | exact I
        | apply leading_dash_unmatched; intros _; exact Ht ].
Qed.

Lemma tidy_settled (u : pystr) : settled u -> AppUtils.tidy u = u.
Proof.
  intros (Hq & _ & _ & Ht & Hd). unfold AppUtils.tidy.
  rewrite strip_sub_spaces, Hq.
  assert (sub false AppUtils.double_dash_re (py " - ") u = u) as ->.
  { apply (sub_from_unmatched false _ _ (fun s => dashes_apart s = true)).
    - apply dashes_apart_tail.
    - intros s Hs. apply double_dash_unmatched, Hs.
    - exact Hd.
    - apply double_dash_unmatched, Hd. }
  apply (sub_from_unmatched false _ _ (fun s => dashes_apart s = true)).
  - apply dashes_apart_tail.
  - intros s Hs. apply edge_dash_unmatched; [exact Hs | discriminate].
  - exact Hd.
  - apply edge_dash_unmatched; [exact Hd | intros _; exact Ht].
Qed.

End SettledTitles.

(** The settled titles include the cleaned forms of titles whose markup is
    removed, of titles with a separating dash and of titles with brackets
    that hold no catalogue tag; they exclude both ways of failing. *)
Example settled_samples :
  settled (AppUtils.clean_track_title (py "Song [HD]"))
  /\ settled (AppUtils.clean_track_title (py "Artist - Song"))
  /\ settled (AppUtils.clean_track_title (py "Song (feat. X)"))
  /\ ~ settled (AppUtils.clean_track_title (py "[HD] Official - Song"))
  /\ ~ settled (AppUtils.clean_track_title (py "a - - - b")).
Proof.
  repeat split; try (vm_compute; reflexivity);
    intros (_ & _ & H1 & _ & H2); vm_compute in H1, H2; discriminate.
Qed.

(** C7 (amended): cleaning twice is cleaning once on every title whose
    cleaned form is settled: whitespace-normalised; holding, for each
    bracketed pattern of the catalogue, some literal character sequence of
    the pattern nowhere (so no such pattern can match); not beginning with
    a dash, with [Official:] or with [Official] and a dash; and with every
    dash followed by text that does not begin with another dash. *)
Theorem clean_track_title_idempotent (t : pystr) :
  settled (AppUtils.clean_track_title t) ->
  AppUtils.clean_track_title (AppUtils.clean_track_title t)
  = AppUtils.clean_track_title t.
Proof.
  generalize (AppUtils.clean_track_title t). intros u Hs.
  pose proof Hs as (Hq & _ & _ & Ht & _).
  unfold AppUtils.clean_track_title.
  destruct u as [|c u]; [discriminate Ht|].
  rewrite (remove_patterns_settled _ Hs), (tidy_settled _ Hs).
  assert (PyStr.strip (c :: u) = c :: u) as Hstrip
    by (rewrite <- Hq; apply strip_squeeze).
  rewrite Hstrip. destruct (length (c :: u) <? 3); exact Hstrip.
Qed.

Lemma clean_track_title_idempotent_witness :
  AppUtils.clean_track_title (py "[HD] Artist - Song (Official Video)") = py "Artist - Song"
  /\ AppUtils.clean_track_title
       (AppUtils.clean_track_title (py "[HD] Artist - Song (Official Video)"))
     = AppUtils.clean_track_title (py "[HD] Artist - Song (Official Video)").
Proof.
  split; [vm_compute; reflexivity|].
  apply (clean_track_title_idempotent (py "[HD] Artist - Song (Official Video)")).
  vm_compute. repeat split; reflexivity.
Defined.

(** * The file resolver *)

Lemma scan_audio_found (dir : list file) :
  fst (AppDownloader.scan_audio dir) = List.filter is_audio_file dir.
Proof.
  induction dir as [|f dir IH]; [reflexivity|].
  cbn [AppDownloader.scan_audio List.filter]. unfold is_audio_file at 1.
  destruct (AppDownloader.scan_audio dir) as [found lg]. simpl in IH. subst found.
  destruct (is_file f); [|reflexivity].
  destruct (AppDownloader.ext_in AppDownloader.web_formats f); [reflexivity|].
  destruct (AppDownloader.ext_in AppDownloader.audio_extensions f); reflexivity.
Qed.

(** What the resolver returns, in terms of the listing and the clock only. *)
Lemma find_downloaded_file_result (dir : list file) (now : Z) (video_title : pystr) :
  fst (AppDownloader._find_downloaded_file dir now video_title) =
  match AppDownloader.latest (List.filter is_audio_file dir) with
  | Some f => Some f
  | None =>
      AppDownloader.latest
        (filter (fun f => is_file f = true
                          ∧ AppDownloader.ext_in AppDownloader.web_formats f = false
                          ∧ (now - 60 < st_mtime f)%Z) dir)
  end.
Proof.
  unfold AppDownloader._find_downloaded_file.
  rewrite <- scan_audio_found.
  destruct (AppDownloader.scan_audio dir) as [found lg]. cbn [fst].
  destruct (AppDownloader.latest found); [reflexivity|].
  match goal with |- context [AppDownloader.latest ?l] =>
    destruct (AppDownloader.latest l) end; reflexivity.
Qed.

(** C9: for a fixed directory listing and clock, the file resolved by
    [_find_downloaded_file] does not depend on the title it is given: it is
    the latest file with an audio extension that is not a web or temporary
    file, or else the latest such non-web file of the last 60 seconds. *)
Theorem find_downloaded_file_ignores_title
    (dir : list file) (now : Z) (title1 title2 : pystr) :
  fst (AppDownloader._find_downloaded_file dir now title1)
  = fst (AppDownloader._find_downloaded_file dir now title2)
  /\ fst (AppDownloader._find_downloaded_file dir now title1)
     = match AppDownloader.latest (List.filter is_audio_file dir) with
       | Some f => Some f
       | None =>
           AppDownloader.latest
             (filter (fun f => is_file f = true
                               ∧ AppDownloader.ext_in AppDownloader.web_formats f = false
                               ∧ (now - 60 < st_mtime f)%Z) dir)
       end.
Proof. rewrite !find_downloaded_file_result. split; reflexivity. Qed.

(** * The search cascade *)

Lemma searches_app (h1 h2 : list ycall) :
  searches (h1 ++ h2) = searches h1 ++ searches h2.
Proof. unfold searches. apply omap_app. Qed.

(** Case analysis on every answer of the world met in the goal, then the
    searches of the resulting call history. *)
Ltac by_cases_on_answers :=
  repeat match goal with
         | |- context [match ?x with _ => _ end] => destruct x
         end;
  cbn [snd]; rewrite ?searches_app; cbn; rewrite ?app_nil_r; reflexivity.

(** One variant costs exactly one search. *)
Lemma attempt_searches (w : ytdlp) (h : list ycall) (u : pystr) pf :
  searches (snd (AppDownloader.attempt w h u pf)) = searches h ++ [u].
Proof. unfold AppDownloader.attempt. by_cases_on_answers. Qed.

Lemma try_variations_spec (w : ytdlp) pf (urls : list pystr) :
  forall h,
  exists k h1,
    k <= length urls
    /\ all_miss w h (take k urls) pf = Some h1
    /\ searches h1 = searches h ++ take k urls
    /\ match AppDownloader.try_variations w h urls pf with
       | (Some downloaded_file, h') =>
           exists u, urls !! k = Some u
                     /\ AppDownloader.attempt w h1 u pf = (Some downloaded_file, h')
                     /\ searches h' = searches h ++ take (S k) urls
       | (None, h') => k = length urls /\ h' = h1
       end.
Proof.
  induction urls as [|u urls IH]; intros h.
  - exists 0, h. cbn. rewrite app_nil_r. repeat split; reflexivity || lia.
  - cbn [AppDownloader.try_variations].
    destruct (AppDownloader.attempt w h u pf) as [[p|] h'] eqn:Ea.
    + exists 0, h. cbn [take all_miss length]. rewrite app_nil_r.
      repeat split; try reflexivity; try lia.
      exists u. repeat split; try reflexivity; try assumption.
      pose proof (attempt_searches w h u pf) as Hs. rewrite Ea in Hs. exact Hs.
    + destruct (IH h') as (k & h1 & Hk & Hm & Hs & Hr).
      pose proof (attempt_searches w h u pf) as Hs'. rewrite Ea in Hs'. cbn [snd] in Hs'.
      exists (S k), h1. cbn [take all_miss length]. rewrite Ea.
      split; [lia|]. split; [exact Hm|].
      split; [rewrite Hs, Hs', <- app_assoc; reflexivity|].
      destruct (AppDownloader.try_variations w h' urls pf) as [[p|] h''].
      * destruct Hr as (v & Hv & Hat & Hsv). exists v.
        repeat split; try assumption.
        rewrite Hsv, Hs', <- app_assoc. reflexivity.
      * destruct Hr as [-> ->]. split; reflexivity.
Qed.

(** The audio_fetcher downloader searches once, for the plain query. *)
Lemma audio_fetcher_single_search (w : ytdlp) (h : list ycall) (q : pystr) :
  searches (snd (AudioFetcherDownloader.search_and_download w h q))
  = searches h ++ [py "ytsearch1:" ++ q].
Proof.
  unfold AudioFetcherDownloader.search_and_download,
    AudioFetcherDownloader._search_and_download_sync.
  by_cases_on_answers.
Qed.

(** C4 as stated fails for the audio_fetcher downloader: in a world where
    only the [audio] variant of the query has a result, it reports failure
    after a single search, while the app downloader succeeds on its second
    variant. *)
Lemma audio_fetcher_gives_up_after_one_search :
  let r := AudioFetcherDownloader.search_and_download audio_variant_world []
             (py "Artist - Song") in
  fst r = None
  /\ searches (snd r) = [py "ytsearch1:Artist - Song"]
  /\ ~ (fst r = None ->
        searches (snd r) = AppDownloader.search_variations (py "Artist - Song"))
  /\ fst (AppDownloader.search_and_download audio_variant_world []
            (py "Artist - Song") (Some (py "Artist - Song")))
     = Some (py "downloads/Artist - Song.mp3").
Proof.
  vm_compute. repeat split; try reflexivity.
  intros H. specialize (H eq_refl). discriminate.
Qed.

(** C4 (amended): the app downloader tries the four variants (plain, then
    with [audio], [official], [music]) in order, each at the cost of one
    search; it returns at the first variant whose download is followed by a
    resolved file and reports failure only when all four have missed.  The
    audio_fetcher downloader searches once, for the plain query. *)
Theorem search_cascade (w : ytdlp) (h : list ycall) (q : pystr)
    (preferred_filename : option pystr) :
  let urls := [ py "ytsearch1:" ++ q;
                py "ytsearch1:" ++ q ++ py " audio";
                py "ytsearch1:" ++ q ++ py " official";
                py "ytsearch1:" ++ q ++ py " music" ] in
  AppDownloader.search_variations q = urls
  /\ (exists k h1,
        k <= 4
        /\ all_miss w h (take k urls) preferred_filename = Some h1
        /\ searches h1 = searches h ++ take k urls
        /\ match AppDownloader.search_and_download w h q preferred_filename with
           | (Some downloaded_file, h') =>
               exists u, urls !! k = Some u
                 /\ AppDownloader.attempt w h1 u preferred_filename
                    = (Some downloaded_file, h')
                 /\ searches h' = searches h ++ take (S k) urls
           | (None, h') => k = 4 /\ h' = h1
           end)
  /\ searches (snd (AudioFetcherDownloader.search_and_download w h q))
     = searches h ++ [py "ytsearch1:" ++ q].
Proof.
  intros urls. split; [reflexivity|]. split.
  - apply (try_variations_spec w preferred_filename urls h).
  - apply audio_fetcher_single_search.
Qed.

(** * The watchers *)

Lemma downloads_app (h1 h2 : list wcall) :
  downloads (h1 ++ h2) = downloads h1 ++ downloads h2.
Proof. unfold downloads. apply omap_app. Qed.

Section AppWatcher.
Import App.
Variable w : services.

Lemma remove_track_from_playlist_state σ i :
  let σ' := snd (remove_track_from_playlist w σ i) in
  processed_tracks σ' = processed_tracks σ
  /\ spotify_client σ' = spotify_client σ
  /\ downloads (trace σ') = downloads (trace σ).
Proof.
  unfold remove_track_from_playlist.
  destruct (spotify_client σ) eqn:E; [|repeat split; assumption].
  destruct (playlist_remove_all_occurrences_of_items w (trace σ) _);
    cbn; rewrite downloads_app, app_nil_r; repeat split; assumption.
Qed.



Lemma get_playlist_tracks_state σ :
  let σ' := snd (get_playlist_tracks w σ) in
  processed_tracks σ' = processed_tracks σ
  /\ downloads (trace σ') = downloads (trace σ).
Proof.
  unfold get_playlist_tracks. destruct (spotify_client σ); cbn; [|split; reflexivity].
  rewrite downloads_app, app_nil_r. split; reflexivity.
Qed.



Lemma process_track_processed_mono σ td :
  processed_tracks σ ⊆ processed_tracks (snd (process_track w σ td)).
Proof.
  unfold process_track.
  destruct (search_and_download w (trace σ) _ _).
  - pose proof (remove_track_from_playlist_state
                  (log (WDownload (AppUtils.format_search_query (track_info td))
                          (Some (spotify_filename (track_info td)))) σ)
                  (track_id td)) as (Hp & _ & _).
    destruct (remove_track_from_playlist w _ (track_id td)) as [[] σ2];
      cbn [snd add_processed processed_tracks log] in *; rewrite Hp; set_solver.
  - cbn [snd add_processed processed_tracks log]. set_solver.
Qed.

(** [processed_tracks] only grows while the tracks of a sync are processed. *)
Lemma process_all_processed_mono tds :
  forall σ st, processed_tracks σ ⊆ processed_tracks (snd (process_all w σ tds st)).
Proof.
  induction tds as [|td tds IH]; intros σ st; cbn [process_all]; [reflexivity|].
  pose proof (process_track_processed_mono σ td) as H.
  destruct (process_track w σ td) as [ok σ']. cbn [snd] in H.
  etransitivity; [exact H | apply IH].
Qed.

(** A failed download: the id goes into [processed_tracks], the call
    answers [False], and the statistics count a failure. *)
Lemma process_track_download_failed σ td :
  search_and_download w (trace σ) (fst (download_args td)) (snd (download_args td)) = None ->
  let '(ok, σ') := process_track w σ td in
  ok = false
  /\ processed_tracks σ' = {[ track_id td ]} ∪ processed_tracks σ
  /\ ~ is_new σ' td
  /\ forall tds st, process_all w σ (td :: tds) st = process_all w σ' tds (count_failed st).
Proof.
  intros H. cbn [download_args fst snd] in H.
  cbn [process_all]. unfold process_track. rewrite H.
  split; [reflexivity|]. split; [reflexivity|]. split.
  - unfold is_new. cbn. set_solver.
  - reflexivity.
Qed.

(** A successful download whose removal fails: nothing is recorded, the
    call answers [False], the statistics count a failure, and the track is
    still new. *)
Lemma process_track_removal_failed σ td :
  spotify_client σ = true ->
  search_and_download w (trace σ) (fst (download_args td)) (snd (download_args td)) <> None ->
  playlist_remove_all_occurrences_of_items w
    (trace σ ++ [WDownload (fst (download_args td)) (snd (download_args td))])
    ("spotify:track:" +:+ track_id td) = Raised ->
  let '(ok, σ') := process_track w σ td in
  ok = false
  /\ processed_tracks σ' = processed_tracks σ
  /\ (is_new σ td -> is_new σ' td)
  /\ forall tds st, process_all w σ (td :: tds) st = process_all w σ' tds (count_failed st).
Proof.
  intros Hc Hd Hr. cbn [download_args fst snd] in Hd, Hr.
  cbn [process_all]. unfold process_track.
  destruct (search_and_download w (trace σ) _ _) as [f|]; [|congruence].
  unfold remove_track_from_playlist. cbn [log spotify_client trace].
  rewrite Hc, Hr. repeat split; try reflexivity. intros Hn. exact Hn.
Qed.

End AppWatcher.

Section AudioFetcherWatcher.
Import AudioFetcher.
Variable w : services.

Lemma af_remove_state σ uri :
  let σ' := snd (remove_track_from_playlist w σ uri) in
  processed_tracks σ' = processed_tracks σ
  /\ failed_tracks σ' = failed_tracks σ
  /\ downloads (trace σ') = downloads (trace σ).
Proof.
  unfold remove_track_from_playlist.
  destruct (spotify_client σ); [|repeat split; reflexivity].
  destruct (playlist_remove_all_occurrences_of_items w (trace σ) uri);
    cbn [snd log processed_tracks failed_tracks trace];
    rewrite downloads_app, app_nil_r; repeat split; reflexivity.
Qed.

(** What one [process_track] does to the registry and to the call log. *)
Lemma af_process_track_spec σ t :
  let '(ok, σ') := process_track w σ t in
  downloads (trace σ') = downloads (trace σ) ++ [(query_of t, None)]
  /\ match search_and_download w (trace σ) (query_of t) with
     | Some _ =>
         ok = true
         /\ processed_tracks σ' = {[ t_id t ]} ∪ processed_tracks σ
         /\ failed_tracks σ' = failed_tracks σ
     | None =>
         ok = false
         /\ processed_tracks σ' = processed_tracks σ
         /\ failed_tracks σ' = {[ t_id t ]} ∪ failed_tracks σ
     end.
Proof.
  unfold process_track, query_of.
  destruct (search_and_download w (trace σ) _) as [f|].
  - pose proof (af_remove_state
                  (log (WDownload (query_of t) None) σ)
                  (t_uri t)) as (Hp & Hf & Hd).
    destruct (remove_track_from_playlist w _ (t_uri t)) as [[] σ2];
      cbn [snd add_processed processed_tracks failed_tracks trace log] in *;
      rewrite Hd, Hp, Hf, downloads_app; repeat split; reflexivity.
  - cbn [snd add_failed processed_tracks failed_tracks trace log].
    rewrite downloads_app. repeat split; reflexivity.
Qed.

Lemma af_process_all_downloads ts :
  forall σ,
    downloads (trace (process_all w σ ts))
    = downloads (trace σ) ++ map (fun t => (query_of t, None)) ts.
Proof.
  induction ts as [|t ts IH]; intros σ; cbn [process_all map].
  - rewrite app_nil_r. reflexivity.
  - pose proof (af_process_track_spec σ t) as H.
    destruct (process_track w σ t) as [ok σ']. destruct H as [Hd _].
    cbn [snd]. rewrite IH, Hd, <- app_assoc. reflexivity.
Qed.

Lemma af_get_playlist_tracks_state σ :
  let σ' := snd (get_playlist_tracks w σ) in
  processed_tracks σ' = processed_tracks σ
  /\ failed_tracks σ' = failed_tracks σ
  /\ downloads (trace σ') = downloads (trace σ).
Proof.
  unfold get_playlist_tracks. destruct (spotify_client σ);
    cbn [snd log processed_tracks failed_tracks trace]; [|repeat split; reflexivity].
  rewrite downloads_app, app_nil_r. repeat split; reflexivity.
Qed.

Lemma af_get_playlist_tracks_no_client σ :
  spotify_client σ = false -> fst (get_playlist_tracks w σ) = [].
Proof. intros H. unfold get_playlist_tracks. rewrite H. reflexivity. Qed.

(** The downloader calls of one [check_playlist_for_new_tracks]: one per
    fetched track whose id is in neither set, in fetch order, no others. *)
Lemma check_playlist_downloads σ :
  downloads (trace (check_playlist_for_new_tracks w σ))
  = downloads (trace σ)
    ++ map (fun t => (query_of t, None))
         (filter (fun t => (t_id t ∉ processed_tracks σ) ∧ (t_id t ∉ failed_tracks σ))
                 (fst (get_playlist_tracks w σ))).
Proof.
  unfold check_playlist_for_new_tracks. destruct (spotify_client σ) eqn:Ec.
  - pose proof (af_get_playlist_tracks_state σ) as (Hp & Hf & Hd).
    destruct (get_playlist_tracks w σ) as [all σ1]. cbn [fst snd] in *.
    assert (filter (is_new σ1) all
            = filter (fun t => (t_id t ∉ processed_tracks σ) ∧ (t_id t ∉ failed_tracks σ)) all)
      as ->.
    { apply list_filter_iff. intros t. unfold is_new. rewrite Hp, Hf. reflexivity. }
    destruct all as [|t0 all0] eqn:Ea.
    + cbn. rewrite app_nil_r. exact Hd.
    + rewrite <- Ea. destruct (filter _ all) as [|t ts] eqn:Ef.
      * cbn. rewrite app_nil_r. exact Hd.
      * cbn [set_last_check trace]. rewrite af_process_all_downloads, Hd. reflexivity.
  - rewrite (af_get_playlist_tracks_no_client σ Ec). cbn. rewrite app_nil_r. reflexivity.
Qed.

(** ** The two sets stay apart when the ids being processed are distinct
       and in neither set *)

Lemma af_process_all_sets ts :
  forall σ,
    processed_tracks σ ⊆ processed_tracks (process_all w σ ts)
    /\ failed_tracks σ ⊆ failed_tracks (process_all w σ ts)
    /\ (forall i, i ∈ processed_tracks (process_all w σ ts) ->
                  i ∈ processed_tracks σ ∨ i ∈ t_id <$> ts)
    /\ (forall i, i ∈ failed_tracks (process_all w σ ts) ->
                  i ∈ failed_tracks σ ∨ i ∈ t_id <$> ts).
Proof.
  induction ts as [|t ts IH]; intros σ; cbn [process_all].
  - repeat split; [set_solver | set_solver | tauto | tauto].
  - pose proof (af_process_track_spec σ t) as H.
    destruct (process_track w σ t) as [ok σ']. destruct H as [_ H]. cbn [snd].
    destruct (IH σ') as (IHp & IHf & IHp' & IHf').
    rewrite fmap_cons.
    destruct (search_and_download w (trace σ) (query_of t));
      destruct H as (_ & Hp & Hf); rewrite Hp, Hf in *;
      (split; [set_solver|]); (split; [set_solver|]);
      split; intros i Hi;
      [ destruct (IHp' i Hi) | destruct (IHf' i Hi)
      | destruct (IHp' i Hi) | destruct (IHf' i Hi) ]; set_solver.
Qed.

Lemma af_process_all_disjoint ts :
  forall σ,
    disjoint_sets σ -> NoDup (t_id <$> ts) -> fresh_ids σ ts ->
    disjoint_sets (process_all w σ ts)
    /\ forall t, t ∈ ts -> in_one_set (process_all w σ ts) (t_id t).
Proof.
  induction ts as [|t ts IH]; intros σ Hd Hn Hfr; cbn [process_all].
  - split; [exact Hd | intros t Ht; inversion Ht].
  - rewrite fmap_cons in Hn. apply NoDup_cons in Hn. destruct Hn as [Hnt Hn].
    destruct (Hfr t) as [Htp Htf]; [left|].
    pose proof (af_process_track_spec σ t) as H.
    destruct (process_track w σ t) as [ok σ']. destruct H as [_ H]. cbn [snd].
    assert (disjoint_sets σ' ∧ fresh_ids σ' ts ∧ in_one_set σ' (t_id t))
      as (Hd' & Hfr' & Hone).
    { unfold disjoint_sets, fresh_ids, in_one_set in *.
      destruct (search_and_download w (trace σ) (query_of t));
        destruct H as (_ & Hp & Hf); rewrite Hp, Hf.
      - split; [set_solver|]. split; [|set_solver].
        intros t' Ht'. destruct (Hfr t') as [? ?]; [right; exact Ht'|].
        assert (t_id t' ≠ t_id t)
          by (intros E; apply Hnt; rewrite <- E; apply list_elem_of_fmap_2, Ht').
        set_solver.
      - split; [set_solver|]. split; [|set_solver].
        intros t' Ht'. destruct (Hfr t') as [? ?]; [right; exact Ht'|].
        assert (t_id t' ≠ t_id t)
          by (intros E; apply Hnt; rewrite <- E; apply list_elem_of_fmap_2, Ht').
        set_solver. }
    destruct (IH σ' Hd' Hn Hfr') as [Hdis Hall].
    split; [exact Hdis|].
    intros t' Ht'. apply elem_of_cons in Ht'. destruct Ht' as [->|Ht']; [|apply Hall, Ht'].
    destruct (af_process_all_sets ts σ') as (Mp & Mf & Fp & Ff).
    unfold in_one_set in *. destruct Hone as [[Hin Hout]|[Hin Hout]].
    + left. split; [apply Mp, Hin|]. intros Hc. destruct (Ff _ Hc); tauto.
    + right. split; [apply Mf, Hin|]. intros Hc. destruct (Fp _ Hc); tauto.
Qed.

End AudioFetcherWatcher.

Section AudioFetcherRegistry.
Import AudioFetcher.
Variable w : services.

Lemma af_process_track_fresh σ t :
  disjoint_sets σ ->
  t_id t ∉ processed_tracks σ -> t_id t ∉ failed_tracks σ ->
  disjoint_sets (snd (process_track w σ t))
  /\ in_one_set (snd (process_track w σ t)) (t_id t).
Proof.
  intros Hd Hp Hf.
  destruct (af_process_all_disjoint w [t] σ Hd) as [H1 H2].
  - cbn. apply NoDup_cons. split; [apply not_elem_of_nil | apply NoDup_nil_2].
  - intros t' Ht'. apply list_elem_of_singleton in Ht'. subst t'. split; assumption.
  - cbn [process_all] in *. split; [exact H1|]. apply H2. left.
Qed.

Lemma ids_NoDup_filter (P : track -> Prop) `{forall t, Decision (P t)} (ts : list track) :
  NoDup (t_id <$> ts) -> NoDup (t_id <$> filter P ts).
Proof.
  induction ts as [|t ts IH]; [intros; constructor|].
  rewrite fmap_cons, NoDup_cons. intros [Hnt Hn].
  destruct (decide (P t)) as [Hp|Hp].
  - rewrite filter_cons_True by exact Hp. rewrite fmap_cons, NoDup_cons.
    split; [|apply IH, Hn].
    intros Hin. apply Hnt. apply list_elem_of_fmap in Hin.
    destruct Hin as (t' & E & Ht'). apply list_elem_of_filter in Ht'.
    rewrite E. apply list_elem_of_fmap_2, Ht'.
  - rewrite filter_cons_False by exact Hp. apply IH, Hn.
Qed.

Lemma filter_iff_in {A} (P1 P2 : A -> Prop)
    `{forall x, Decision (P1 x)} `{forall x, Decision (P2 x)} (l : list A) :
  (forall x, x ∈ l -> P1 x <-> P2 x) -> filter P1 l = filter P2 l.
Proof.
  induction l as [|a l IH]; intros Hl; [reflexivity|].
  assert (filter P1 l = filter P2 l) as E
    by (apply IH; intros x Hx; apply Hl; right; exact Hx).
  destruct (decide (P1 a)) as [Ha|Ha].
  - rewrite !filter_cons_True; [rewrite E; reflexivity | | exact Ha].
    apply Hl; [left | exact Ha].
  - rewrite !filter_cons_False; [exact E | | exact Ha].
    intros Ha2. apply Ha, Hl; [left | exact Ha2].
Qed.

Lemma check_playlist_disjoint σ :
  disjoint_sets σ ->
  NoDup (t_id <$> fst (get_playlist_tracks w σ)) ->
  disjoint_sets (check_playlist_for_new_tracks w σ).
Proof.
  intros Hd Hn. unfold check_playlist_for_new_tracks.
  destruct (spotify_client σ); [|exact Hd].
  pose proof (af_get_playlist_tracks_state w σ) as (Hp & Hf & _).
  destruct (get_playlist_tracks w σ) as [all σ1]. cbn [fst snd] in *.
  assert (disjoint_sets σ1) as Hd1 by (unfold disjoint_sets; rewrite Hp, Hf; exact Hd).
  destruct all as [|t0 all0] eqn:Ea; [exact Hd1|]. rewrite <- Ea in *.
  destruct (filter (is_new σ1) all) as [|t ts] eqn:Ef; [exact Hd1|].
  rewrite <- Ef.
  destruct (af_process_all_disjoint w (filter (is_new σ1) all) σ1 Hd1) as [H _].
  - apply ids_NoDup_filter, Hn.
  - intros t' Ht'. apply list_elem_of_filter in Ht'. apply Ht'.
  - exact H.
Qed.

Lemma and_not_nil (P : Prop) (i : string) : P <-> P ∧ i ∉ t_id <$> [].
Proof. rewrite fmap_nil. split; [intros ?; split; [assumption | apply not_elem_of_nil] | tauto]. Qed.

Lemma discard_all_state (ts : list track) :
  forall σ,
    let σ' := fold_left (fun s t => discard_failed (t_id t) s) ts σ in
    processed_tracks σ' = processed_tracks σ
    /\ trace σ' = trace σ
    /\ forall i, i ∈ failed_tracks σ' <-> i ∈ failed_tracks σ ∧ i ∉ t_id <$> ts.
Proof.
  induction ts as [|t ts IH]; intros σ; cbn [fold_left].
  - split; [reflexivity|]. split; [reflexivity|]. intros i. apply and_not_nil.
  - destruct (IH (discard_failed (t_id t) σ)) as (Hp & Ht & Hf).
    cbn zeta in *. rewrite Hp, Ht. split; [reflexivity|]. split; [reflexivity|].
    intros i. rewrite Hf, fmap_cons. cbn [discard_failed failed_tracks]. set_solver.
Qed.

Lemma retry_failed_tracks_unfold σ :
  exists σ2,
    retry_failed_tracks w σ = process_all w σ2 (retried w σ)
    /\ processed_tracks σ2 = processed_tracks σ
    /\ downloads (trace σ2) = downloads (trace σ)
    /\ forall i, i ∈ failed_tracks σ2 <-> i ∈ failed_tracks σ ∧ i ∉ t_id <$> retried w σ.
Proof.
  unfold retry_failed_tracks, retried.
  destruct (bool_decide (failed_tracks σ = ∅)) eqn:Ee.
  - apply bool_decide_eq_true in Ee. exists σ.
    assert (filter (fun t => t_id t ∈ failed_tracks σ) (fst (get_playlist_tracks w σ)) = [])
      as ->.
    { induction (fst (get_playlist_tracks w σ)) as [|t ts IH]; [reflexivity|].
      rewrite filter_cons_False; [exact IH | rewrite Ee; set_solver]. }
    split; [reflexivity|]. split; [reflexivity|]. split; [reflexivity|].
    intros i. apply and_not_nil.
  - pose proof (af_get_playlist_tracks_state w σ) as (Hp & Hf & Hd).
    destruct (get_playlist_tracks w σ) as [all σ1]. cbn [fst snd] in *.
    assert (filter (fun t => t_id t ∈ failed_tracks σ1
                             ∧ t_id t ∈ (list_to_set (map t_id all) : gset string)) all
            = filter (fun t => t_id t ∈ failed_tracks σ) all) as ->.
    { apply filter_iff_in. intros t Ht. rewrite Hf, elem_of_list_to_set.
      split; [tauto|]. intros ?. split; [assumption|].
      apply (list_elem_of_fmap_2 t_id), Ht. }
    destruct (filter _ all) as [|t ts] eqn:Ef.
    + exists σ1. rewrite Hp, Hd, Hf.
      split; [reflexivity|]. split; [reflexivity|]. split; [reflexivity|].
      intros i. apply and_not_nil.
    + destruct (discard_all_state (t :: ts) σ1) as (Hp2 & Ht2 & Hf2). cbn zeta in *.
      eexists. split; [reflexivity|]. rewrite Hp2, Ht2, Hp, Hd.
      split; [reflexivity|]. split; [reflexivity|].
      intros i. rewrite Hf2, Hf. reflexivity.
Qed.

Lemma retry_failed_tracks_spec σ :
  disjoint_sets σ ->
  NoDup (t_id <$> fst (get_playlist_tracks w σ)) ->
  disjoint_sets (retry_failed_tracks w σ)
  /\ downloads (trace (retry_failed_tracks w σ))
     = downloads (trace σ) ++ map (fun t => (query_of t, None)) (retried w σ)
  /\ (forall t, t ∈ retried w σ -> t_id t ∉ processed_tracks σ)
  /\ (forall t, t ∈ retried w σ -> in_one_set (retry_failed_tracks w σ) (t_id t)).
Proof.
  intros Hd Hn.
  destruct (retry_failed_tracks_unfold σ) as (σ2 & -> & Hp & Hdl & Hf).
  assert (forall t, t ∈ retried w σ -> t_id t ∉ processed_tracks σ) as Hnp.
  { intros t Ht. apply list_elem_of_filter in Ht. destruct Ht as [Ht _].
    unfold disjoint_sets in Hd. set_solver. }
  destruct (af_process_all_disjoint w (retried w σ) σ2) as [H1 H2].
  - unfold disjoint_sets in *. rewrite Hp. intros i Hi1 Hi2.
    apply Hf in Hi2. destruct Hi2 as [Hi2 _]. exact (Hd i Hi1 Hi2).
  - apply ids_NoDup_filter, Hn.
  - intros t Ht. rewrite Hp. split; [apply Hnp, Ht|].
    rewrite Hf. intros [_ Habs]. apply Habs, list_elem_of_fmap_2, Ht.
  - split; [exact H1|]. split; [|split; assumption].
    rewrite af_process_all_downloads, Hdl. reflexivity.
Qed.

Lemma cleanup_disjoint σ :
  disjoint_sets σ -> disjoint_sets (cleanup_processed_tracks σ).
Proof.
  unfold cleanup_processed_tracks, disjoint_sets. intros Hd.
  destruct (1000 <? size (processed_tracks σ));
    cbn [clear_processed processed_tracks failed_tracks];
    match goal with |- context [if ?b then _ else _] => destruct b end;
    cbn [clear_processed clear_failed processed_tracks failed_tracks];
    set_solver.
Qed.

End AudioFetcherRegistry.

Example app_fetch_the_song :
  fst (App.get_playlist_tracks (app_world [the_song] never_found (Returned tt)) app_start)
  = [the_song_app].
Proof. reflexivity. Qed.

Example af_fetch_the_song :
  fst (AudioFetcher.get_playlist_tracks (af_world [the_song] never_found (Returned tt)) af_start)
  = [the_song_af].
Proof. reflexivity. Qed.

(** * C1: a failed download *)

(** C1 as stated fails for the app watcher: it has no failed set, and a
    track whose download fails is put into [processed_tracks]. *)
Lemma app_failed_download_is_processed :
  let w := app_world [the_song] never_found (Returned tt) in
  let r := App.sync_playlist w app_start in
  App.search_and_download w [WFetch] (AppUtils.format_search_query (App.track_info the_song_app))
    (Some (App.spotify_filename (App.track_info the_song_app))) = None
  /\ fst r = {| App.new_tracks := 1; App.downloaded := 0; App.failed := 1 |}
  /\ ~ ("t1"%string ∉ App.processed_tracks (snd r)).
Proof.
  cbn zeta. split; [reflexivity|]. split; [reflexivity|].
  intros H. apply H. vm_compute. set_solver.
Qed.

(** C1 (amended): a track whose download fails is not retried by the next
    poll.  The audio_fetcher watcher adds its id to [failed_tracks] and not
    to [processed_tracks]; the app watcher, which has no failed set, adds
    the id to [processed_tracks] and counts the track as failed in the
    statistics.  Either way the id is still recorded when the sync ends. *)
Theorem failed_download_is_recorded
    (wf : AudioFetcher.services) (σf : AudioFetcher.state) (t : AudioFetcher.track)
    (wa : App.services) (σa : App.state) (td : App.track_data) :
  AudioFetcher.search_and_download wf (AudioFetcher.trace σf) (query_of t) = None ->
  App.search_and_download wa (App.trace σa)
    (fst (download_args td)) (snd (download_args td)) = None ->
  (let '(ok, σ') := AudioFetcher.process_track wf σf t in
   ok = false
   /\ AudioFetcher.failed_tracks σ' = {[ AudioFetcher.t_id t ]} ∪ AudioFetcher.failed_tracks σf
   /\ AudioFetcher.processed_tracks σ' = AudioFetcher.processed_tracks σf
   /\ ~ AudioFetcher.is_new σ' t
   /\ forall ts, AudioFetcher.t_id t
                 ∈ AudioFetcher.failed_tracks (AudioFetcher.process_all wf σ' ts))
  /\ (let '(ok, σ') := App.process_track wa σa td in
      ok = false
      /\ App.processed_tracks σ' = {[ App.track_id td ]} ∪ App.processed_tracks σa
      /\ ~ App.is_new σ' td
      /\ (forall tds st,
            App.process_all wa σa (td :: tds) st
            = App.process_all wa σ' tds (count_failed st))
      /\ forall tds st, App.track_id td
                        ∈ App.processed_tracks (snd (App.process_all wa σ' tds st))).
Proof.
  intros Hf Ha. split.
  - pose proof (af_process_track_spec wf σf t) as H.
    destruct (AudioFetcher.process_track wf σf t) as [ok σ'].
    destruct H as [_ H]. rewrite Hf in H. destruct H as (-> & Hp & Hfl).
    split; [reflexivity|]. split; [exact Hfl|]. split; [exact Hp|]. split.
    + unfold AudioFetcher.is_new. rewrite Hfl. set_solver.
    + intros ts. destruct (af_process_all_sets wf ts σ') as (_ & Hm & _).
      apply Hm. rewrite Hfl. set_solver.
  - pose proof (process_track_download_failed wa σa td Ha) as H.
    destruct (App.process_track wa σa td) as [ok σ'].
    destruct H as (-> & Hp & Hn & Hs).
    split; [reflexivity|]. split; [exact Hp|]. split; [exact Hn|]. split; [exact Hs|].
    intros tds st. apply (process_all_processed_mono wa tds σ' st).
    rewrite Hp. set_solver.
Qed.

Lemma failed_download_is_recorded_witness :
  let wf := af_world [the_song] never_found (Returned tt) in
  let wa := app_world [the_song] never_found (Returned tt) in
  (let '(ok, σ') := AudioFetcher.process_track wf af_start the_song_af in
   ok = false
   /\ AudioFetcher.failed_tracks σ' = {[ "t1"%string ]} ∪ ∅
   /\ AudioFetcher.processed_tracks σ' = ∅
   /\ ~ AudioFetcher.is_new σ' the_song_af
   /\ forall ts, "t1"%string
                 ∈ AudioFetcher.failed_tracks (AudioFetcher.process_all wf σ' ts))
  /\ (let '(ok, σ') := App.process_track wa app_start the_song_app in
      ok = false
      /\ App.processed_tracks σ' = {[ "t1"%string ]} ∪ ∅
      /\ ~ App.is_new σ' the_song_app
      /\ (forall tds st,
            App.process_all wa app_start (the_song_app :: tds) st
            = App.process_all wa σ' tds (count_failed st))
      /\ forall tds st, "t1"%string
                        ∈ App.processed_tracks (snd (App.process_all wa σ' tds st))).
Proof.
  apply (failed_download_is_recorded
           (af_world [the_song] never_found (Returned tt)) af_start the_song_af
           (app_world [the_song] never_found (Returned tt)) app_start the_song_app);
    reflexivity.
Defined.

(** * C2: a download that succeeds while the removal fails *)

(** C2 as stated fails for the app watcher: when the removal fails nothing
    is recorded, the track is counted as failed and the next sync downloads
    it again. *)
Lemma app_removal_failure_not_processed :
  let w := app_world [the_song] always_found Raised in
  let r := App.sync_playlist w app_start in
  let r2 := App.sync_playlist w (snd r) in
  fst r = {| App.new_tracks := 1; App.downloaded := 0; App.failed := 1 |}
  /\ ~ ("t1"%string ∈ App.processed_tracks (snd r))
  /\ length (downloads (App.trace (snd r))) = 1
  /\ length (downloads (App.trace (snd r2))) = 2.
Proof.
  cbn zeta. split; [reflexivity|]. split; [|split; reflexivity].
  vm_compute. set_solver.
Qed.

(** C2 (amended): when the download succeeds and the removal fails, the
    audio_fetcher watcher still adds the id to [processed_tracks], answers
    success, and skips the track on later fetches; the app watcher records
    nothing, counts the track as failed and leaves it new. *)
Theorem removal_failure_outcome
    (wf : AudioFetcher.services) (σf : AudioFetcher.state) (t : AudioFetcher.track)
    (wa : App.services) (σa : App.state) (td : App.track_data) :
  AudioFetcher.spotify_client σf = true ->
  AudioFetcher.search_and_download wf (AudioFetcher.trace σf) (query_of t) <> None ->
  AudioFetcher.playlist_remove_all_occurrences_of_items wf
    (AudioFetcher.trace σf ++ [WDownload (query_of t) None])
    (AudioFetcher.t_uri t) = Raised ->
  App.spotify_client σa = true ->
  App.search_and_download wa (App.trace σa)
    (fst (download_args td)) (snd (download_args td)) <> None ->
  App.playlist_remove_all_occurrences_of_items wa
    (App.trace σa ++ [WDownload (fst (download_args td)) (snd (download_args td))])
    ("spotify:track:" +:+ App.track_id td) = Raised ->
  (let '(ok, σ') := AudioFetcher.process_track wf σf t in
   ok = true
   /\ AudioFetcher.processed_tracks σ'
      = {[ AudioFetcher.t_id t ]} ∪ AudioFetcher.processed_tracks σf
   /\ AudioFetcher.failed_tracks σ' = AudioFetcher.failed_tracks σf
   /\ (forall ts, AudioFetcher.t_id t
                  ∈ AudioFetcher.processed_tracks (AudioFetcher.process_all wf σ' ts))
   /\ (forall tracks : list AudioFetcher.track,
         t ∉ filter (AudioFetcher.is_new σ') tracks))
  /\ (let '(ok, σ') := App.process_track wa σa td in
      ok = false
      /\ App.processed_tracks σ' = App.processed_tracks σa
      /\ (App.is_new σa td -> App.is_new σ' td)
      /\ forall tds st,
           App.process_all wa σa (td :: tds) st
           = App.process_all wa σ' tds (count_failed st)).
Proof.
  intros Hcf Hdf Hrf Hca Hda Hra. split.
  - pose proof (af_process_track_spec wf σf t) as H.
    destruct (AudioFetcher.process_track wf σf t) as [ok σ'].
    destruct H as [_ H].
    destruct (AudioFetcher.search_and_download wf (AudioFetcher.trace σf) (query_of t));
      [|congruence].
    destruct H as (-> & Hp & Hfl).
    split; [reflexivity|]. split; [exact Hp|]. split; [exact Hfl|]. split.
    + intros ts. destruct (af_process_all_sets wf ts σ') as (Hm & _).
      apply Hm. rewrite Hp. set_solver.
    + intros tracks Hin. apply list_elem_of_filter in Hin. destruct Hin as [[Hn _] _].
      apply Hn. rewrite Hp. set_solver.
  - apply process_track_removal_failed; assumption.
Qed.

Lemma removal_failure_outcome_witness :
  let wf := af_world [the_song] always_found Raised in
  let wa := app_world [the_song] always_found Raised in
  (let '(ok, σ') := AudioFetcher.process_track wf af_start the_song_af in
   ok = true
   /\ AudioFetcher.processed_tracks σ' = {[ "t1"%string ]} ∪ ∅
   /\ AudioFetcher.failed_tracks σ' = ∅
   /\ (forall ts, "t1"%string
                  ∈ AudioFetcher.processed_tracks (AudioFetcher.process_all wf σ' ts))
   /\ (forall tracks : list AudioFetcher.track,
         the_song_af ∉ filter (AudioFetcher.is_new σ') tracks))
  /\ (let '(ok, σ') := App.process_track wa app_start the_song_app in
      ok = false
      /\ App.processed_tracks σ' = ∅
      /\ (App.is_new app_start the_song_app -> App.is_new σ' the_song_app)
      /\ forall tds st,
           App.process_all wa app_start (the_song_app :: tds) st
           = App.process_all wa σ' tds (count_failed st)).
Proof.
  apply (removal_failure_outcome
           (af_world [the_song] always_found Raised) af_start the_song_af
           (app_world [the_song] always_found Raised) app_start the_song_app);
    try reflexivity; discriminate.
Defined.

(** * C3: download attempts of one sync *)





(** * C10: syncing without a client *)

(** C10: with no Spotify client, [sync_playlist] returns the all-zero
    statistics and leaves the watcher, its registry and its call log as
    they were. *)
Theorem sync_playlist_without_client (w : App.services) (σ : App.state) :
  App.spotify_client σ = false ->
  App.sync_playlist w σ
  = ({| App.new_tracks := 0; App.downloaded := 0; App.failed := 0 |}, σ)
  /\ App.processed_tracks (snd (App.sync_playlist w σ)) = App.processed_tracks σ
  /\ App.trace (snd (App.sync_playlist w σ)) = App.trace σ.
Proof.
  intros H. unfold App.sync_playlist. rewrite H. repeat split; reflexivity.
Qed.

Lemma sync_playlist_without_client_witness :
  App.sync_playlist (app_world [the_song] always_found (Returned tt)) app_disconnected
  = ({| App.new_tracks := 0; App.downloaded := 0; App.failed := 0 |}, app_disconnected)
  /\ App.processed_tracks
       (snd (App.sync_playlist (app_world [the_song] always_found (Returned tt))
               app_disconnected))
     = App.processed_tracks app_disconnected
  /\ App.trace
       (snd (App.sync_playlist (app_world [the_song] always_found (Returned tt))
               app_disconnected))
     = App.trace app_disconnected.
Proof.
  apply (sync_playlist_without_client
           (app_world [the_song] always_found (Returned tt)) app_disconnected).
  reflexivity.
Defined.

(** * C5: the two registry sets *)

(** C5 as stated fails: a playlist may list the same track twice.  When the
    first occurrence downloads and the second does not, the id ends in both
    sets; [retry_failed_tracks] then reprocesses an id that is in
    [processed_tracks]. *)
Lemma duplicate_track_in_both_sets :
  let w := af_world [the_song; the_song] found_once (Returned tt) in
  let σ1 := AudioFetcher.check_playlist_for_new_tracks w af_start in
  disjoint_sets af_start
  /\ "t1"%string ∈ AudioFetcher.processed_tracks σ1
  /\ "t1"%string ∈ AudioFetcher.failed_tracks σ1
  /\ ~ disjoint_sets σ1
  /\ ~ (forall t, t ∈ retried w σ1 ->
                  AudioFetcher.t_id t ∉ AudioFetcher.processed_tracks σ1).
Proof.
  cbn zeta.
  assert ("t1"%string ∈ AudioFetcher.processed_tracks
            (AudioFetcher.check_playlist_for_new_tracks
               (af_world [the_song; the_song] found_once (Returned tt)) af_start)) as Hp
    by (vm_compute; set_solver).
  assert ("t1"%string ∈ AudioFetcher.failed_tracks
            (AudioFetcher.check_playlist_for_new_tracks
               (af_world [the_song; the_song] found_once (Returned tt)) af_start)) as Hf
    by (vm_compute; set_solver).
  split; [unfold disjoint_sets; cbn; set_solver|].
  split; [exact Hp|]. split; [exact Hf|]. split.
  - intros Hd. exact (Hd _ Hp Hf).
  - intros H. apply (H the_song_af); [|exact Hp].
    unfold retried. apply list_elem_of_filter. split; [exact Hf|].
    cbn. left.
Qed.

(** C5 (amended): provided the fetched playlist lists no id twice, a
    disjoint registry stays disjoint through a sync, a retry and an
    eviction, and through processing any track whose id is in neither set;
    [retry_failed_tracks] reprocesses exactly the fetched tracks whose id is
    in [failed_tracks], none of which is in [processed_tracks], and leaves
    each of their ids in exactly one of the two sets. *)
Theorem registry_sets_stay_disjoint
    (w : AudioFetcher.services) (σ : AudioFetcher.state) :
  disjoint_sets σ ->
  NoDup (AudioFetcher.t_id <$> fst (AudioFetcher.get_playlist_tracks w σ)) ->
  disjoint_sets (AudioFetcher.check_playlist_for_new_tracks w σ)
  /\ disjoint_sets (AudioFetcher.cleanup_processed_tracks σ)
  /\ (forall t, AudioFetcher.is_new σ t ->
        disjoint_sets (snd (AudioFetcher.process_track w σ t))
        /\ in_one_set (snd (AudioFetcher.process_track w σ t)) (AudioFetcher.t_id t))
  /\ disjoint_sets (AudioFetcher.retry_failed_tracks w σ)
  /\ downloads (AudioFetcher.trace (AudioFetcher.retry_failed_tracks w σ))
     = downloads (AudioFetcher.trace σ)
       ++ map (fun t => (query_of t, None)) (retried w σ)
  /\ (forall t, t ∈ retried w σ ->
        AudioFetcher.t_id t ∉ AudioFetcher.processed_tracks σ)
  /\ (forall t, t ∈ retried w σ ->
        in_one_set (AudioFetcher.retry_failed_tracks w σ) (AudioFetcher.t_id t)).
Proof.
  intros Hd Hn.
  split; [apply check_playlist_disjoint; assumption|].
  split; [apply cleanup_disjoint; assumption|].
  split; [intros t [Hp Hf]; apply af_process_track_fresh; assumption|].
  apply retry_failed_tracks_spec; assumption.
Qed.

Lemma registry_sets_stay_disjoint_witness :
  let w := af_world two_songs found_once (Returned tt) in
  let σ := af_one_failed in
  disjoint_sets (AudioFetcher.check_playlist_for_new_tracks w σ)
  /\ disjoint_sets (AudioFetcher.cleanup_processed_tracks σ)
  /\ (forall t, AudioFetcher.is_new σ t ->
        disjoint_sets (snd (AudioFetcher.process_track w σ t))
        /\ in_one_set (snd (AudioFetcher.process_track w σ t)) (AudioFetcher.t_id t))
  /\ disjoint_sets (AudioFetcher.retry_failed_tracks w σ)
  /\ downloads (AudioFetcher.trace (AudioFetcher.retry_failed_tracks w σ))
     = downloads (AudioFetcher.trace σ)
       ++ map (fun t => (query_of t, None)) (retried w σ)
  /\ (forall t, t ∈ retried w σ ->
        AudioFetcher.t_id t ∉ AudioFetcher.processed_tracks σ)
  /\ (forall t, t ∈ retried w σ ->
        in_one_set (AudioFetcher.retry_failed_tracks w σ) (AudioFetcher.t_id t)).
Proof.
  apply (registry_sets_stay_disjoint
           (af_world two_songs found_once (Returned tt)) af_one_failed).
  - unfold disjoint_sets. cbn. apply disjoint_empty_l.
  - cbn. apply NoDup_cons_2; [|apply NoDup_singleton].
    intros H. apply list_elem_of_singleton in H. discriminate H.
Defined.

Example retry_reprocesses_the_failed_song :
  let w := af_world two_songs found_once (Returned tt) in
  map AudioFetcher.t_id (retried w af_one_failed) = ["t1"%string]
  /\ downloads (AudioFetcher.trace (AudioFetcher.retry_failed_tracks w af_one_failed))
     = [(py "Artist - Song", None)].
Proof.
  cbn zeta. split.
  - unfold retried. cbn [fst AudioFetcher.get_playlist_tracks].
    vm_compute. reflexivity.
  - vm_compute. reflexivity.
Qed.

(** * Further properties of the string helpers *)

Section SubstitutionFacts.
Import Re.

(** Substitution only writes characters of the subject or of the
    replacement. *)
Lemma sub_from_Forall (P : ascii -> Prop) icase r (repl : pystr) :
  Forall P repl ->
  forall (s : pystr) bol skip,
    Forall P s -> Forall P (sub_from icase r repl bol skip s).
Proof.
  intros Hr. induction s as [|c s IH]; intros bol skip Hs.
  - destruct skip; cbn [sub_from]; [|constructor].
    destruct (match_at icase r bol []); [|constructor].
    cbn. exact Hr.
  - inversion Hs as [|? ? Hc Hs']; subst.
    destruct skip as [|n]; cbn [sub_from]; [|apply IH, Hs'].
    destruct (match_at icase r bol (c :: s)) as [rest|].
    + destruct (length (c :: s) - length rest).
      * apply Forall_app. split; [exact Hr|]. constructor; [exact Hc | apply IH, Hs'].
      * apply Forall_app. split; [exact Hr | apply IH, Hs'].
    + constructor; [exact Hc | apply IH, Hs'].
Qed.

Lemma sub_Forall (P : ascii -> Prop) icase r (repl s : pystr) :
  Forall P repl -> Forall P s -> Forall P (sub icase r repl s).
Proof. intros. apply sub_from_Forall; assumption. Qed.

(** Substituting a single class rewrites the subject character by
    character. *)
Lemma sub_from_one icase k (repl s : pystr) :
  forall bol,
    sub_from icase (One k) repl bol 0 s
    = flat_map (fun c => if cls_match icase k c then repl else [c]) s.
Proof.
  induction s as [|c s IH]; intros bol; [reflexivity|].
  cbn [sub_from match_at rmatch flat_map].
  destruct (cls_match icase k c).
  - replace (length (c :: s) - length s) with 1 by (cbn [length]; lia).
    rewrite IH. reflexivity.
  - rewrite IH. reflexivity.
Qed.

(** After it, no character of the class is left, unless the replacement
    brings one. *)
Lemma sub_one_clears icase k (repl s : pystr) :
  Forall (fun c => cls_match icase k c = false) repl ->
  Forall (fun c => cls_match icase k c = false) (sub icase (One k) repl s).
Proof.
  intros Hr. unfold sub. rewrite sub_from_one.
  induction s as [|c s IH]; cbn [flat_map]; [constructor|].
  apply Forall_app. split; [|exact IH].
  destruct (cls_match icase k c) eqn:E; [exact Hr | constructor; [exact E | constructor]].
Qed.

(** Characters outside the class are kept. *)
Lemma sub_one_keeps icase k (repl s : pystr) (c : ascii) :
  cls_match icase k c = false -> In c s -> In c (sub icase (One k) repl s).
Proof.
  intros Hc. unfold sub. rewrite sub_from_one.
  induction s as [|a s IH]; cbn [flat_map]; [tauto|].
  intros [->|Hin]; apply in_or_app.
  - left. rewrite Hc. left. reflexivity.
  - right. apply IH, Hin.
Qed.

Lemma star_match_all icase k bol (s : pystr) :
  star_match icase k bol s (fun _ rest => Some rest)
  = Some (PyStr.lstrip_by (cls_match icase k) s).
Proof.
  revert bol. induction s as [|c s IH]; intros bol; cbn [star_match PyStr.lstrip_by];
    [reflexivity|].
  destruct (cls_match icase k c); [rewrite IH|]; reflexivity.
Qed.

(** Substituting [k+] is [squash]. *)
Lemma sub_from_plus icase k (repl s : pystr) :
  forall bol,
    sub_from icase (Plus k) repl bol 0 s = squash icase k repl false s
    /\ sub_from icase (Plus k) repl bol
         (length s - length (PyStr.lstrip_by (cls_match icase k) s)) s
       = squash icase k repl true s.
Proof.
  induction s as [|c s IH]; intros bol; [split; reflexivity|].
  pose proof (lstrip_by_length (cls_match icase k) s) as Hl.
  destruct (cls_match icase k c) eqn:E.
  - assert (H0 : sub_from icase (Plus k) repl bol 0 (c :: s)
                 = repl ++ squash icase k repl true s).
    { cbn [sub_from match_at rmatch]. rewrite E, star_match_all.
      replace (length (c :: s) - length (PyStr.lstrip_by (cls_match icase k) s))
        with (S (length s - length (PyStr.lstrip_by (cls_match icase k) s)))
        by (cbn [length]; lia).
      rewrite (proj2 (IH false)). reflexivity. }
    split.
    + rewrite H0. cbn [squash]. rewrite E. reflexivity.
    + cbn [PyStr.lstrip_by]. rewrite E.
      replace (length (c :: s) - length (PyStr.lstrip_by (cls_match icase k) s))
        with (S (length s - length (PyStr.lstrip_by (cls_match icase k) s)))
        by (cbn [length]; lia).
      cbn [sub_from squash]. rewrite E. apply (proj2 (IH false)).
  - assert (H0 : sub_from icase (Plus k) repl bol 0 (c :: s)
                 = c :: squash icase k repl false s).
    { cbn [sub_from match_at rmatch]. rewrite E, (proj1 (IH false)). reflexivity. }
    split.
    + rewrite H0. cbn [squash]. rewrite E. reflexivity.
    + cbn [PyStr.lstrip_by]. rewrite E.
      replace (length (c :: s) - length (c :: s)) with 0 by lia.
      rewrite H0. cbn [squash]. rewrite E. reflexivity.
Qed.

Lemma squash_clears icase k (repl : pystr) in_run (s : pystr) :
  Forall (fun c => cls_match icase k c = false) repl ->
  Forall (fun c => cls_match icase k c = false) (squash icase k repl in_run s).
Proof.
  intros Hr. revert in_run. induction s as [|c s IH]; intros in_run; cbn [squash];
    [constructor|].
  destruct (cls_match icase k c) eqn:E.
  - destruct in_run; [apply IH|]. apply Forall_app. split; [exact Hr | apply IH].
  - constructor; [exact E | apply IH].
Qed.

Lemma sub_plus_clears icase k (repl s : pystr) :
  Forall (fun c => cls_match icase k c = false) repl ->
  Forall (fun c => cls_match icase k c = false) (sub icase (Plus k) repl s).
Proof.
  intros Hr. unfold sub. rewrite (proj1 (sub_from_plus icase k repl s true)).
  apply squash_clears, Hr.
Qed.

End SubstitutionFacts.

Section FilenameFacts.
Import Re PyStr.

Lemma reserved_free_Forall (s : pystr) :
  reserved_free s = true <->
  Forall (fun c => cls_match false (COneOf AppUtils.invalid_chars) c = false) s.
Proof.
  unfold reserved_free. rewrite forallb_forall, List.Forall_forall.
  split; intros H c Hc; specialize (H c Hc); cbn [cls_match] in *.
  - apply negb_true_iff, H.
  - apply negb_true_iff, H.
Qed.

Lemma space_free_Forall (s : pystr) :
  space_free s = true <-> Forall (fun c => cls_match false CSpace c = false) s.
Proof.
  unfold space_free. rewrite forallb_forall, List.Forall_forall.
  split; intros H c Hc; specialize (H c Hc); cbn [cls_match] in *.
  - apply negb_true_iff, H.
  - apply negb_true_iff, H.
Qed.

Lemma rstrip_by_length (p : ascii -> bool) (s : pystr) :
  length (rstrip_by p s) <= length s.
Proof.
  unfold rstrip_by. rewrite length_rev.
  etransitivity; [apply lstrip_by_length|]. rewrite length_rev. reflexivity.
Qed.

Lemma strip_by_length (p : ascii -> bool) (s : pystr) :
  length (strip_by p s) <= length s.
Proof.
  unfold strip_by. etransitivity; [apply rstrip_by_length | apply lstrip_by_length].
Qed.

Lemma sanitize_filename_props (filename : pystr) :
  AppUtils.sanitize_filename filename <> []
  /\ reserved_free (AppUtils.sanitize_filename filename) = true
  /\ strip (AppUtils.sanitize_filename filename) = AppUtils.sanitize_filename filename.
Proof.
  unfold AppUtils.sanitize_filename.
  set (x := sub false AppUtils.underscores_re (py "_")
              (sub false AppUtils.invalid_re (py "_") filename)).
  assert (reserved_free (strip (strip_by AppUtils.is_underscore x)) = true) as Hr.
  { apply reserved_free_Forall. apply strip_by_Forall, strip_by_Forall.
    unfold x. apply sub_Forall; [repeat constructor|].
    apply sub_one_clears. repeat constructor. }
  destruct (strip (strip_by AppUtils.is_underscore x)) as [|c z] eqn:E.
  - split; [discriminate|]. split; vm_compute; reflexivity.
  - split; [discriminate|]. split; [exact Hr|].
    rewrite <- E. apply strip_by_idem.
Qed.

(** X1: [sanitize_filename] never returns the empty name, never keeps a
    character of its reserved set, and its result has no whitespace at
    either end. *)
Theorem sanitize_filename_safe (filename : pystr) :
  AppUtils.sanitize_filename filename <> []
  /\ reserved_free (AppUtils.sanitize_filename filename) = true
  /\ strip (AppUtils.sanitize_filename filename) = AppUtils.sanitize_filename filename.
Proof. apply sanitize_filename_props. Qed.

(** X2: [get_safe_filename] never returns the empty name; its result has
    no reserved character, no whitespace, and at most [max_length]
    characters (7, the length of the fallback name, if that is more). *)
Theorem get_safe_filename_safe (text : pystr) (max_length : nat) :
  AudioFetcherUtils.get_safe_filename text max_length <> []
  /\ reserved_free (AudioFetcherUtils.get_safe_filename text max_length) = true
  /\ space_free (AudioFetcherUtils.get_safe_filename text max_length) = true
  /\ length (AudioFetcherUtils.get_safe_filename text max_length) <= Nat.max max_length 7.
Proof.
  unfold AudioFetcherUtils.get_safe_filename.
  destruct text as [|c0 text0]; [repeat split; try discriminate; cbn; lia|].
  set (text := c0 :: text0).
  set (x := strip_by AudioFetcherUtils.is_dot_or_underscore
              (sub false AppUtils.spaces_re (py "_")
                 (sub false AppUtils.invalid_re [] text))).
  set (y := if max_length <? length x
            then rstrip_by AudioFetcherUtils.is_dot_or_underscore (take max_length x)
            else x).
  assert (Forall (fun c => cls_match false (COneOf AppUtils.invalid_chars) c = false) x) as Hx1.
  { unfold x. apply strip_by_Forall. apply sub_Forall; [repeat constructor|].
    apply sub_one_clears. constructor. }
  assert (Forall (fun c => cls_match false CSpace c = false) x) as Hx2.
  { unfold x. apply strip_by_Forall. apply sub_plus_clears. repeat constructor. }
  assert (reserved_free y = true /\ space_free y = true /\ length y <= max_length)
    as (Hy1 & Hy2 & Hy3).
  { rewrite reserved_free_Forall, space_free_Forall. unfold y.
    destruct (max_length <? length x) eqn:El.
    - split; [apply rstrip_by_Forall, Forall_take, Hx1|].
      split; [apply rstrip_by_Forall, Forall_take, Hx2|].
      etransitivity; [apply rstrip_by_length|]. rewrite length_take. lia.
    - apply Nat.ltb_ge in El. repeat split; assumption. }
  destruct y as [|c z].
  - repeat split; try discriminate; cbn; lia.
  - split; [discriminate|]. split; [exact Hy1|]. split; [exact Hy2|]. lia.
Qed.

End FilenameFacts.

Section QueryFacts.
Import Re PyStr.

Lemma squeeze_Forall_words (P : ascii -> Prop) st (s : pystr) :
  P " "%char -> Forall (fun c => is_space c = false -> P c) s ->
  Forall P (squeeze st s).
Proof.
  intros Hsp H. revert st. induction H as [|c s Hc Hs IH]; intros st; cbn [squeeze].
  - constructor.
  - destruct (is_space c) eqn:E; [apply IH|].
    destruct st; repeat constructor; try (apply Hc; reflexivity); try assumption; apply IH.
Qed.

Lemma squeeze_keeps st (s : pystr) (c : ascii) :
  is_space c = false -> In c s -> In c (squeeze st s).
Proof.
  intros Hc. revert st. induction s as [|a s IH]; intros st; [tauto|].
  cbn [squeeze]. intros [->|Hin].
  - rewrite Hc. destruct st; cbn; tauto.
  - destruct (is_space a); [apply IH, Hin|].
    destruct st; cbn; right; try right; apply IH, Hin.
Qed.

(** What is left after removing [[^\w\s\-]] and squeezing whitespace. *)
Lemma squeeze_special_query (s : pystr) :
  forallb query_char (squeeze AtStart (sub false AppUtils.special_re [] s)) = true.
Proof.
  apply forallb_forall. apply List.Forall_forall.
  apply squeeze_Forall_words; [reflexivity|].
  pose proof (sub_one_clears false (CExcept true true (py "-")) [] s (List.Forall_nil _)) as H.
  unfold AppUtils.special_re.
  eapply List.Forall_impl; [|exact H].
  intros c Hc Hs. cbn [cls_match] in Hc. apply negb_false_iff in Hc.
  rewrite Hs in Hc. unfold query_char.
  unfold mem_char, py in Hc. cbn [andb orb list_ascii_of_string existsb] in Hc.
  destruct (is_word c); [reflexivity|]. cbn [orb] in *.
  rewrite orb_false_r in Hc. rewrite Hc. apply orb_true_r.
Qed.

Lemma forallb_query_app (a b : pystr) :
  forallb query_char a = true -> forallb query_char b = true ->
  forallb query_char (a ++ b) = true.
Proof. intros Ha Hb. rewrite forallb_app, Ha, Hb. reflexivity. Qed.

(** X3: the search query of the app watcher is made of word characters,
    single blanks and dashes only, always contains the dash that separates
    artist and title, and is already whitespace-normalised. *)
Theorem app_format_search_query_shape (track_info : track_obj) :
  let q := AppUtils.format_search_query track_info in
  forallb query_char q = true
  /\ In "-"%char q
  /\ strip (sub false AppUtils.spaces_re (py " ") q) = q.
Proof.
  cbn zeta. unfold AppUtils.format_search_query.
  set (q0 := _ ++ py " - " ++ tr_name track_info).
  rewrite !strip_sub_spaces. split; [apply squeeze_special_query|]. split.
  - apply squeeze_keeps; [reflexivity|].
    apply sub_one_keeps; [reflexivity|].
    unfold q0. apply in_or_app. right. cbn. tauto.
  - apply (proj1 (squeeze_idem _)).
Qed.

Lemma clean_string_query (text : pystr) :
  forallb query_char (AudioFetcherUtils.clean_string text) = true.
Proof.
  unfold AudioFetcherUtils.clean_string. destruct text as [|c text]; [reflexivity|].
  rewrite strip_sub_spaces. apply squeeze_special_query.
Qed.

(** X4: the search query of the audio_fetcher watcher is made of word
    characters, blanks and dashes only and contains a dash; an album whose
    cleaned name equals the cleaned title is left out. *)
Theorem af_format_search_query_shape (artist title : pystr) (album : option pystr) :
  let q := AudioFetcherUtils.format_search_query artist title album in
  forallb query_char q = true
  /\ In "-"%char q
  /\ (forall a, album = Some a ->
        AudioFetcherUtils.clean_string a = AudioFetcherUtils.clean_string title ->
        q = AudioFetcherUtils.format_search_query artist title None).
Proof.
  cbn zeta. unfold AudioFetcherUtils.format_search_query.
  assert (forallb query_char
            (AudioFetcherUtils.clean_string artist ++ py " - "
             ++ AudioFetcherUtils.clean_string title) = true) as Hq.
  { apply forallb_query_app; [apply clean_string_query|].
    apply forallb_query_app; [reflexivity | apply clean_string_query]. }
  assert (In "-"%char (AudioFetcherUtils.clean_string artist ++ py " - "
                       ++ AudioFetcherUtils.clean_string title)) as Hd.
  { apply in_or_app. right. cbn. tauto. }
  split; [|split].
  - destruct album as [[|c a]|]; try exact Hq.
    destruct (bool_decide _); [exact Hq|].
    apply forallb_query_app; [exact Hq|].
    apply forallb_query_app; [reflexivity | apply clean_string_query].
  - destruct album as [[|c a]|]; try exact Hd.
    destruct (bool_decide _); [exact Hd|].
    apply in_or_app. left. exact Hd.
  - intros a -> Ha. destruct a as [|c a]; [reflexivity|].
    rewrite bool_decide_eq_true_2 by exact Ha. reflexivity.
Qed.

Lemma af_format_search_query_shape_witness :
  let q := AudioFetcherUtils.format_search_query (py "Daft Punk") (py "Discovery (Remix)")
             (Some (py "Discovery")) in
  forallb query_char q = true
  /\ In "-"%char q
  /\ q = AudioFetcherUtils.format_search_query (py "Daft Punk") (py "Discovery (Remix)") None.
Proof.
  destruct (af_format_search_query_shape (py "Daft Punk") (py "Discovery (Remix)")
              (Some (py "Discovery"))) as (H1 & H2 & H3).
  split; [exact H1|]. split; [exact H2|].
  apply (H3 (py "Discovery")); reflexivity.
Defined.

(** X5: a title with at least one non-whitespace character is never
    cleaned to the empty string, and the cleaned title has no whitespace
    at either end. *)
Theorem clean_track_title_keeps_text (title : pystr) :
  has_text title = true ->
  AppUtils.clean_track_title title <> []
  /\ strip (AppUtils.clean_track_title title) = AppUtils.clean_track_title title.
Proof.
  intros Ht.
  assert (title <> []) as Hne by (intros ->; discriminate).
  pose proof (strip_by_nonempty is_space title Ht) as Hs.
  destruct (clean_track_title_cases title Hne) as [E|[E Hl]]; rewrite E.
  - split; [exact Hs | apply strip_by_idem].
  - split; [|apply strip_by_idem].
    intros H0. rewrite H0 in Hl. cbn in Hl. lia.
Qed.

Lemma clean_track_title_keeps_text_witness :
  AppUtils.clean_track_title (py " (HD) ") <> []
  /\ strip (AppUtils.clean_track_title (py " (HD) "))
     = AppUtils.clean_track_title (py " (HD) ").
Proof. apply (clean_track_title_keeps_text (py " (HD) ")). reflexivity. Defined.

End QueryFacts.

Section UriFacts.

Lemma last_field_after (sep : ascii) (pre l : pystr) :
  PyStr.mem_char sep l = false ->
  AppUtils.last_field sep (pre ++ sep :: l) = l.
Proof.
  intros Hl. induction pre as [|c pre IH]; cbn [app AppUtils.last_field].
  - rewrite Hl, Ascii.eqb_refl. reflexivity.
  - assert (PyStr.mem_char sep (pre ++ sep :: l) = true) as ->; [|exact IH].
    unfold PyStr.mem_char. rewrite existsb_app. cbn [existsb].
    rewrite Ascii.eqb_refl. apply orb_true_iff. right. reflexivity.
Qed.

Lemma last_field_clean (sep : ascii) (l : pystr) :
  PyStr.mem_char sep (AppUtils.last_field sep l) = false.
Proof.
  induction l as [|c l IH]; [reflexivity|]. cbn [AppUtils.last_field].
  destruct (PyStr.mem_char sep l) eqn:E; [exact IH|].
  destruct (Ascii.eqb c sep) eqn:Ec; [exact E|].
  unfold PyStr.mem_char in *. cbn [existsb]. rewrite E, Ascii.eqb_sym, Ec. reflexivity.
Qed.

Lemma prefix_append (a b : string) : String.prefix a (a +:+ b) = true.
Proof.
  induction a as [|c a IH].
  - change ("" +:+ b)%string with b. destruct b; reflexivity.
  - change (String c a +:+ b) with (String c (a +:+ b)). cbn [String.prefix].
    destruct (ascii_dec c c); [exact IH | congruence].
Qed.

Lemma py_append (a b : string) : py (a +:+ b) = py a ++ py b.
Proof.
  unfold py. induction a as [|c a IH].
  - reflexivity.
  - change (String c a +:+ b) with (String c (a +:+ b)).
    cbn [list_ascii_of_string app]. f_equal. exact IH.
Qed.

(** X6: [get_track_id_from_uri] inverts the uri the watcher builds for a
    removal: for an id without a colon, the id is read back; whatever it
    returns holds no colon, and a uri without the prefix gives nothing. *)
Theorem get_track_id_from_uri_round_trip (i : string) :
  PyStr.mem_char ":"%char (py i) = false ->
  AppUtils.get_track_id_from_uri ("spotify:track:" +:+ i) = Some i
  /\ (forall uri j, AppUtils.get_track_id_from_uri uri = Some j ->
        String.prefix "spotify:track:" uri = true
        /\ PyStr.mem_char ":"%char (py j) = false).
Proof.
  intros Hi. split.
  - unfold AppUtils.get_track_id_from_uri.
    rewrite prefix_append, py_append.
    change (py "spotify:track:") with (py "spotify:track" ++ [":"%char]).
    rewrite <- app_assoc. cbn [app].
    rewrite (last_field_after ":"%char _ _ Hi).
    unfold py. rewrite string_of_list_ascii_of_string. reflexivity.
  - intros uri j. unfold AppUtils.get_track_id_from_uri.
    destruct (String.prefix "spotify:track:" uri); [|discriminate].
    intros [= <-]. split; [reflexivity|].
    unfold py. rewrite list_ascii_of_string_of_list_ascii. apply last_field_clean.
Qed.

Lemma get_track_id_from_uri_round_trip_witness :
  AppUtils.get_track_id_from_uri "spotify:track:4uLU6hMCjMI75M1A2tKUQC"
  = Some "4uLU6hMCjMI75M1A2tKUQC"%string.
Proof.
  apply (get_track_id_from_uri_round_trip "4uLU6hMCjMI75M1A2tKUQC"). reflexivity.
Defined.

End UriFacts.

(** * Further properties of the file resolver *)

Section ResolverFacts.
Import AppDownloader.

Lemma latest_fold (rest : list file) :
  forall best,
    let r := fold_left (fun best g => if (st_mtime best <? st_mtime g)%Z then g else best)
                       rest best in
    In r (best :: rest)
    /\ forall g, In g (best :: rest) -> (st_mtime g <= st_mtime r)%Z.
Proof.
  induction rest as [|x rest IH]; intros best; cbn [fold_left].
  - split; [left; reflexivity|]. intros g [<-|[]]. lia.
  - destruct (st_mtime best <? st_mtime x)%Z eqn:E.
    + apply Z.ltb_lt in E. destruct (IH x) as [Hin Hmax]. split.
      * right. exact Hin.
      * intros g [<-|Hg]; [|apply Hmax, Hg].
        etransitivity; [|apply Hmax; left; reflexivity]. lia.
    + apply Z.ltb_ge in E. destruct (IH best) as [Hin Hmax]. split.
      * destruct Hin as [<-|Hin]; [left; reflexivity | right; right; exact Hin].
      * intros g [<-|[<-|Hg]].
        -- apply Hmax. left. reflexivity.
        -- etransitivity; [exact E|]. apply Hmax. left. reflexivity.
        -- apply Hmax. right. exact Hg.
Qed.

(** [latest] picks a member that no member is newer than. *)
Lemma latest_spec (l : list file) (f : file) :
  latest l = Some f ->
  In f l /\ forall g, In g l -> (st_mtime g <= st_mtime f)%Z.
Proof.
  destruct l as [|x rest]; [discriminate|]. cbn [latest]. intros [= <-].
  apply latest_fold.
Qed.

Lemma latest_none (l : list file) : latest l = None <-> l = [].
Proof. destruct l; cbn [latest]; split; intros H; congruence. Qed.

Lemma is_audio_file_acceptable (f : file) :
  is_audio_file f = true -> acceptable_file f = true.
Proof.
  unfold is_audio_file, acceptable_file. intros H.
  apply andb_true_iff in H. destruct H as [H _]. exact H.
Qed.

Lemma recent_filter_In (now : Z) (dir : list file) (f : file) :
  In f (filter (fun f => is_file f = true
                         ∧ ext_in web_formats f = false
                         ∧ (now - 60 < st_mtime f)%Z) dir)
  <-> In f dir /\ acceptable_file f = true /\ (now - 60 < st_mtime f)%Z.
Proof.
  rewrite <- !list_elem_of_In, list_elem_of_filter. unfold acceptable_file.
  rewrite andb_true_iff, negb_true_iff. tauto.
Qed.

(** X7: the resolver only ever returns a regular file of the listing that
    is not a web page, a partial download or a temporary file. *)
Theorem find_downloaded_file_acceptable
    (dir : list file) (now : Z) (video_title : pystr) (f : file) :
  fst (_find_downloaded_file dir now video_title) = Some f ->
  In f dir /\ is_file f = true /\ ext_in web_formats f = false.
Proof.
  rewrite find_downloaded_file_result.
  assert (acceptable_file f = true -> is_file f = true /\ ext_in web_formats f = false) as Hacc.
  { unfold acceptable_file. rewrite andb_true_iff, negb_true_iff. tauto. }
  destruct (latest (List.filter is_audio_file dir)) as [a|] eqn:Ea.
  - intros [= ->]. apply latest_spec in Ea. destruct Ea as [Hin _].
    apply filter_In in Hin. destruct Hin as [Hin Ha].
    split; [exact Hin | apply Hacc, is_audio_file_acceptable, Ha].
  - intros Hr. apply latest_spec in Hr. destruct Hr as [Hin _].
    apply recent_filter_In in Hin. destruct Hin as (Hin & Ha & _).
    split; [exact Hin | apply Hacc, Ha].
Qed.

Lemma find_downloaded_file_acceptable_witness :
  In {| name := py "Old Song.mp3"; is_file := true; st_mtime := 10 |} sample_directory
  /\ is_file {| name := py "Old Song.mp3"; is_file := true; st_mtime := 10 |} = true
  /\ ext_in web_formats {| name := py "Old Song.mp3"; is_file := true; st_mtime := 10 |}
     = false.
Proof.
  apply (find_downloaded_file_acceptable sample_directory 1000 (py "New Song")).
  reflexivity.
Defined.

(** X8: as soon as the directory holds one regular non-web file with an
    audio extension, the resolver returns such a file, and none of them is
    newer than the one returned, however recent the other files are. *)
Theorem find_downloaded_file_prefers_audio
    (dir : list file) (now : Z) (video_title : pystr) (g : file) :
  In g dir -> is_audio_file g = true ->
  exists f,
    fst (_find_downloaded_file dir now video_title) = Some f
    /\ is_audio_file f = true
    /\ forall g', In g' dir -> is_audio_file g' = true ->
                  (st_mtime g' <= st_mtime f)%Z.
Proof.
  intros Hg Ha. rewrite find_downloaded_file_result.
  destruct (latest (List.filter is_audio_file dir)) as [a|] eqn:Ea.
  - exists a. apply latest_spec in Ea. destruct Ea as [Hin Hmax].
    apply filter_In in Hin. split; [reflexivity|]. split; [apply Hin|].
    intros g' Hg' Ha'. apply Hmax, filter_In. split; assumption.
  - apply latest_none in Ea.
    assert (In g (List.filter is_audio_file dir)) as Hin
      by (apply filter_In; split; assumption).
    rewrite Ea in Hin. destruct Hin.
Qed.

Lemma find_downloaded_file_prefers_audio_witness :
  exists f,
    fst (_find_downloaded_file sample_directory 1000 (py "New Song")) = Some f
    /\ is_audio_file f = true
    /\ forall g', In g' sample_directory -> is_audio_file g' = true ->
                  (st_mtime g' <= st_mtime f)%Z.
Proof.
  apply (find_downloaded_file_prefers_audio sample_directory 1000 (py "New Song")
           {| name := py "Old Song.mp3"; is_file := true; st_mtime := 10 |}).
  - left. reflexivity.
  - reflexivity.
Defined.

(** X9: resolution fails exactly when every regular non-web file of the
    listing lacks an audio extension and is at least 60 seconds old. *)
Theorem find_downloaded_file_fails_iff
    (dir : list file) (now : Z) (video_title : pystr) :
  fst (_find_downloaded_file dir now video_title) = None
  <-> forall g, In g dir -> acceptable_file g = true ->
        ext_in audio_extensions g = false /\ (st_mtime g <= now - 60)%Z.
Proof.
  rewrite find_downloaded_file_result. split.
  - intros H g Hg Hacc.
    destruct (latest (List.filter is_audio_file dir)) as [a|] eqn:Ea; [discriminate|].
    apply latest_none in Ea. apply latest_none in H.
    split.
    + destruct (ext_in audio_extensions g) eqn:E; [|reflexivity].
      assert (In g (List.filter is_audio_file dir)) as Hin.
      { apply filter_In. split; [exact Hg|]. unfold is_audio_file.
        unfold acceptable_file in Hacc. rewrite Hacc, E. reflexivity. }
      rewrite Ea in Hin. destruct Hin.
    + destruct (Z.le_gt_cases (st_mtime g) (now - 60)) as [Hle|Hgt]; [exact Hle|].
      assert (In g (filter (fun f => is_file f = true
                                     ∧ ext_in web_formats f = false
                                     ∧ (now - 60 < st_mtime f)%Z) dir)) as Hin
        by (apply recent_filter_In; repeat split; assumption).
      rewrite H in Hin. destruct Hin.
  - intros H.
    assert (List.filter is_audio_file dir = []) as Ea.
    { destruct (List.filter is_audio_file dir) as [|a l] eqn:E; [reflexivity|].
      assert (In a (List.filter is_audio_file dir)) as Hin by (rewrite E; left; reflexivity).
      apply filter_In in Hin. destruct Hin as [Hin Ha].
      destruct (H a Hin (is_audio_file_acceptable a Ha)) as [Hx _].
      unfold is_audio_file in Ha. rewrite Hx, andb_false_r in Ha. discriminate. }
    rewrite Ea. cbn [latest]. apply latest_none.
    match goal with |- ?l = [] => destruct l as [|a l'] eqn:E end; [reflexivity|].
    assert (In a (filter (fun f => is_file f = true
                                   ∧ ext_in web_formats f = false
                                   ∧ (now - 60 < st_mtime f)%Z) dir)) as Hin
      by (rewrite E; left; reflexivity).
    apply recent_filter_In in Hin. destruct Hin as (Hin & Ha & Ht).
    destruct (H a Hin Ha) as [_ Hold]. lia.
Qed.

Lemma find_downloaded_file_result_acceptable
    (dir : list file) (now : Z) (video_title : pystr) (f : file) :
  fst (_find_downloaded_file dir now video_title) = Some f ->
  In f dir /\ acceptable_file f = true.
Proof.
  rewrite find_downloaded_file_result.
  destruct (latest (List.filter is_audio_file dir)) as [a|] eqn:Ea.
  - intros [= ->]. apply latest_spec in Ea. destruct Ea as [Hin _].
    apply filter_In in Hin. destruct Hin as [Hin Ha].
    split; [exact Hin | apply is_audio_file_acceptable, Ha].
  - intros Hr. apply latest_spec in Hr. destruct Hr as [Hin _].
    apply recent_filter_In in Hin. destruct Hin as (Hin & Ha & _).
    split; assumption.
Qed.

End ResolverFacts.

(** * Further properties of the search cascade *)

Section CascadeFacts.
Import AppDownloader.
Variable w : ytdlp.
Variable preferred_filename : option pystr.

Lemma ydownloads_app (h1 h2 : list ycall) :
  ydownloads (h1 ++ h2) = ydownloads h1 ++ ydownloads h2.
Proof. unfold ydownloads. apply omap_app. Qed.

(** One variant: a search, then at most one download, of the audio entry
    the search returned. *)
Lemma attempt_spec (h : list ycall) (u : pystr) :
  match audio_entry (extract_info w h u) with
  | None => attempt w h u preferred_filename = (None, h ++ [YSearch u])
  | Some e =>
      snd (attempt w h u preferred_filename)
      = h ++ [YSearch u; YDownload (default [] (webpage_url e))
                              (outtmpl_of w preferred_filename e)]
      /\ forall p, fst (attempt w h u preferred_filename) = Some p -> resolved w p
  end.
Proof.
  unfold attempt, audio_entry, outtmpl_of, final_filename.
  destruct (extract_info w h u) as [[i|]|]; try reflexivity.
  destruct (entries i) as [[|[e|] es]|]; try reflexivity.
  destruct (filter _ (default [] (formats e))) as [|a fs]; [reflexivity|].
  set (fname := match preferred_filename with
                | Some (c :: p) => AppUtils.sanitize_filename (c :: p)
                | _ => AppUtils.sanitize_filename
                         (AppUtils.clean_track_title (default (py "Unknown") (title e)))
                end).
  assert (forall x, (h ++ [YSearch u]) ++ [x] = h ++ [YSearch u; x]) as Happ
    by (intros x; rewrite <- app_assoc; reflexivity).
  rewrite !Happ.
  destruct (download w (h ++ [YSearch u]) _ _) as [files|];
    [|split; [reflexivity | discriminate]].
  destruct (iterdir w _) as [listing|] eqn:Ei; [|split; [reflexivity | discriminate]].
  destruct (fst (_find_downloaded_file listing _ fname)) as [f|] eqn:Ef;
    [|split; [reflexivity | discriminate]].
  split; [reflexivity|]. cbn [fst]. intros p [= <-].
  apply find_downloaded_file_result_acceptable in Ef.
  exists (h ++ [YSearch u; YDownload (default [] (webpage_url e))
                               (path_join (download_path w) (fname ++ py ".%(ext)s"))]),
    listing, f.
  destruct Ef as [Hin Hacc]. repeat split; assumption.
Qed.

(** What the cascade adds to the call history. *)
Lemma try_variations_trace (urls : list pystr) :
  forall h,
  exists new,
    snd (try_variations w h urls preferred_filename) = h ++ new
    /\ (forall u o, In (u, o) (ydownloads new) ->
          exists hk su e,
            In su urls /\ audio_entry (extract_info w hk su) = Some e
            /\ u = default [] (webpage_url e)
            /\ o = outtmpl_of w preferred_filename e)
    /\ length (ydownloads new) <= length (searches new)
    /\ (forall p, fst (try_variations w h urls preferred_filename) = Some p ->
          resolved w p).
Proof.
  induction urls as [|su urls IH]; intros h; cbn [try_variations].
  - exists []. rewrite app_nil_r. repeat split; cbn; try tauto; try lia. discriminate.
  - pose proof (attempt_spec h su) as Ha.
    destruct (audio_entry (extract_info w h su)) as [e|] eqn:Ee.
    + destruct Ha as [Hs Hres].
      destruct (attempt w h su preferred_filename) as [[p|] h'] eqn:Eat;
        cbn [fst snd] in Hs, Hres; subst h'.
      * eexists. split; [reflexivity|]. split; [|split].
        -- cbn. intros u o [[= <- <-]|[]]. exists h, su, e.
           repeat split; try assumption. left. reflexivity.
        -- cbn. lia.
        -- intros p' [= <-]. apply Hres. reflexivity.
      * destruct (IH (h ++ [YSearch su; YDownload (default [] (webpage_url e))
                                          (outtmpl_of w preferred_filename e)]))
          as (new & Hn & Hd & Hc & Hr).
        exists ([YSearch su; YDownload (default [] (webpage_url e))
                          (outtmpl_of w preferred_filename e)] ++ new).
        rewrite Hn, <- app_assoc. split; [reflexivity|]. split; [|split].
        -- rewrite ydownloads_app. intros u o Hin. apply in_app_or in Hin.
           destruct Hin as [Hin|Hin].
           ++ cbn in Hin. destruct Hin as [[= <- <-]|[]]. exists h, su, e.
              repeat split; try assumption. left. reflexivity.
           ++ destruct (Hd u o Hin) as (hk & su' & e' & Hsu & He & Hu & Ho).
              exists hk, su', e'. repeat split; try assumption. right. exact Hsu.
        -- rewrite ydownloads_app, searches_app, !length_app. cbn. lia.
        -- exact Hr.
    + rewrite Ha.
      destruct (IH (h ++ [YSearch su])) as (new & Hn & Hd & Hc & Hr).
      exists ([YSearch su] ++ new). rewrite Hn, <- app_assoc.
      split; [reflexivity|]. split; [|split].
      * cbn. intros u o Hin. destruct (Hd u o Hin) as (hk & su' & e' & Hsu & He & Hu & Ho).
        exists hk, su', e'. repeat split; try assumption. right. exact Hsu.
      * rewrite ydownloads_app, searches_app, !length_app. cbn. lia.
      * exact Hr.
Qed.

(** The name part of every output template is a sanitized name. *)
Lemma final_filename_safe (e : entry) :
  final_filename preferred_filename e <> []
  /\ reserved_free (final_filename preferred_filename e) = true.
Proof.
  unfold final_filename.
  destruct preferred_filename as [[|c p]|];
    match goal with |- context [AppUtils.sanitize_filename ?x] =>
      destruct (sanitize_filename_props x) as (H1 & H2 & _) end;
    split; assumption.
Qed.

End CascadeFacts.


(** X11: every download of [search_and_download] is written into the
    download directory under a non-empty name without reserved characters;
    with a preferred file name, it is that name sanitized, whatever the
    title of the video found. *)
Theorem search_and_download_output_names
    (w : ytdlp) (h : list ycall) (q : pystr) (preferred_filename : option pystr) :
  exists new,
    snd (AppDownloader.search_and_download w h q preferred_filename) = h ++ new
    /\ forall u o, In (u, o) (ydownloads new) ->
         exists n,
           o = path_join (download_path w) (n ++ py ".%(ext)s")
           /\ n <> [] /\ reserved_free n = true
           /\ (forall c p, preferred_filename = Some (c :: p) ->
                 n = AppUtils.sanitize_filename (c :: p)).
Proof.
  destruct (try_variations_trace w preferred_filename
              (AppDownloader.search_variations q) h) as (new & Hn & Hd & _).
  exists new. split; [exact Hn|].
  intros u o Hin. destruct (Hd u o Hin) as (hk & su & e & _ & _ & _ & Ho).
  exists (final_filename preferred_filename e).
  destruct (final_filename_safe preferred_filename e) as [H1 H2].
  split; [exact Ho|]. split; [exact H1|]. split; [exact H2|].
  intros c p ->. reflexivity.
Qed.

(** X12: a path returned by [search_and_download] always names, inside the
    download directory, a regular file that some listing of that directory
    contained and that is not a web page or temporary file. *)
Theorem search_and_download_result_listed
    (w : ytdlp) (h : list ycall) (q : pystr) (preferred_filename : option pystr)
    (p : pystr) :
  fst (AppDownloader.search_and_download w h q preferred_filename) = Some p ->
  exists hk files f,
    iterdir w hk = Returned files /\ In f files
    /\ is_file f = true
    /\ AppDownloader.ext_in AppDownloader.web_formats f = false
    /\ p = path_join (download_path w) (name f).
Proof.
  intros Hp.
  destruct (try_variations_trace w preferred_filename
              (AppDownloader.search_variations q) h) as (new & _ & _ & _ & Hr).
  destruct (Hr p Hp) as (hk & files & f & Hi & Hin & Hacc & Hpath).
  exists hk, files, f. unfold acceptable_file in Hacc.
  apply andb_true_iff in Hacc. destruct Hacc as [Hf Hw]. apply negb_true_iff in Hw.
  repeat split; assumption.
Qed.

Lemma search_and_download_result_listed_witness :
  exists hk files f,
    iterdir audio_variant_world hk = Returned files /\ In f files
    /\ is_file f = true
    /\ AppDownloader.ext_in AppDownloader.web_formats f = false
    /\ py "downloads/Artist - Song.mp3" = path_join (download_path audio_variant_world) (name f).
Proof.
  apply (search_and_download_result_listed audio_variant_world [] (py "Artist - Song")
           (Some (py "Artist - Song"))).
  reflexivity.
Defined.

(** * Further facts about the watchers *)

Section TraceFacts.
Variable ok : list wcall -> pystr -> option pystr -> Prop.
Variable base : list wcall.

Lemma removals_follow_base : removals_follow_downloads ok base base.
Proof.
  intros pre u post E Hl. apply (f_equal length) in E.
  rewrite length_app in E. cbn in E. lia.
Qed.

Lemma removals_follow_snoc (h : list wcall) (c : wcall) :
  removals_follow_downloads ok base h ->
  (forall u, c <> WRemove u) ->
  removals_follow_downloads ok base (h ++ [c]).
Proof.
  intros Hh Hc pre u post E Hl.
  destruct post as [|x post _] using rev_ind.
  - apply app_inj_tail in E. destruct E as [_ E]. exfalso. exact (Hc u E).
  - rewrite app_comm_cons, app_assoc in E. apply app_inj_tail in E.
    destruct E as [E _]. exact (Hh pre u post E Hl).
Qed.

Lemma removals_follow_remove (h : list wcall) (q : pystr) (f : option pystr) (u : string) :
  removals_follow_downloads ok base h -> ok h q f ->
  removals_follow_downloads ok base ((h ++ [WDownload q f]) ++ [WRemove u]).
Proof.
  intros Hh Hok pre u' post E Hl.
  destruct post as [|x post _] using rev_ind.
  - apply app_inj_tail in E. destruct E as [E _]. exists h, q, f.
    split; [symmetry; exact E | exact Hok].
  - rewrite app_comm_cons, app_assoc in E. apply app_inj_tail in E.
    destruct E as [E _].
    refine (removals_follow_snoc h (WDownload q f) Hh _ pre u' post E Hl).
    discriminate.
Qed.

End TraceFacts.

Section AppSyncFacts.
Import App.
Variable w : services.

Lemma collect_page_invariant (its : list item) :
  forall tracks,
    map playlist_position tracks = seq 0 (length tracks) ->
    Forall well_identified tracks ->
    let tracks' :=
      fold_left
        (fun acc it =>
           match listed_track it with
           | Some (t, i) =>
               acc ++ [ {| track_info := t; track_id := i;
                           td_added_at := added_at it;
                           playlist_position := length acc |} ]
           | None => acc
           end) its tracks in
    map playlist_position tracks' = seq 0 (length tracks')
    /\ Forall well_identified tracks'.
Proof.
  induction its as [|it its IH]; intros tracks Hp Hw; cbn [fold_left]; [split; assumption|].
  apply IH.
  - destruct (listed_track it) as [[t i]|]; [|exact Hp].
    rewrite map_app, length_app, Hp. cbn [map length playlist_position].
    rewrite Nat.add_1_r, seq_S. reflexivity.
  - destruct (listed_track it) as [[t i]|] eqn:El; [|exact Hw].
    apply Forall_app. split; [exact Hw|]. apply Forall_singleton.
    unfold listed_track in El.
    destruct (item_track it) as [t'|]; [|discriminate].
    destruct (tr_id t') as [i'|] eqn:Ei; [|discriminate].
    destruct (bool_decide (i' = ""%string)) eqn:Eb; [discriminate|].
    injection El as <- <-. apply bool_decide_eq_false in Eb.
    split; [exact Ei | exact Eb].
Qed.

Lemma collect_invariant (pages : list (outcome page)) :
  forall tracks res,
    collect pages tracks = Some res ->
    map playlist_position tracks = seq 0 (length tracks) ->
    Forall well_identified tracks ->
    map playlist_position res = seq 0 (length res) /\ Forall well_identified res.
Proof.
  induction pages as [|[results|] pages IH]; intros tracks res E Hp Hw; cbn [collect] in E.
  - injection E as <-. split; assumption.
  - destruct (collect_page_invariant (items results) tracks Hp Hw) as [Hp' Hw'].
    cbn zeta in Hp', Hw'.
    destruct (next results).
    + exact (IH _ _ E Hp' Hw').
    + injection E as <-. split; assumption.
  - discriminate.
Qed.

Lemma collect_raised (pre : list page) (rest : list (outcome page)) :
  Forall (fun p => next p = true) pre ->
  forall tracks, collect (map Returned pre ++ Raised :: rest) tracks = None.
Proof.
  induction 1 as [|p pre Hp _ IH]; intros tracks; cbn [map app collect]; [reflexivity|].
  rewrite Hp. apply IH.
Qed.

Lemma sync_playlist_unfold σ :
  sync_playlist w σ
  = process_all w (snd (get_playlist_tracks w σ)) (pending w σ)
      {| new_tracks := length (pending w σ); downloaded := 0; failed := 0 |}.
Proof.
  unfold sync_playlist, pending. destruct (spotify_client σ) eqn:Ec.
  - unfold get_new_tracks.
    pose proof (get_playlist_tracks_state w σ) as [Hp _].
    destruct (get_playlist_tracks w σ) as [all σ1]. cbn [fst snd] in *.
    assert (filter (is_new σ1) all
            = filter (fun td => track_id td ∉ processed_tracks σ) all) as ->.
    { apply list_filter_iff. intros td. unfold is_new. rewrite Hp. reflexivity. }
    destruct (filter _ all) as [|td tds]; reflexivity.
  - unfold get_playlist_tracks. rewrite Ec. reflexivity.
Qed.

Lemma process_all_stats tds :
  forall σ st,
    new_tracks (fst (process_all w σ tds st)) = new_tracks st
    /\ downloaded (fst (process_all w σ tds st)) + failed (fst (process_all w σ tds st))
       = downloaded st + failed st + length tds.
Proof.
  induction tds as [|td tds IH]; intros σ st; cbn [process_all length fst].
  - split; [reflexivity | lia].
  - destruct (process_track w σ td) as [[] σ'];
      match goal with |- context [process_all w σ' tds ?s] =>
        destruct (IH σ' s) as [H1 H2] end;
      cbn [new_tracks downloaded failed] in H1, H2; split; [exact H1 | lia | exact H1 | lia].
Qed.

Lemma process_track_processed_bound σ td :
  processed_tracks (snd (process_track w σ td)) ⊆ {[ track_id td ]} ∪ processed_tracks σ.
Proof.
  unfold process_track.
  destruct (search_and_download w (trace σ) _ _).
  - pose proof (remove_track_from_playlist_state w
                  (log (WDownload (AppUtils.format_search_query (track_info td))
                          (Some (spotify_filename (track_info td)))) σ)
                  (track_id td)) as (Hp & _ & _).
    destruct (remove_track_from_playlist w _ (track_id td)) as [[] σ2];
      cbn [snd add_processed processed_tracks log] in *; rewrite Hp; set_solver.
  - cbn [snd add_processed processed_tracks log]. set_solver.
Qed.

Lemma process_all_processed_bound tds :
  forall σ st i,
    i ∈ processed_tracks (snd (process_all w σ tds st)) ->
    i ∈ processed_tracks σ ∨ i ∈ track_id <$> tds.
Proof.
  induction tds as [|td tds IH]; intros σ st i; cbn [process_all snd]; [tauto|].
  pose proof (process_track_processed_bound σ td) as H.
  destruct (process_track w σ td) as [ok σ']. cbn [snd] in H.
  intros Hi. apply IH in Hi. rewrite fmap_cons. set_solver.
Qed.

Lemma process_track_removals base σ td :
  removals_follow_downloads (fun h q f => search_and_download w h q f <> None)
    base (trace σ) ->
  removals_follow_downloads (fun h q f => search_and_download w h q f <> None)
    base (trace (snd (process_track w σ td))).
Proof.
  intros H. unfold process_track.
  destruct (search_and_download w (trace σ) _ _) as [p|] eqn:E.
  - unfold remove_track_from_playlist. cbn [log spotify_client trace].
    destruct (spotify_client σ).
    + destruct (playlist_remove_all_occurrences_of_items w _ _);
        cbn [snd add_processed trace log];
        (apply removals_follow_remove; [exact H | rewrite E; discriminate]).
    + cbn [snd trace log]. apply removals_follow_snoc; [exact H | discriminate].
  - cbn [snd add_processed trace log]. apply removals_follow_snoc; [exact H | discriminate].
Qed.

Lemma process_all_removals base tds :
  forall σ st,
    removals_follow_downloads (fun h q f => search_and_download w h q f <> None)
      base (trace σ) ->
    removals_follow_downloads (fun h q f => search_and_download w h q f <> None)
      base (trace (snd (process_all w σ tds st))).
Proof.
  induction tds as [|td tds IH]; intros σ st H; cbn [process_all]; [exact H|].
  pose proof (process_track_removals base σ td H) as H'.
  destruct (process_track w σ td) as [ok σ']. apply IH. exact H'.
Qed.

Lemma get_playlist_tracks_removals σ :
  removals_follow_downloads (fun h q f => search_and_download w h q f <> None)
    (trace σ) (trace (snd (get_playlist_tracks w σ))).
Proof.
  unfold get_playlist_tracks. destruct (spotify_client σ); cbn [snd log trace].
  - apply removals_follow_snoc; [apply removals_follow_base | discriminate].
  - apply removals_follow_base.
Qed.

End AppSyncFacts.

(** X13: the tracks returned by [get_playlist_tracks] are numbered 0, 1, 2,
    ... in the order returned, skipped items leaving no gap, and each one
    carries the non-empty id of its track object. *)
Theorem get_playlist_tracks_positions (w : App.services) (σ : App.state) :
  let tracks := fst (App.get_playlist_tracks w σ) in
  map App.playlist_position tracks = seq 0 (length tracks)
  /\ Forall well_identified tracks.
Proof.
  unfold App.get_playlist_tracks. destruct (App.spotify_client σ); cbn [fst].
  - destruct (App.collect (App.playlist_pages w (App.trace σ)) []) as [res|] eqn:E;
      cbn [default].
    + apply (collect_invariant _ [] res E); [reflexivity | constructor].
    + split; [reflexivity | constructor].
  - split; [reflexivity | constructor].
Qed.

(** X14: the statistics of [sync_playlist] add up: every track counted as
    new is counted as downloaded or as failed, and the tracks counted as new
    are the fetched tracks whose id is not in [processed_tracks]. *)
Theorem sync_playlist_stats_add_up (w : App.services) (σ : App.state) :
  let st := fst (App.sync_playlist w σ) in
  App.downloaded st + App.failed st = App.new_tracks st
  /\ App.new_tracks st = length (pending w σ).
Proof.
  cbn zeta. rewrite sync_playlist_unfold.
  destruct (process_all_stats w (pending w σ) (snd (App.get_playlist_tracks w σ))
              {| App.new_tracks := length (pending w σ);
                 App.downloaded := 0; App.failed := 0 |}) as [H1 H2].
  cbn [App.new_tracks App.downloaded App.failed] in H1, H2.
  split; [rewrite H1, H2; reflexivity | exact H1].
Qed.

(** X15: [sync_playlist] never forgets a processed id and only adds ids of
    fetched tracks that were not yet processed. *)
Theorem sync_playlist_processed_growth (w : App.services) (σ : App.state) :
  let σ' := snd (App.sync_playlist w σ) in
  App.processed_tracks σ ⊆ App.processed_tracks σ'
  /\ (forall i, i ∈ App.processed_tracks σ' ->
        i ∈ App.processed_tracks σ ∨ i ∈ App.track_id <$> pending w σ).
Proof.
  cbn zeta. rewrite sync_playlist_unfold.
  pose proof (get_playlist_tracks_state w σ) as [Hp _]. cbn zeta in Hp.
  split.
  - rewrite <- Hp. apply process_all_processed_mono.
  - intros i Hi. apply process_all_processed_bound in Hi. rewrite Hp in Hi. exact Hi.
Qed.

(** X16: during [sync_playlist] a track is removed from the playlist only
    directly after a downloader call that returned a file: every removal
    call of the sync is preceded, with nothing in between, by a download call
    whose answer was not [None]. *)
Theorem sync_playlist_removes_after_download
    (w : App.services) (σ : App.state) (pre : list wcall) (u : string)
    (post : list wcall) :
  App.trace (snd (App.sync_playlist w σ)) = pre ++ WRemove u :: post ->
  length (App.trace σ) <= length pre ->
  exists pre' q f,
    pre = pre' ++ [WDownload q f] /\ App.search_and_download w pre' q f <> None.
Proof.
  rewrite sync_playlist_unfold. intros E Hl.
  exact (process_all_removals w (App.trace σ) (pending w σ) _ _
           (get_playlist_tracks_removals w σ) pre u post E Hl).
Qed.

Lemma sync_playlist_removes_after_download_witness :
  exists pre' q f,
    [WFetch; WDownload (fst (download_args the_song_app)) (snd (download_args the_song_app))]
    = pre' ++ [WDownload q f]
    /\ App.search_and_download (app_world [the_song] always_found (Returned tt)) pre' q f
       <> None.
Proof.
  apply (sync_playlist_removes_after_download
           (app_world [the_song] always_found (Returned tt)) app_start
           [WFetch; WDownload (fst (download_args the_song_app))
                              (snd (download_args the_song_app))]
           "spotify:track:t1"%string []).
  - reflexivity.
  - cbn. lia.
Defined.

(** X17: when a request for a page of the playlist raises, the tracks of the
    pages already read are dropped: [sync_playlist] reports no new track,
    downloads nothing and leaves [processed_tracks] as it was. *)
Theorem sync_playlist_failed_fetch
    (w : App.services) (σ : App.state) (pre : list page) (rest : list (outcome page)) :
  App.spotify_client σ = true ->
  App.playlist_pages w (App.trace σ) = map Returned pre ++ Raised :: rest ->
  Forall (fun p => next p = true) pre ->
  App.sync_playlist w σ = (App.zero_stats, App.log WFetch σ).
Proof.
  intros Hc Hp Hn. rewrite sync_playlist_unfold. unfold pending, App.get_playlist_tracks.
  rewrite Hc, Hp, (collect_raised pre rest Hn). reflexivity.
Qed.

Lemma sync_playlist_failed_fetch_witness :
  App.sync_playlist app_broken_world app_start = (App.zero_stats, App.log WFetch app_start).
Proof.
  apply (sync_playlist_failed_fetch app_broken_world app_start
           [ {| items := [the_song]; next := true |} ] []).
  - reflexivity.
  - reflexivity.
  - repeat constructor.
Defined.

Section AudioFetcherSyncFacts.
Import AudioFetcher.
Variable w : services.

Lemma af_collect_raised (pre : list page) (rest : list (outcome page)) :
  Forall (fun p => next p = true /\ items p <> []) pre ->
  forall tracks, collect (map Returned pre ++ Raised :: rest) tracks = None.
Proof.
  induction 1 as [|p pre [Hn Hi] _ IH]; intros tracks; cbn [map app collect]; [reflexivity|].
  destruct (items p) as [|it its]; [congruence|]. rewrite Hn. apply IH.
Qed.

Lemma check_playlist_unfold σ :
  check_playlist_for_new_tracks w σ
  = match af_pending w σ with
    | [] => snd (get_playlist_tracks w σ)
    | _ :: _ =>
        let σ2 := process_all w (snd (get_playlist_tracks w σ)) (af_pending w σ) in
        set_last_check (now w (trace σ2)) σ2
    end.
Proof.
  unfold check_playlist_for_new_tracks, af_pending. destruct (spotify_client σ) eqn:Ec.
  - pose proof (af_get_playlist_tracks_state w σ) as (Hp & Hf & _).
    destruct (get_playlist_tracks w σ) as [all σ1]. cbn [fst snd] in *.
    assert (filter (is_new σ1) all
            = filter (fun t => (t_id t ∉ processed_tracks σ) ∧ (t_id t ∉ failed_tracks σ)) all)
      as ->.
    { apply list_filter_iff. intros t. unfold is_new. rewrite Hp, Hf. reflexivity. }
    destruct all as [|t0 all0] eqn:Ea; [reflexivity|]. rewrite <- Ea.
    destruct (filter _ all) as [|t ts]; reflexivity.
  - unfold get_playlist_tracks. rewrite Ec. reflexivity.
Qed.

Lemma af_process_all_covers ts :
  forall σ t, t ∈ ts ->
    t_id t ∈ processed_tracks (process_all w σ ts)
    ∨ t_id t ∈ failed_tracks (process_all w σ ts).
Proof.
  induction ts as [|t0 ts IH]; intros σ t Ht; [inversion Ht|].
  cbn [process_all]. apply elem_of_cons in Ht. destruct Ht as [->|Ht]; [|apply IH, Ht].
  pose proof (af_process_track_spec w σ t0) as H.
  destruct (process_track w σ t0) as [ok σ']. destruct H as [_ H]. cbn [snd].
  destruct (af_process_all_sets w ts σ') as (Mp & Mf & _ & _).
  destruct (search_and_download w (trace σ) (query_of t0)); destruct H as (_ & Hp & Hf).
  - left. apply Mp. rewrite Hp. set_solver.
  - right. apply Mf. rewrite Hf. set_solver.
Qed.

Lemma af_process_track_removals base σ t :
  removals_follow_downloads (fun h q _ => search_and_download w h q <> None)
    base (trace σ) ->
  removals_follow_downloads (fun h q _ => search_and_download w h q <> None)
    base (trace (snd (process_track w σ t))).
Proof.
  intros H. unfold process_track.
  destruct (search_and_download w (trace σ) _) as [p|] eqn:E.
  - unfold remove_track_from_playlist. cbn [log spotify_client trace].
    destruct (spotify_client σ).
    + destruct (playlist_remove_all_occurrences_of_items w _ _);
        cbn [snd add_processed trace log];
        (apply removals_follow_remove; [exact H | rewrite E; discriminate]).
    + cbn [snd add_processed trace log]. apply removals_follow_snoc; [exact H | discriminate].
  - cbn [snd add_failed trace log]. apply removals_follow_snoc; [exact H | discriminate].
Qed.

Lemma af_process_all_removals base ts :
  forall σ,
    removals_follow_downloads (fun h q _ => search_and_download w h q <> None)
      base (trace σ) ->
    removals_follow_downloads (fun h q _ => search_and_download w h q <> None)
      base (trace (process_all w σ ts)).
Proof.
  induction ts as [|t ts IH]; intros σ H; cbn [process_all]; [exact H|].
  apply IH, af_process_track_removals, H.
Qed.

Lemma af_get_playlist_tracks_removals σ :
  removals_follow_downloads (fun h q _ => search_and_download w h q <> None)
    (trace σ) (trace (snd (get_playlist_tracks w σ))).
Proof.
  unfold get_playlist_tracks. destruct (spotify_client σ); cbn [snd log trace].
  - apply removals_follow_snoc; [apply removals_follow_base | discriminate].
  - apply removals_follow_base.
Qed.

Lemma cleanup_keeps_fetch σ :
  fst (get_playlist_tracks w (cleanup_processed_tracks σ)) = fst (get_playlist_tracks w σ)
  /\ trace (cleanup_processed_tracks σ) = trace σ.
Proof.
  assert (spotify_client (cleanup_processed_tracks σ) = spotify_client σ
          /\ trace (cleanup_processed_tracks σ) = trace σ) as [Hc Ht].
  { unfold cleanup_processed_tracks.
    destruct (1000 <? size (processed_tracks σ));
      match goal with |- context [if ?b then _ else _] => destruct b end;
      split; reflexivity. }
  split; [|exact Ht].
  unfold get_playlist_tracks. rewrite Hc, Ht. destruct (spotify_client σ); reflexivity.
Qed.

End AudioFetcherSyncFacts.

(** X18: after [check_playlist_for_new_tracks] no fetched track is new any
    more: the id of every track of the fetched playlist is in
    [processed_tracks] or in [failed_tracks]. *)
Theorem check_playlist_leaves_nothing_new
    (w : AudioFetcher.services) (σ : AudioFetcher.state) (t : AudioFetcher.track) :
  t ∈ fst (AudioFetcher.get_playlist_tracks w σ) ->
  ~ AudioFetcher.is_new (AudioFetcher.check_playlist_for_new_tracks w σ) t.
Proof.
  intros Ht [Hnp Hnf]. rewrite check_playlist_unfold in Hnp, Hnf.
  pose proof (af_get_playlist_tracks_state w σ) as (Hp & Hf & _). cbn zeta in Hp, Hf.
  destruct (decide ((AudioFetcher.t_id t ∉ AudioFetcher.processed_tracks σ)
                    ∧ (AudioFetcher.t_id t ∉ AudioFetcher.failed_tracks σ))) as [Hnew|Hold].
  - assert (t ∈ af_pending w σ) as Hin
      by (unfold af_pending; apply list_elem_of_filter; split; assumption).
    destruct (af_pending w σ) as [|t0 ts] eqn:Ea; [inversion Hin|].
    cbn zeta in Hnp, Hnf.
    cbn [AudioFetcher.set_last_check AudioFetcher.processed_tracks
         AudioFetcher.failed_tracks] in Hnp, Hnf.
    destruct (af_process_all_covers w (t0 :: ts)
                (snd (AudioFetcher.get_playlist_tracks w σ)) t Hin); tauto.
  - destruct (af_process_all_sets w (af_pending w σ)
                (snd (AudioFetcher.get_playlist_tracks w σ))) as (Mp & Mf & _ & _).
    rewrite Hp in Mp. rewrite Hf in Mf.
    destruct (af_pending w σ) as [|t0 ts] eqn:Ea.
    + rewrite Hp in Hnp. rewrite Hf in Hnf. tauto.
    + cbn zeta in Hnp, Hnf.
      cbn [AudioFetcher.set_last_check AudioFetcher.processed_tracks
           AudioFetcher.failed_tracks] in Hnp, Hnf.
      apply Hold. split; intros Hi; [apply Hnp, Mp, Hi | apply Hnf, Mf, Hi].
Qed.

Lemma check_playlist_leaves_nothing_new_witness :
  ~ AudioFetcher.is_new
      (AudioFetcher.check_playlist_for_new_tracks
         (af_world two_songs found_once (Returned tt)) af_start)
      the_song_af.
Proof.
  apply (check_playlist_leaves_nothing_new
           (af_world two_songs found_once (Returned tt)) af_start the_song_af).
  cbn. left.
Defined.

(** X19: [check_playlist_for_new_tracks] sets [last_check] to the time at
    the end of the check exactly when it processed at least one new track; a
    check that finds nothing new, or cannot fetch the playlist, leaves
    [last_check] as it was. *)
Theorem check_playlist_last_check (w : AudioFetcher.services) (σ : AudioFetcher.state) :
  let σ' := AudioFetcher.check_playlist_for_new_tracks w σ in
  AudioFetcher.last_check σ'
  = match af_pending w σ with
    | [] => AudioFetcher.last_check σ
    | _ :: _ => Some (AudioFetcher.now w (AudioFetcher.trace σ'))
    end.
Proof.
  cbn zeta. rewrite check_playlist_unfold.
  destruct (af_pending w σ) as [|t ts]; [|reflexivity].
  unfold AudioFetcher.get_playlist_tracks.
  destruct (AudioFetcher.spotify_client σ); reflexivity.
Qed.

(** X20: [retry_failed_tracks] only retries what is still in the playlist:
    a failed id that no fetched track carries stays in [failed_tracks]. *)
Theorem retry_keeps_absent_failed_ids
    (w : AudioFetcher.services) (σ : AudioFetcher.state) (i : string) :
  i ∈ AudioFetcher.failed_tracks σ ->
  i ∉ AudioFetcher.t_id <$> fst (AudioFetcher.get_playlist_tracks w σ) ->
  i ∈ AudioFetcher.failed_tracks (AudioFetcher.retry_failed_tracks w σ).
Proof.
  intros Hi Hn.
  destruct (retry_failed_tracks_unfold w σ) as (σ2 & -> & _ & _ & Hf).
  destruct (af_process_all_sets w (retried w σ) σ2) as (_ & Mf & _ & _).
  apply Mf, Hf. split; [exact Hi|].
  intros Hin. apply Hn. apply list_elem_of_fmap in Hin.
  destruct Hin as (t & -> & Ht). unfold retried in Ht.
  apply list_elem_of_filter in Ht. apply list_elem_of_fmap_2, Ht.
Qed.

Lemma retry_keeps_absent_failed_ids_witness :
  "t9"%string
  ∈ AudioFetcher.failed_tracks
      (AudioFetcher.retry_failed_tracks
         (af_world two_songs always_found (Returned tt)) af_stale_failed).
Proof.
  apply (retry_keeps_absent_failed_ids
           (af_world two_songs always_found (Returned tt)) af_stale_failed "t9"%string).
  - cbn. apply elem_of_singleton. reflexivity.
  - cbn. intros H. apply elem_of_cons in H. destruct H as [H|H]; [discriminate H|].
    apply list_elem_of_singleton in H. discriminate H.
Defined.

(** X21: after [cleanup_processed_tracks] the registry is bounded: at most
    1000 processed ids and at most 100 failed ids.  A set within its bound
    is kept as it is, a set beyond it is emptied. *)
Theorem cleanup_bounds_the_registry (σ : AudioFetcher.state) :
  let σ' := AudioFetcher.cleanup_processed_tracks σ in
  size (AudioFetcher.processed_tracks σ') <= 1000
  /\ size (AudioFetcher.failed_tracks σ') <= 100
  /\ AudioFetcher.processed_tracks σ'
     = (if 1000 <? size (AudioFetcher.processed_tracks σ)
        then ∅ else AudioFetcher.processed_tracks σ)
  /\ AudioFetcher.failed_tracks σ'
     = (if 100 <? size (AudioFetcher.failed_tracks σ)
        then ∅ else AudioFetcher.failed_tracks σ).
Proof.
  cbn zeta. unfold AudioFetcher.cleanup_processed_tracks.
  destruct (1000 <? size (AudioFetcher.processed_tracks σ)) eqn:E1;
    cbn [AudioFetcher.clear_processed AudioFetcher.processed_tracks
         AudioFetcher.failed_tracks];
    destruct (100 <? size (AudioFetcher.failed_tracks σ)) eqn:E2;
    cbn [AudioFetcher.clear_processed AudioFetcher.clear_failed
         AudioFetcher.processed_tracks AudioFetcher.failed_tracks];
    rewrite ?size_empty;
    try apply Nat.ltb_ge in E1; try apply Nat.ltb_ge in E2;
    repeat split; lia.
Qed.

(** X22: during [check_playlist_for_new_tracks] a track is removed from the
    playlist only directly after a downloader call that returned a file. *)
Theorem check_playlist_removes_after_download
    (w : AudioFetcher.services) (σ : AudioFetcher.state) (pre : list wcall)
    (u : string) (post : list wcall) :
  AudioFetcher.trace (AudioFetcher.check_playlist_for_new_tracks w σ)
  = pre ++ WRemove u :: post ->
  length (AudioFetcher.trace σ) <= length pre ->
  exists pre' q f,
    pre = pre' ++ [WDownload q f] /\ AudioFetcher.search_and_download w pre' q <> None.
Proof.
  rewrite check_playlist_unfold. intros E Hl.
  assert (removals_follow_downloads
            (fun h q _ => AudioFetcher.search_and_download w h q <> None)
            (AudioFetcher.trace σ)
            (AudioFetcher.trace
               (AudioFetcher.process_all w (snd (AudioFetcher.get_playlist_tracks w σ))
                  (af_pending w σ)))) as H
    by apply af_process_all_removals, af_get_playlist_tracks_removals.
  destruct (af_pending w σ) as [|t ts]; exact (H pre u post E Hl).
Qed.

Lemma check_playlist_removes_after_download_witness :
  exists pre' q f,
    [WFetch; WDownload (query_of the_song_af) None] = pre' ++ [WDownload q f]
    /\ AudioFetcher.search_and_download (af_world [the_song] always_found (Returned tt))
         pre' q <> None.
Proof.
  apply (check_playlist_removes_after_download
           (af_world [the_song] always_found (Returned tt)) af_start
           [WFetch; WDownload (query_of the_song_af) None]
           "spotify:track:t1"%string []).
  - reflexivity.
  - cbn. lia.
Defined.

(** X23: when a request for a page of the playlist raises, the tracks of the
    pages already read are dropped: [check_playlist_for_new_tracks] only
    logs the fetch, and the registry and [last_check] stay as they were. *)
Theorem check_playlist_failed_fetch
    (w : AudioFetcher.services) (σ : AudioFetcher.state) (pre : list page)
    (rest : list (outcome page)) :
  AudioFetcher.spotify_client σ = true ->
  AudioFetcher.playlist_pages w (AudioFetcher.trace σ) = map Returned pre ++ Raised :: rest ->
  Forall (fun p => next p = true /\ items p <> []) pre ->
  AudioFetcher.check_playlist_for_new_tracks w σ = AudioFetcher.log WFetch σ.
Proof.
  intros Hc Hp Hn. rewrite check_playlist_unfold.
  unfold af_pending, AudioFetcher.get_playlist_tracks.
  rewrite Hc, Hp, (af_collect_raised pre rest Hn). reflexivity.
Qed.

Lemma check_playlist_failed_fetch_witness :
  AudioFetcher.check_playlist_for_new_tracks af_broken_world af_start
  = AudioFetcher.log WFetch af_start.
Proof.
  apply (check_playlist_failed_fetch af_broken_world af_start
           [ {| items := [the_song]; next := true |} ] []).
  - reflexivity.
  - reflexivity.
  - repeat constructor. discriminate.
Defined.

(** X24: eviction makes the watcher start over: once [processed_tracks]
    holds more than 1000 ids, [cleanup_processed_tracks] followed by
    [check_playlist_for_new_tracks] calls the downloader again for every
    fetched track that has not failed, processed before or not. *)
Theorem cleanup_then_check_downloads_again
    (w : AudioFetcher.services) (σ : AudioFetcher.state) :
  1000 < size (AudioFetcher.processed_tracks σ) ->
  size (AudioFetcher.failed_tracks σ) <= 100 ->
  downloads (AudioFetcher.trace
               (AudioFetcher.check_playlist_for_new_tracks w
                  (AudioFetcher.cleanup_processed_tracks σ)))
  = downloads (AudioFetcher.trace σ)
    ++ map (fun t => (query_of t, None))
         (filter (fun t => AudioFetcher.t_id t ∉ AudioFetcher.failed_tracks σ)
                 (fst (AudioFetcher.get_playlist_tracks w σ))).
Proof.
  intros H1 H2. rewrite check_playlist_downloads.
  destruct (cleanup_keeps_fetch w σ) as [-> ->].
  assert (AudioFetcher.processed_tracks (AudioFetcher.cleanup_processed_tracks σ) = ∅
          /\ AudioFetcher.failed_tracks (AudioFetcher.cleanup_processed_tracks σ)
             = AudioFetcher.failed_tracks σ) as [-> ->].
  { unfold AudioFetcher.cleanup_processed_tracks.
    apply Nat.ltb_lt in H1. rewrite H1.
    cbn [AudioFetcher.clear_processed AudioFetcher.failed_tracks].
    apply Nat.ltb_ge in H2. rewrite H2. split; reflexivity. }
  f_equal. f_equal. apply list_filter_iff. intros t. set_solver.
Qed.

Lemma cleanup_then_check_downloads_again_witness :
  downloads (AudioFetcher.trace
               (AudioFetcher.check_playlist_for_new_tracks
                  (af_world two_songs always_found (Returned tt))
                  (AudioFetcher.cleanup_processed_tracks af_full_registry)))
  = downloads (AudioFetcher.trace af_full_registry)
    ++ map (fun t => (query_of t, None))
         (filter (fun t => AudioFetcher.t_id t
                           ∉ AudioFetcher.failed_tracks af_full_registry)
                 (fst (AudioFetcher.get_playlist_tracks
                         (af_world two_songs always_found (Returned tt))
                         af_full_registry))).
Proof.
  apply (cleanup_then_check_downloads_again
           (af_world two_songs always_found (Returned tt)) af_full_registry).
  - cbn [af_full_registry AudioFetcher.processed_tracks].
    rewrite size_list_to_set.
    + rewrite length_fmap, length_seq. lia.
    + apply (NoDup_fmap_2 _), NoDup_seq.
  - cbn [af_full_registry AudioFetcher.failed_tracks]. rewrite size_empty. lia.
Defined.

(** * Further facts about the downloads from a url *)

Section UrlDownloadFacts.
Import AppDownloader.

Lemma download_from_url_with_filename_spec
    (w : ytdlp_url) (h : list ycall) (url : pystr) (preferred_filename : option pystr) :
  exists new,
    snd (download_from_url_with_filename w h url preferred_filename)
    = h ++ YSearch url :: new
    /\ (new = []
        \/ exists n,
             new = [YDownload url (path_join (download_path (yt w)) (n ++ py ".%(ext)s"))]
             /\ n <> [] /\ reserved_free n = true
             /\ (forall c p, preferred_filename = Some (c :: p) ->
                   n = AppUtils.sanitize_filename (c :: p)))
    /\ (forall p, fst (download_from_url_with_filename w h url preferred_filename) = Some p ->
          new <> [] /\ resolved (yt w) p).
Proof.
  unfold download_from_url_with_filename.
  destruct (extract_url_info w h url) as [[i|]|];
    try (exists []; split; [reflexivity | split; [left; reflexivity | discriminate]]).
  set (fname := match preferred_filename with
                | Some (c :: p) => AppUtils.sanitize_filename (c :: p)
                | _ => AppUtils.sanitize_filename
                         (AppUtils.clean_track_title (default (py "Unknown") (vi_title i)))
                end).
  assert (fname <> [] /\ reserved_free fname = true
          /\ (forall c p, preferred_filename = Some (c :: p) ->
                fname = AppUtils.sanitize_filename (c :: p))) as (Hne & Hrf & Hpf).
  { subst fname. destruct preferred_filename as [[|c p]|];
      match goal with |- context [AppUtils.sanitize_filename ?x] =>
        destruct (sanitize_filename_props x) as (H1 & H2 & _) end;
      (split; [exact H1|]); (split; [exact H2|]);
      intros c' p' E; try discriminate E; injection E as <- <-; reflexivity. }
  exists [YDownload url (path_join (download_path (yt w)) (fname ++ py ".%(ext)s"))].
  assert (forall x, (h ++ [YSearch url]) ++ [x] = h ++ [YSearch url; x]) as Happ
    by (intros x; rewrite <- app_assoc; reflexivity).
  rewrite !Happ.
  assert (forall (r : option pystr),
            snd (r, h ++ [YSearch url;
                          YDownload url (path_join (download_path (yt w))
                                           (fname ++ py ".%(ext)s"))])
            = h ++ [YSearch url;
                    YDownload url (path_join (download_path (yt w))
                                     (fname ++ py ".%(ext)s"))]) as Hsnd
    by reflexivity.
  split; [|split].
  - destruct (download (yt w) _ _ _); [|reflexivity].
    destruct (iterdir (yt w) _); [|reflexivity].
    destruct (fst (_find_downloaded_file _ _ fname)); reflexivity.
  - right. exists fname. repeat split; assumption.
  - destruct (download (yt w) _ _ _); [|discriminate].
    destruct (iterdir (yt w) _) as [listing|] eqn:Ei; [|discriminate].
    destruct (fst (_find_downloaded_file listing _ fname)) as [f|] eqn:Ef; [|discriminate].
    cbn [fst]. intros p [= <-]. split; [discriminate|].
    apply find_downloaded_file_result_acceptable in Ef. destruct Ef as [Hin Hacc].
    exists (h ++ [YSearch url;
                  YDownload url (path_join (download_path (yt w)) (fname ++ py ".%(ext)s"))]),
      listing, f.
    repeat split; assumption.
Qed.

End UrlDownloadFacts.

(** X25: [download_from_url_with_filename] asks yt-dlp about the url once
    and downloads at most once, that very url, under a non-empty name
    without reserved characters (the sanitized preferred name when one is
    given).  A path it returns comes from the listing of the download
    directory read after that download call, which did not raise: it names
    the file [_find_downloaded_file] picks from that listing, a regular
    non-web file. *)
Theorem download_from_url_with_filename_calls
    (w : ytdlp_url) (h : list ycall) (url : pystr) (preferred_filename : option pystr) :
  exists new,
    snd (AppDownloader.download_from_url_with_filename w h url preferred_filename)
    = h ++ YSearch url :: new
    /\ (new = []
        \/ exists n,
             new = [YDownload url (path_join (download_path (yt w)) (n ++ py ".%(ext)s"))]
             /\ n <> [] /\ reserved_free n = true
             /\ (forall c p, preferred_filename = Some (c :: p) ->
                   n = AppUtils.sanitize_filename (c :: p)))
    /\ (forall p,
          fst (AppDownloader.download_from_url_with_filename w h url preferred_filename)
          = Some p ->
          exists n files f,
            new = [YDownload url (path_join (download_path (yt w)) (n ++ py ".%(ext)s"))]
            /\ download (yt w) (h ++ [YSearch url]) url
                 (path_join (download_path (yt w)) (n ++ py ".%(ext)s")) <> Raised
            /\ iterdir (yt w) (h ++ YSearch url :: new) = Returned files
            /\ fst (AppDownloader._find_downloaded_file files
                      (time_now (yt w) (h ++ YSearch url :: new)) n) = Some f
            /\ In f files /\ acceptable_file f = true
            /\ p = path_join (download_path (yt w)) (name f)).
Proof.
  unfold AppDownloader.download_from_url_with_filename.
  destruct (extract_url_info w h url) as [[i|]|];
    try (exists []; split; [reflexivity | split; [left; reflexivity | discriminate]]).
  set (fname := match preferred_filename with
                | Some (c :: p) => AppUtils.sanitize_filename (c :: p)
                | _ => AppUtils.sanitize_filename
                         (AppUtils.clean_track_title (default (py "Unknown") (vi_title i)))
                end).
  assert (fname <> [] /\ reserved_free fname = true
          /\ (forall c p, preferred_filename = Some (c :: p) ->
                fname = AppUtils.sanitize_filename (c :: p))) as (Hne & Hrf & Hpf).
  { subst fname. destruct preferred_filename as [[|c p]|];
      match goal with |- context [AppUtils.sanitize_filename ?x] =>
        destruct (sanitize_filename_props x) as (H1 & H2 & _) end;
      (split; [exact H1|]); (split; [exact H2|]);
      intros c' p' E; try discriminate E; injection E as <- <-; reflexivity. }
  exists [YDownload url (path_join (download_path (yt w)) (fname ++ py ".%(ext)s"))].
  assert (forall x, (h ++ [YSearch url]) ++ [x] = h ++ [YSearch url; x]) as Happ
    by (intros x; rewrite <- app_assoc; reflexivity).
  rewrite !Happ.
  split; [|split].
  - destruct (download (yt w) _ _ _); [|reflexivity].
    destruct (iterdir (yt w) _); [|reflexivity].
    destruct (fst (AppDownloader._find_downloaded_file _ _ fname)); reflexivity.
  - right. exists fname. repeat split; assumption.
  - destruct (download (yt w) _ _ _) as [done|] eqn:Ed; [|discriminate].
    destruct (iterdir (yt w) _) as [listing|] eqn:Ei; [|discriminate].
    destruct (fst (AppDownloader._find_downloaded_file listing _ fname)) as [f|] eqn:Ef; [|discriminate].
    cbn [fst]. intros p [= <-].
    exists fname, listing, f.
    pose proof (find_downloaded_file_result_acceptable _ _ _ _ Ef) as [Hin Hacc].
    split; [reflexivity|].
    split; [first [rewrite Ed; discriminate | intros Hx; discriminate Hx]|].
    split; [first [exact Ei | reflexivity]|].
    split; [first [exact Ef | reflexivity]|]. repeat split; assumption.
Qed.

Section WebFacts.
Import AppWebUI.

Lemma truthy_strip_valid (url : pystr) :
  http_url url = true -> truthy url = true /\ truthy (PyStr.strip url) = true.
Proof.
  unfold http_url. intros H.
  assert (truthy (PyStr.strip url) = true) as Hs.
  { destruct (PyStr.strip url) as [|c s]; [discriminate H | reflexivity]. }
  split; [|exact Hs].
  destruct url as [|c s]; [discriminate Hs | reflexivity].
Qed.

Lemma download_from_form_invalid (w : ytdlp_url) (h : list ycall)
    (url : pystr) (filename : option pystr) :
  http_url url = false ->
  snd (download_from_form w h url filename) = h
  /\ exists d, fst (download_from_form w h url filename) = Raise (HTTPException 400 (Text d)).
Proof.
  unfold http_url, download_from_form. intros H.
  destruct (negb (truthy url) || negb (truthy (PyStr.strip url))).
  - split; [reflexivity | eexists; reflexivity].
  - rewrite H. split; [reflexivity | eexists; reflexivity].
Qed.

(** With a valid url, the form handler is the downloader call on the
    stripped url. *)
Lemma download_from_form_valid (w : ytdlp_url) (h : list ycall)
    (url : pystr) (filename : option pystr) :
  http_url url = true ->
  exists pf,
    (pf = None
     \/ exists fn, filename = Some fn /\ PyStr.strip fn <> []
                   /\ pf = Some (AppUtils.sanitize_filename (PyStr.strip fn)))
    /\ (forall fn, filename = Some fn -> PyStr.strip fn <> [] ->
          pf = Some (AppUtils.sanitize_filename (PyStr.strip fn)))
    /\ snd (download_from_form w h url filename)
       = snd (AppDownloader.download_from_url_with_filename w h (PyStr.strip url) pf)
    /\ fst (download_from_form w h url filename)
       = match fst (AppDownloader.download_from_url_with_filename w h (PyStr.strip url) pf) with
         | Some f => Return {| dc_success := true;
                               dc_message := py "Download completed successfully";
                               dc_filename := f |}
         | None => Raise (HTTPException 500 (Text (py "Download failed")))
         end.
Proof.
  intros Hv. destruct (truthy_strip_valid url Hv) as [H1 H2].
  unfold download_from_form. rewrite H1, H2. unfold http_url in Hv. rewrite Hv.
  cbn [negb orb].
  set (pf := match filename with
             | Some fn =>
                 if truthy fn && truthy (PyStr.strip fn)
                 then Some (AppUtils.sanitize_filename (PyStr.strip fn)) else None
             | None => None
             end).
  assert ((pf = None
           \/ exists fn, filename = Some fn /\ PyStr.strip fn <> []
                         /\ pf = Some (AppUtils.sanitize_filename (PyStr.strip fn)))
          /\ (forall fn, filename = Some fn -> PyStr.strip fn <> [] ->
                pf = Some (AppUtils.sanitize_filename (PyStr.strip fn)))) as [Hpf1 Hpf2].
  { subst pf. destruct filename as [fn|].
    - destruct (PyStr.strip fn) as [|c s] eqn:Es.
      + rewrite andb_false_r. split; [left; reflexivity|].
        intros fn' [= <-] Hne. congruence.
      + assert (truthy fn = true) as ->
          by (destruct fn; [discriminate Es | reflexivity]).
        cbn [truthy andb]. split.
        * right. exists fn. rewrite Es. repeat split; [discriminate].
        * intros fn' [= <-] _. rewrite Es. reflexivity.
    - split; [left; reflexivity | intros fn' E; discriminate E]. }
  exists pf. split; [exact Hpf1|]. split; [exact Hpf2|].
  assert ((match pf with
           | Some (c :: p) =>
               AppDownloader.download_from_url_with_filename w h (PyStr.strip url) (Some (c :: p))
           | _ => AppDownloader.download_from_url w h (PyStr.strip url)
           end)
          = AppDownloader.download_from_url_with_filename w h (PyStr.strip url) pf) as ->.
  { destruct pf as [[|c p]|]; reflexivity. }
  destruct (AppDownloader.download_from_url_with_filename w h (PyStr.strip url) pf)
    as [[f|] h']; split; reflexivity.
Qed.

End WebFacts.

(** X26: the download form answers 400 exactly when the url, stripped, does
    not start with [http://] or [https://], and then yt-dlp is not called at
    all.  Otherwise yt-dlp is asked about the stripped url, at most one
    download is made, of that url, and the answer is either a success that
    carries the path of a regular non-web file listed in the download
    directory, or the error 500 [Download failed]. *)
Theorem download_from_form_answers
    (w : ytdlp_url) (h : list ycall) (url : pystr) (filename : option pystr) :
  let r := AppWebUI.download_from_form w h url filename in
  if http_url url then
    exists new,
      snd r = h ++ YSearch (PyStr.strip url) :: new
      /\ length (ydownloads new) <= 1
      /\ (forall u o, In (u, o) (ydownloads new) -> u = PyStr.strip url)
      /\ match fst r with
         | AppWebUI.Return c =>
             AppWebUI.dc_success c = true /\ resolved (yt w) (AppWebUI.dc_filename c)
         | AppWebUI.Raise e =>
             e = AppWebUI.HTTPException 500 (AppWebUI.Text (py "Download failed"))
         end
  else
    snd r = h
    /\ exists d, fst r = AppWebUI.Raise (AppWebUI.HTTPException 400 (AppWebUI.Text d)).
Proof.
  cbn zeta. destruct (http_url url) eqn:Hv; [|apply download_from_form_invalid, Hv].
  destruct (download_from_form_valid w h url filename Hv) as (pf & _ & _ & Hs & Hf).
  destruct (download_from_url_with_filename_spec w h (PyStr.strip url) pf)
    as (new & Hn & Hd & Hr).
  exists new. rewrite Hs, Hf. split; [exact Hn|]. split; [|split].
  - destruct Hd as [->|(n & -> & _)]; cbn; lia.
  - intros u o Hin. destruct Hd as [->|(n & -> & _)]; [inversion Hin|].
    cbn in Hin. destruct Hin as [[= <- _]|[]]. reflexivity.
  - destruct (fst (AppDownloader.download_from_url_with_filename w h (PyStr.strip url) pf))
      as [f|]; [|reflexivity].
    split; [reflexivity|]. apply Hr. reflexivity.
Qed.

(** X27: a custom file name given in the form is stripped and then
    sanitized twice, once by the form handler and once by the downloader:
    every download is written under the twice sanitized name. *)
Theorem download_from_form_custom_name
    (w : ytdlp_url) (h : list ycall) (url fn : pystr) :
  http_url url = true ->
  PyStr.strip fn <> [] ->
  exists new,
    snd (AppWebUI.download_from_form w h url (Some fn)) = h ++ new
    /\ forall u o, In (u, o) (ydownloads new) ->
         o = path_join (download_path (yt w))
               (AppUtils.sanitize_filename
                  (AppUtils.sanitize_filename (PyStr.strip fn)) ++ py ".%(ext)s").
Proof.
  intros Hv Hfn.
  destruct (download_from_form_valid w h url (Some fn) Hv) as (pf & _ & Hpf & Hs & _).
  specialize (Hpf fn eq_refl Hfn).
  destruct (download_from_url_with_filename_spec w h (PyStr.strip url) pf)
    as (new & Hn & Hd & _).
  exists (YSearch (PyStr.strip url) :: new). rewrite Hs. split; [exact Hn|].
  intros u o Hin. cbn in Hin.
  destruct Hd as [->|(n & -> & _ & _ & Hname)]; [inversion Hin|].
  cbn in Hin. destruct Hin as [[= _ <-]|[]].
  destruct (AppUtils.sanitize_filename (PyStr.strip fn)) as [|c p] eqn:Es.
  - destruct (sanitize_filename_props (PyStr.strip fn)) as (Hne & _). congruence.
  - rewrite (Hname c p Hpf). reflexivity.
Qed.

Lemma download_from_form_custom_name_witness :
  exists new,
    snd (AppWebUI.download_from_form url_world [] (py " https://example.org/v ")
           (Some (py "_ _a")))
    = [] ++ new
    /\ forall u o, In (u, o) (ydownloads new) ->
         o = path_join (download_path (yt url_world))
               (AppUtils.sanitize_filename
                  (AppUtils.sanitize_filename (PyStr.strip (py "_ _a"))) ++ py ".%(ext)s").
Proof.
  apply (download_from_form_custom_name url_world [] (py " https://example.org/v ")
           (py "_ _a")).
  - reflexivity.
  - discriminate.
Defined.

(** X28: the information endpoint never answers 404: when the downloader
    has no information, the 404 raised in the handler is caught by its own
    [except Exception] and leaves as a 500 that quotes it. *)
Theorem get_download_info_never_404
    {A : Type} (downloader_get_download_info : pystr -> option A) (url : pystr) :
  match AppWebUI.get_download_info downloader_get_download_info url with
  | AppWebUI.Return info => downloader_get_download_info url = Some info
  | AppWebUI.Raise e =>
      downloader_get_download_info url = None
      /\ e = AppWebUI.HTTPException 500
               (AppWebUI.TextAndStr (py "Info error: ")
                  (AppWebUI.HTTPException 404
                     (AppWebUI.Text (py "Could not get media information"))))
  end.
Proof.
  unfold AppWebUI.get_download_info, AppWebUI.try_except.
  destruct (downloader_get_download_info url); [reflexivity | split; reflexivity].
Qed.

(** * Further facts about the clean-up of the download directory *)

Section CleanupFacts.
Import AudioFetcherDownloader.

Lemma insert_newest_first_In (x : file) (l : list file) (z : file) :
  In z (insert_newest_first x l) <-> z = x \/ In z l.
Proof.
  induction l as [|y r IH]; cbn [insert_newest_first].
  - cbn. intuition congruence.
  - destruct (st_mtime x <? st_mtime y)%Z; cbn [In]; rewrite ?IH; intuition congruence.
Qed.

Lemma insert_newest_first_length (x : file) (l : list file) :
  length (insert_newest_first x l) = S (length l).
Proof.
  induction l as [|y r IH]; cbn [insert_newest_first]; [reflexivity|].
  destruct (st_mtime x <? st_mtime y)%Z; cbn [length]; [rewrite IH|]; reflexivity.
Qed.

Lemma sort_newest_first_In (l : list file) (z : file) :
  In z (sort_newest_first l) <-> In z l.
Proof.
  induction l as [|x l IH]; cbn [sort_newest_first foldr]; [reflexivity|].
  fold (sort_newest_first l). rewrite insert_newest_first_In, IH. cbn. intuition congruence.
Qed.

Lemma sort_newest_first_length (l : list file) :
  length (sort_newest_first l) = length l.
Proof.
  induction l as [|x l IH]; cbn [sort_newest_first foldr]; [reflexivity|].
  fold (sort_newest_first l). rewrite insert_newest_first_length, IH. reflexivity.
Qed.

Lemma insert_newest_first_sorted (x : file) (l : list file) :
  newest_first l -> newest_first (insert_newest_first x l).
Proof.
  unfold newest_first. induction 1 as [|y r Hr IH Hy]; cbn [insert_newest_first].
  - repeat constructor.
  - destruct (st_mtime x <? st_mtime y)%Z eqn:E.
    + apply Z.ltb_lt in E. constructor; [exact IH|].
      apply List.Forall_forall. intros z Hz. apply insert_newest_first_In in Hz.
      destruct Hz as [->|Hz]; [lia|].
      exact (proj1 (List.Forall_forall _ _) Hy z Hz).
    + apply Z.ltb_ge in E. constructor; [constructor; assumption|].
      constructor; [exact E|].
      apply List.Forall_forall. intros z Hz.
      pose proof (proj1 (List.Forall_forall _ _) Hy z Hz) as Hzy. cbn beta in Hzy. lia.
Qed.

Lemma sort_newest_first_sorted (l : list file) : newest_first (sort_newest_first l).
Proof.
  induction l as [|x l IH]; cbn [sort_newest_first foldr]; [constructor|].
  apply insert_newest_first_sorted, IH.
Qed.

Lemma In_drop {A : Type} (l : list A) :
  forall m x, In x (drop m l) -> In x l.
Proof.
  induction l as [|a l IH]; intros [|m] x; cbn [drop]; try tauto.
  intros H. right. exact (IH m x H).
Qed.

Lemma In_take_or_drop {A : Type} (m : nat) (l : list A) (x : A) :
  In x l -> In x (take m l) \/ In x (drop m l).
Proof. intros H. rewrite <- (take_drop m l) in H. apply in_app_or, H. Qed.

Lemma sorted_take_drop (l : list file) :
  newest_first l ->
  forall m a b, In a (take m l) -> In b (drop m l) -> (st_mtime b <= st_mtime a)%Z.
Proof.
  unfold newest_first. induction 1 as [|x l Hl IH Hx]; intros m a b.
  - destruct m; intros [].
  - destruct m as [|m]; [intros []|]. cbn [firstn skipn].
    intros [<-|Ha] Hb.
    + apply In_drop in Hb. exact (proj1 (List.Forall_forall _ _) Hx b Hb).
    + exact (IH m a b Ha Hb).
Qed.

Lemma unlink_all_files (unlink : list pystr -> pystr -> outcome unit) (fs : list file) :
  forall done, map fst (unlink_all unlink done fs) = fs.
Proof.
  induction fs as [|f fs IH]; intros done; cbn [unlink_all map fst]; [reflexivity|].
  rewrite IH. reflexivity.
Qed.

Lemma cleanup_old_files_removed (dir : list file)
    (unlink : list pystr -> pystr -> outcome unit) (max_files : Z) :
  map fst (cleanup_old_files dir unlink max_files)
  = if (max_files <? Z.of_nat (length (cleanup_candidates dir)))%Z
    then slice_from max_files (sort_newest_first (cleanup_candidates dir))
    else [].
Proof.
  unfold cleanup_old_files. fold (cleanup_candidates dir).
  rewrite sort_newest_first_length.
  destruct (max_files <? _)%Z; [apply unlink_all_files | reflexivity].
Qed.

End CleanupFacts.

(** X29: [cleanup_old_files] keeps the newest files: with [max_files] not
    negative, it calls [unlink] on all but [max_files] of the entries that
    match its four patterns (on none when there are no more than that),
    whether or not some of the calls raise, and every matching entry it
    leaves alone is at least as new as every entry it tries to remove. *)
Theorem cleanup_old_files_keeps_newest
    (dir : list file) (unlink : list pystr -> pystr -> outcome unit) (max_files : Z) :
  (0 <= max_files)%Z ->
  let removed := map fst (AudioFetcherDownloader.cleanup_old_files dir unlink max_files) in
  length removed = length (cleanup_candidates dir) - Z.to_nat max_files
  /\ forall f g, In f removed -> In g (cleanup_candidates dir) -> ~ In g removed ->
       (st_mtime f <= st_mtime g)%Z.
Proof.
  intros Hm. cbn zeta. rewrite cleanup_old_files_removed.
  unfold AudioFetcherDownloader.slice_from.
  apply Z.leb_le in Hm. rewrite Hm. apply Z.leb_le in Hm.
  destruct (max_files <? Z.of_nat (length (cleanup_candidates dir)))%Z eqn:E.
  - split.
    + rewrite length_drop, sort_newest_first_length. reflexivity.
    + intros f g Hf Hg Hng.
      apply (proj2 (sort_newest_first_In (cleanup_candidates dir) g)) in Hg.
      destruct (In_take_or_drop (Z.to_nat max_files) _ _ Hg) as [Ht|Hd]; [|tauto].
      exact (sorted_take_drop _ (sort_newest_first_sorted _) _ g f Ht Hf).
  - apply Z.ltb_ge in E. split; [cbn [length]; lia | intros f g []].
Qed.

Lemma cleanup_old_files_keeps_newest_witness :
  let removed :=
    map fst (AudioFetcherDownloader.cleanup_old_files cleanup_directory
               (fun _ _ => Returned tt) 2) in
  length removed = length (cleanup_candidates cleanup_directory) - Z.to_nat 2
  /\ forall f g, In f removed -> In g (cleanup_candidates cleanup_directory) ->
       ~ In g removed -> (st_mtime f <= st_mtime g)%Z.
Proof.
  apply (cleanup_old_files_keeps_newest cleanup_directory (fun _ _ => Returned tt) 2).
  lia.
Defined.

(** X30: [cleanup_old_files] only ever calls [unlink] on an entry of the
    download directory whose name ends in [.mp3], [.m4a], [.wav] or
    [.flac], whatever [max_files] is; other downloads, such as [.opus] or
    [.webm] files, are never cleaned up. *)
Theorem cleanup_old_files_only_matching
    (dir : list file) (unlink : list pystr -> pystr -> outcome unit) (max_files : Z)
    (f : file) :
  In f (map fst (AudioFetcherDownloader.cleanup_old_files dir unlink max_files)) ->
  In f dir
  /\ exists ext,
       In ext AudioFetcherDownloader.cleanup_extensions
       /\ PyStr.endswith ext (name f) = true.
Proof.
  rewrite cleanup_old_files_removed.
  destruct (max_files <? _)%Z; [|intros []].
  unfold AudioFetcherDownloader.slice_from.
  intros Hf.
  assert (In f (AudioFetcherDownloader.sort_newest_first (cleanup_candidates dir))) as Hs
    by (destruct (0 <=? max_files)%Z; exact (In_drop _ _ _ Hf)).
  apply (proj1 (sort_newest_first_In _ _)) in Hs. unfold cleanup_candidates in Hs.
  apply in_flat_map in Hs. destruct Hs as (ext & Hext & Hin).
  unfold AudioFetcherDownloader.glob in Hin.
  apply list_elem_of_In, list_elem_of_filter in Hin. destruct Hin as [He Hd].
  split; [apply list_elem_of_In, Hd|]. exists ext. split; assumption.
Qed.

Lemma cleanup_old_files_only_matching_witness :
  In {| name := py "a.mp3"; is_file := true; st_mtime := 10 |} cleanup_directory
  /\ exists ext,
       In ext AudioFetcherDownloader.cleanup_extensions
       /\ PyStr.endswith ext (py "a.mp3") = true.
Proof.
  apply (cleanup_old_files_only_matching cleanup_directory (fun _ _ => Returned tt) 2
           {| name := py "a.mp3"; is_file := true; st_mtime := 10 |}).
  vm_compute. left. reflexivity.
Defined.
